(** * gocover: the profile parser of [pkg/parser/parser.go]

    A shallow embedding of the parser package: the statement extractor
    ([FuncVisitor], [StmtVisitor]), the reconciliation of profile blocks
    with statement extents ([convertProfile]), the diff correlator
    ([findState], [findChange], [InFolder]) and the entry point [Parse],
    followed by the properties established for them. *)

From Stdlib Require Import ZArith List String Ascii Bool Lia Sorted.
From Stdlib Require Import DecimalString.
Import ListNotations.
Open Scope Z_scope.

Set Warnings "-register-all".

(* ================================================================== *)
(** * Part I: the program *)
(* ================================================================== *)

(** ** Go's [int] and [int64]: 64-bit two's complement *)

Definition int_min : Z := - 2 ^ 63.
Definition int_max : Z := 2 ^ 63 - 1.

Definition in_int (z : Z) : Prop := int_min <= z <= int_max.

Definition wrap (z : Z) : Z := (z + 2 ^ 63) mod 2 ^ 64 - 2 ^ 63.

Definition int_add (a b : Z) : Z := wrap (a + b).
Definition int_sub (a b : Z) : Z := wrap (a - b).

(** ** Go strings and [strings.HasSuffix] *)

(** [s[n:]] *)
Fixpoint slice_from (n : nat) (s : string) : string :=
  match n, s with
  | O, _ => s
  | S n', String _ s' => slice_from n' s'
  | S _, EmptyString => EmptyString
  end.

(** [s[:n]] *)
Fixpoint slice_to (n : nat) (s : string) : string :=
  match n, s with
  | O, _ => EmptyString
  | S n', String c s' => String c (slice_to n' s')
  | S _, EmptyString => EmptyString
  end.

(** [strings.HasSuffix]:
    [len(s) >= len(suffix) && s[len(s)-len(suffix):] == suffix]. *)
Definition HasSuffix (s suffix : string) : bool :=
  (String.length suffix <=? String.length s)%nat
  && String.eqb (slice_from (String.length s - String.length suffix) s) suffix.

(** ** Errors, and the three ways a Go call can end *)

(** An [error] value: an opaque message ([errors.New], or [fmt.Errorf]
    whose format has no [%w], which returns such a value), or the result
    of [fmt.Errorf] with a [%w] verb: its format, its other operands and
    the error it wraps. *)
Inductive error : Type :=
| errorString (text : string)
| wrapError (format : string) (operands : list string) (err : error).

(** [errors.Unwrap] *)
Definition Unwrap (e : error) : option error :=
  match e with
  | errorString _ => None
  | wrapError _ _ inner => Some inner
  end.

Fixpoint error_eqb (a b : error) {struct a} : bool :=
  match a, b with
  | errorString s, errorString t => String.eqb s t
  | wrapError f ops x, wrapError g ops' y =>
      String.eqb f g
      && (if list_eq_dec string_dec ops ops' then true else false)
      && error_eqb x y
  | _, _ => false
  end.

(** The walk of [errors.Is] along the [Unwrap] chain of [e], with errors
    compared by value: [e], or an error reached from it by [Unwrap], is
    equal to [target].  Go compares the errors of the chain with [==],
    which on the pointers that [errors.New] and [fmt.Errorf] return is
    identity, and which [errors.Is] does not try on a target of a type
    that is not comparable: [true] here says that an error equal to
    [target] is in the chain, [false] that [errors.Is] is false. *)
Fixpoint errors_Is (e target : error) {struct e} : bool :=
  error_eqb e target
  || match e with
     | errorString _ => false
     | wrapError _ _ inner => errors_Is inner target
     end.

(** A call returns a value, returns an error, panics, or never returns. *)
Inductive outcome (A : Type) : Type :=
| Ok (a : A)
| Err (e : error)
| Panic (msg : string)
| Hang.
Arguments Ok {A} a.
Arguments Err {A} e.
Arguments Panic {A} msg.
Arguments Hang {A}.

Definition bind {A B : Type} (m : outcome A) (k : A -> outcome B) : outcome B :=
  match m with
  | Ok a => k a
  | Err e => Err e
  | Panic msg => Panic msg
  | Hang => Hang
  end.

Notation "x <- m ;; k" := (bind m (fun x => k))
  (at level 61, m at next level, right associativity).
Notation "' pat <- m ;; k" := (bind m (fun x => match x with pat => k end))
  (at level 61, pat pattern, m at next level, right associativity).

(** ** [gittool]: the diff hunks handed to [Parse] *)

Module gittool.

Record Section_ : Type := mkSection {
  StartLine : Z;
  EndLine : Z
}.

Record Change : Type := mkChange {
  FileName : string;
  Sections : list Section_
}.

End gittool.

(** ** [cover]: the decoded coverage profile *)

Module cover.

Record ProfileBlock : Type := mkBlock {
  StartLine : Z;
  StartCol : Z;
  EndLine : Z;
  EndCol : Z;
  NumStmt : Z;
  Count : Z
}.

Record Profile : Type := mkProfile {
  FileName : string;
  Mode : string;
  Blocks : list ProfileBlock
}.

Definition block_eqb (a b : ProfileBlock) : bool :=
  (StartLine a =? StartLine b) && (StartCol a =? StartCol b)
  && (EndLine a =? EndLine b) && (EndCol a =? EndCol b)
  && (NumStmt a =? NumStmt b) && (Count a =? Count b).

End cover.

(** ** [annotation]: the parsed ignore directives of one file *)

Module annotation.

Inductive IgnoreType : Type := NO_IGNORE | FILE_IGNORE | BLOCK_IGNORE.

(** [IgnoreBlocks] is a Go map keyed by profile block; only the
    presence of a key is ever consulted. *)
Record IgnoreProfile : Type := mkIgnoreProfile {
  Type_ : IgnoreType;
  IgnoreBlocks : list cover.ProfileBlock
}.

Definition has_block (ip : IgnoreProfile) (b : cover.ProfileBlock) : bool :=
  existsb (cover.block_eqb b) (IgnoreBlocks ip).

End annotation.

(** ** [go/token]: positions *)

Module token.

(** [token.Pos] is an [int]; [NoPos] is 0. *)
Definition NoPos : Z := 0.
Definition IsValid (p : Z) : bool := negb (p =? NoPos).

Record Position : Type := mkPosition {
  Filename : string;
  Offset : Z;
  Line : Z;
  Column : Z
}.

(** A file set is used only through [fset.Position(p)]. *)
Record FileSet : Type := mkFileSet {
  position : Z -> Position
}.

End token.

(** ** [go/ast]: the statements [VisitStmt] distinguishes

    Every statement kind the type switch of [VisitStmt] names has a
    constructor carrying the fields that [VisitStmt], [Pos] and [End]
    read; all the other kinds are [OtherStmt] with their two positions. *)

Module ast.

Inductive Expr : Type :=
| StarExpr (X : Expr)
| IndexExpr (X Index : Expr)
| Ident (Name : string)
| OtherExpr.

Inductive Stmt : Type :=
| BlockStmt (Lbrace : Z) (List_ : list Stmt) (Rbrace : Z)
| CaseClause (Case : Z) (Colon : Z) (Body : list Stmt)
| CommClause (Case : Z) (Colon : Z) (Body : list Stmt)
| ForStmt (For : Z) (Init Post : option Stmt) (Body : Stmt)
| IfStmt (If : Z) (Init : option Stmt) (Body : Stmt) (Else : option Stmt)
| LabeledStmt (Label : Z) (Stmt_ : Stmt)
| RangeStmt (For : Z) (Body : Stmt)
| SelectStmt (Select : Z) (Body : Stmt)
| SwitchStmt (Switch : Z) (Init : option Stmt) (Body : Stmt)
| TypeSwitchStmt (Switch : Z) (Init : option Stmt) (Assign : Stmt) (Body : Stmt)
| OtherStmt (pos end_ : Z).

(** [s.Pos()] *)
Definition Pos (s : Stmt) : Z :=
  match s with
  | BlockStmt lbrace _ _ => lbrace
  | CaseClause case _ _ => case
  | CommClause case _ _ => case
  | ForStmt for_ _ _ _ => for_
  | IfStmt if_ _ _ _ => if_
  | LabeledStmt label _ => label
  | RangeStmt for_ _ => for_
  | SelectStmt select _ => select
  | SwitchStmt switch _ _ => switch
  | TypeSwitchStmt switch _ _ _ => switch
  | OtherStmt pos _ => pos
  end.

(** [s.List[n-1].End()] when the list has elements, else [dflt]. *)
Fixpoint last_End (end_of : Stmt -> Z) (l : list Stmt) (dflt : Z) : Z :=
  match l with
  | [] => dflt
  | x :: rest =>
      match rest with
      | [] => end_of x
      | _ :: _ => last_End end_of rest dflt
      end
  end.

(** [s.End()] *)
Fixpoint End (s : Stmt) : Z :=
  match s with
  | BlockStmt lbrace l rbrace =>
      if token.IsValid rbrace then int_add rbrace 1
      else last_End End l (int_add lbrace 1)
  | CaseClause _ colon body => last_End End body (int_add colon 1)
  | CommClause _ colon body => last_End End body (int_add colon 1)
  | ForStmt _ _ _ body => End body
  | IfStmt _ _ body els =>
      match els with
      | Some e => End e
      | None => End body
      end
  | LabeledStmt _ st => End st
  | RangeStmt _ body => End body
  | SelectStmt _ body => End body
  | SwitchStmt _ _ body => End body
  | TypeSwitchStmt _ _ _ body => End body
  | OtherStmt _ end_ => end_
  end.

(** The function-like nodes [ast.Walk] reaches: literals and
    declarations, with the receiver types of a method. *)
Inductive Node : Type :=
| FuncLit (pos : Z) (Body : option Stmt)
| FuncDecl (Recv : option (list Expr)) (Name : string) (pos : Z) (Body : option Stmt).

(** A parsed file, as [ast.Walk] presents it to [FuncVisitor.Visit]:
    its function literals and declarations in the order of the walk.
    The statement visitor never enters an expression, so the body of a
    literal is visited only through the literal's own node. *)
Record File : Type := mkFile {
  funcNodes : list Node
}.

End ast.

(** ** Extents *)

Record extent : Type := mkExtent {
  startOffset : Z;
  startLine : Z;
  startCol : Z;
  endOffset : Z;
  endLine : Z;
  endCol : Z
}.

Definition StmtExtent : Type := extent.

Record FuncExtent : Type := mkFuncExtent {
  fe_extent : extent;
  name : string;
  stmts : list StmtExtent
}.

(** ** The structural extent extractor *)

(** [exprName] *)
Fixpoint exprName (x : ast.Expr) : string :=
  match x with
  | ast.StarExpr y => exprName y
  | ast.IndexExpr y index => (exprName y ++ "[" ++ exprName index ++ "]")%string
  | ast.Ident nm => nm
  | ast.OtherExpr => EmptyString
  end.

(** [functionName]; [f.Recv.List[0]] panics on an empty receiver list. *)
Definition functionName (recv : option (list ast.Expr)) (nm : string) : outcome string :=
  match recv with
  | None => Ok nm
  | Some [] => Panic "runtime error: index out of range [0] with length 0"
  | Some (t :: _) => Ok (exprName t ++ "." ++ nm)%string
  end.

(** The extent computed from [fset.Position(s.Pos())] and
    [fset.Position(s.End())]. *)
Definition extent_between (fset : token.FileSet) (pos end_ : Z) : extent :=
  let start := token.position fset pos in
  let stop := token.position fset end_ in
  {| startOffset := token.Offset start;
     startLine := token.Line start;
     startCol := token.Column start;
     endOffset := token.Offset stop;
     endLine := token.Line stop;
     endCol := token.Column stop |}.

Definition extent_of (fset : token.FileSet) (s : ast.Stmt) : StmtExtent :=
  extent_between fset (ast.Pos s) (ast.End s).

(** The inner type switch of the statement loop: clauses and blocks are
    skipped, every other statement appends its extent. *)
Definition record (fset : token.FileSet) (s : ast.Stmt) : list StmtExtent :=
  match s with
  | ast.CaseClause _ _ _ | ast.CommClause _ _ _ | ast.BlockStmt _ _ _ => []
  | _ => [extent_of fset s]
  end.

(** [if s.X != nil { v.VisitStmt(s.X) }] *)
Definition visit_option (visit : ast.Stmt -> outcome (ast.Stmt * list StmtExtent))
  (o : option ast.Stmt) : outcome (option ast.Stmt * list StmtExtent) :=
  match o with
  | None => Ok (None, [])
  | Some x => '(x', es) <- visit x ;; Ok (Some x', es)
  end.

(** The loop over [statements] that ends [VisitStmt]: each statement is
    recorded, then visited. *)
Fixpoint visit_list (rec : ast.Stmt -> list StmtExtent)
  (visit : ast.Stmt -> outcome (ast.Stmt * list StmtExtent))
  (l : list ast.Stmt) : outcome (list ast.Stmt * list StmtExtent) :=
  match l with
  | [] => Ok ([], [])
  | s :: rest =>
      '(s', es) <- visit s ;;
      '(rest', es') <- visit_list rec visit rest ;;
      Ok (s' :: rest', rec s ++ es ++ es')
  end.

(** [const backupToElse = token.Pos(len("else "))] *)
Definition backupToElse : Z := 5.

(** [StmtVisitor.VisitStmt].  The visitor appends to
    [v.function.stmts] and rewrites the tree in place; the embedding
    returns the rewritten statement and the extents appended, in order.
    In the [IfStmt] case the final [v.VisitStmt(s.Else)] is always
    called on a block, so it is written as the statement loop over that
    block's list (the lemma [VisitStmt_else] gives it as the call). *)
Fixpoint VisitStmt (fset : token.FileSet) (s : ast.Stmt) {struct s}
  : outcome (ast.Stmt * list StmtExtent) :=
  match s with
  | ast.BlockStmt lbrace l rbrace =>
      '(l', es) <- visit_list (record fset) (VisitStmt fset) l ;;
      Ok (ast.BlockStmt lbrace l' rbrace, es)
  | ast.CaseClause case colon body =>
      '(body', es) <- visit_list (record fset) (VisitStmt fset) body ;;
      Ok (ast.CaseClause case colon body', es)
  | ast.CommClause case colon body =>
      '(body', es) <- visit_list (record fset) (VisitStmt fset) body ;;
      Ok (ast.CommClause case colon body', es)
  | ast.ForStmt for_ init post body =>
      '(init', e1) <- visit_option (VisitStmt fset) init ;;
      '(post', e2) <- visit_option (VisitStmt fset) post ;;
      '(body', e3) <- VisitStmt fset body ;;
      Ok (ast.ForStmt for_ init' post' body', e1 ++ e2 ++ e3)
  | ast.IfStmt if_ init body els =>
      '(init', e1) <- visit_option (VisitStmt fset) init ;;
      '(body', e2) <- VisitStmt fset body ;;
      match els with
      | None => Ok (ast.IfStmt if_ init' body' None, e1 ++ e2)
      | Some stmt =>
          match stmt with
          | ast.IfStmt stmt_if _ _ _ =>
              let lbrace := int_sub stmt_if backupToElse in
              let rbrace := ast.End stmt in
              '(l', e3) <- visit_list (record fset) (VisitStmt fset) [stmt] ;;
              Ok (ast.IfStmt if_ init' body' (Some (ast.BlockStmt lbrace l' rbrace)),
                  e1 ++ e2 ++ e3)
          | ast.BlockStmt lbrace l rbrace =>
              let lbrace' := int_sub lbrace backupToElse in
              '(l', e3) <- visit_list (record fset) (VisitStmt fset) l ;;
              Ok (ast.IfStmt if_ init' body' (Some (ast.BlockStmt lbrace' l' rbrace)),
                  e1 ++ e2 ++ e3)
          | _ => Panic "unexpected node type in if"
          end
      end
  | ast.LabeledStmt label st =>
      '(st', es) <- VisitStmt fset st ;;
      Ok (ast.LabeledStmt label st', es)
  | ast.RangeStmt for_ body =>
      '(body', es) <- VisitStmt fset body ;;
      Ok (ast.RangeStmt for_ body', es)
  | ast.SelectStmt select body =>
      '(body', es) <- VisitStmt fset body ;;
      Ok (ast.SelectStmt select body', es)
  | ast.SwitchStmt switch init body =>
      '(init', e1) <- visit_option (VisitStmt fset) init ;;
      '(body', e2) <- VisitStmt fset body ;;
      Ok (ast.SwitchStmt switch init' body', e1 ++ e2)
  | ast.TypeSwitchStmt switch init assign body =>
      '(init', e1) <- visit_option (VisitStmt fset) init ;;
      '(assign', e2) <- VisitStmt fset assign ;;
      '(body', e3) <- VisitStmt fset body ;;
      Ok (ast.TypeSwitchStmt switch init' assign' body', e1 ++ e2 ++ e3)
  | ast.OtherStmt pos end_ => Ok (ast.OtherStmt pos end_, [])
  end.

(** [itoa]: the [%d] verb of [fmt.Sprintf]. *)
Definition itoa (z : Z) : string := NilZero.string_of_int (Z.to_int z).

(** [FuncVisitor.Visit] on one node of the walk: [funcs] is [v.funcs]. *)
Definition Visit (fset : token.FileSet) (funcs : list FuncExtent) (node : ast.Node)
  : outcome (list FuncExtent) :=
  '(body, pos, nm) <-
     match node with
     | ast.FuncLit pos body => Ok (body, pos, EmptyString)
     | ast.FuncDecl recv nm pos body =>
         nm' <- functionName recv nm ;; Ok (body, pos, nm')
     end ;;
  match body with
  | None => Ok funcs
  | Some body =>
      let start := token.position fset pos in
      let nm :=
        if String.eqb nm EmptyString then
          ("@" ++ itoa (token.Line start) ++ ":" ++ itoa (token.Column start))%string
        else nm in
      '(_, ses) <- VisitStmt fset body ;;
      Ok (funcs ++ [ {| fe_extent := extent_between fset pos (ast.End body);
                        name := nm;
                        stmts := ses |} ])
  end.

(** [ast.Walk(visitor, parsedFile)] *)
Fixpoint Walk (fset : token.FileSet) (funcs : list FuncExtent) (nodes : list ast.Node)
  : outcome (list FuncExtent) :=
  match nodes with
  | [] => Ok funcs
  | node :: rest => funcs' <- Visit fset funcs node ;; Walk fset funcs' rest
  end.

(** ** The coverage model *)

Inductive Mode : Type := Keep | Ignore.
Inductive State : Type := Original | Changed.

Record Statement : Type := mkStatement {
  StartLine : Z;
  EndLine : Z;
  Start : Z;
  End_ : Z;
  Reached : Z;
  Mode_ : Mode;
  State_ : State
}.

Module Func.
Record Function : Type := mkFunction {
  Name : string;
  File : string;
  Start : Z;
  End_ : Z;
  StartLine : Z;
  EndLine : Z;
  Statements : list Statement
}.
End Func.

Module Pkg.
Record Package : Type := mkPackage {
  Name : string;
  Functions : list Func.Function
}.
End Pkg.

(** The wrapper [statement]: a [*Statement] with its [*StmtExtent]. *)
Record statement : Type := mkstatement {
  Statement_ : Statement;
  StmtExtent_ : StmtExtent
}.

Definition set_Reached (r : Z) (s : statement) : statement :=
  let t := Statement_ s in
  {| Statement_ := {| StartLine := StartLine t; EndLine := EndLine t;
                      Start := Start t; End_ := End_ t;
                      Reached := r; Mode_ := Mode_ t; State_ := State_ t |};
     StmtExtent_ := StmtExtent_ s |}.

Definition set_Mode (m : Mode) (s : statement) : statement :=
  let t := Statement_ s in
  {| Statement_ := {| StartLine := StartLine t; EndLine := EndLine t;
                      Start := Start t; End_ := End_ t;
                      Reached := Reached t; Mode_ := m; State_ := State_ t |};
     StmtExtent_ := StmtExtent_ s |}.

(** ** The diff correlator *)

(** [InFolder] *)
Definition InFolder (parentDir filepath : string) : bool :=
  HasSuffix parentDir filepath.

(** [findChange] *)
Fixpoint findChange (profile : cover.Profile) (changes : list gittool.Change)
  : option gittool.Change :=
  match changes with
  | [] => None
  | change :: rest =>
      if InFolder (cover.FileName profile) (gittool.FileName change)
      then Some change
      else findChange profile rest
  end.

(** The inner loop of [findState],
    [for i := s.StartLine; i <= s.EndLine; i++], entered with the loop
    variable at [i]: [Some true] when the body returns [Changed],
    [Some false] when the loop condition fails, [None] when [trips]
    iterations have not ended it. *)
Fixpoint line_loop (trips : nat) (stmt : StmtExtent) (i hi : Z) : option bool :=
  match trips with
  | O => None
  | S trips' =>
      if i <=? hi then
        if (startLine stmt <=? i) && (endLine stmt >=? i) then Some true
        else line_loop trips' stmt (int_add i 1) hi
      else Some false
  end.

(** The iterations within which the loop ends, when it ends: one per
    line of the section and the final test.  With [EndLine] the largest
    [int] the test never fails and [i++] wraps: the loop ends only by
    returning [Changed], and when it has not after one iteration per
    [int], from [StartLine] up to the largest and from the smallest up
    to [StartLine - 1], it never does. *)
Definition section_trips (s : gittool.Section_) : nat :=
  if gittool.EndLine s <? int_max
  then S (Z.to_nat (gittool.EndLine s - gittool.StartLine s + 1))
  else Z.to_nat ((int_max - gittool.StartLine s + 1)
                 + (gittool.StartLine s - int_min)).

Fixpoint sections_loop (stmt : StmtExtent) (sections : list gittool.Section_)
  : outcome State :=
  match sections with
  | [] => Ok Original
  | s :: rest =>
      match line_loop (section_trips s) stmt (gittool.StartLine s) (gittool.EndLine s) with
      | None => Hang
      | Some true => Ok Changed
      | Some false => sections_loop stmt rest
      end
  end.

(** [findState] *)
Definition findState (stmt : StmtExtent) (change : option gittool.Change)
  : outcome State :=
  match change with
  | None => Ok Original
  | Some c => sections_loop stmt (gittool.Sections c)
  end.

(** ** The block-statement reconciler *)

(** [b.StartLine > s.endLine || (b.StartLine == s.endLine && b.StartCol >= s.endCol)] *)
Definition past_end (b : cover.ProfileBlock) (s : StmtExtent) : bool :=
  (cover.StartLine b >? endLine s)
  || ((cover.StartLine b =? endLine s) && (cover.StartCol b >=? endCol s)).

(** [b.EndLine < s.startLine || (b.EndLine == s.startLine && b.EndCol <= s.startCol)] *)
Definition before_start (b : cover.ProfileBlock) (s : StmtExtent) : bool :=
  (cover.EndLine b <? startLine s)
  || ((cover.EndLine b =? startLine s) && (cover.EndCol b <=? startCol s)).

(** The loop [for i, b := range blocks] for one statement, entered at
    the blocks [bs] still to be ranged over.  It yields the statement
    and, when [blocks = blocks[i:]] was executed, the new [blocks]. *)
Fixpoint scan (ignoreProfile : option annotation.IgnoreProfile) (s : statement)
  (bs : list cover.ProfileBlock)
  : outcome (statement * option (list cover.ProfileBlock)) :=
  match bs with
  | [] => Ok (s, None)
  | b :: rest =>
      if past_end b (StmtExtent_ s) then Ok (s, Some bs)
      else if before_start b (StmtExtent_ s) then scan ignoreProfile s rest
      else
        let s := set_Reached (int_add (Reached (Statement_ s)) (cover.Count b)) s in
        match ignoreProfile with
        | None => Panic "runtime error: invalid memory address or nil pointer dereference"
        | Some ip =>
            if annotation.has_block ip b then Ok (set_Mode Ignore s, None)
            else Ok (s, None)
        end
  end.

(** [ignoreProfile != nil && ignoreProfile.Type == annotation.FILE_IGNORE] *)
Definition file_ignored (ignoreProfile : option annotation.IgnoreProfile) : bool :=
  match ignoreProfile with
  | Some {| annotation.Type_ := annotation.FILE_IGNORE |} => true
  | _ => false
  end.

(** The loop [for _, s := range stmts] that ends [convertProfile]. *)
Fixpoint reconcile (ignoreProfile : option annotation.IgnoreProfile)
  (blocks : list cover.ProfileBlock) (ss : list statement)
  : outcome (list statement) :=
  match ss with
  | [] => Ok []
  | s :: rest =>
      if file_ignored ignoreProfile then
        let s := set_Reached 1 (set_Mode Ignore s) in
        rest' <- reconcile ignoreProfile blocks rest ;;
        Ok (s :: rest')
      else
        '(s, moved) <- scan ignoreProfile s blocks ;;
        let blocks := match moved with Some bs => bs | None => blocks end in
        rest' <- reconcile ignoreProfile blocks rest ;;
        Ok (s :: rest')
  end.

(** ** The collaborators of the parser

    The parser consumes the decoders and resolvers of other packages.
    They are parameters of the embedding: what a call of each returns is
    given by a function, a failed call by [Err]. *)

Module build.
Record Package : Type := mkPackage {
  Dir : string;
  ImportPath : string
}.
End build.

Record Externals : Type := mkExternals {
  (** [cover.ParseProfiles] *)
  ParseProfiles : string -> outcome (list cover.Profile);
  (** [build.Import(dir, ".", build.FindOnly)] *)
  Import_ : string -> outcome build.Package;
  (** [annotation.ParseIgnoreProfiles]; the result may be a nil pointer *)
  ParseIgnoreProfiles : string -> cover.Profile -> outcome (option annotation.IgnoreProfile);
  (** [parser.ParseFile(fset, name, nil, 0)] on a fresh file set *)
  ParseFile : string -> outcome (token.FileSet * ast.File);
  (** [filepath.Split] and [filepath.Join] *)
  Split : string -> string * string;
  Join : string -> string -> string;
  (** the order in which [range] yields the entries of the [packages] map *)
  range_packages : list (string * Pkg.Package) -> list (string * Pkg.Package);
  (** the aggregate [Packages], its zero value and [AddPackage], which
      receives a pointer to a package of the parser: the key of the
      package in the [packages] map stands for the pointer, and the
      package is passed with it as it is at the call *)
  Packages : Type;
  noPackages : Packages;
  AddPackage : Packages -> string * Pkg.Package -> Packages
}.

(** Go maps with string keys, as association lists with one entry per key. *)
Fixpoint lookup {V : Type} (m : list (string * V)) (k : string) : option V :=
  match m with
  | [] => None
  | (k', v) :: rest => if String.eqb k' k then Some v else lookup rest k
  end.

Fixpoint store {V : Type} (m : list (string * V)) (k : string) (v : V)
  : list (string * V) :=
  match m with
  | [] => [(k, v)]
  | (k', v') :: rest =>
      if String.eqb k' k then (k, v) :: rest else (k', v') :: store rest k v
  end.

Definition packagesCache : Type := list (string * build.Package).

Record Parser : Type := mkParser {
  packages : list (string * Pkg.Package);
  cache : packagesCache;
  coverProfileFiles : list string
}.

(** [NewParser]; the logger has no part in what [Parse] returns. *)
Definition NewParser (coverProfileFiles : list string) : Parser :=
  {| packages := []; cache := []; coverProfileFiles := coverProfileFiles |}.

(** [strings.TrimSuffix] *)
Definition TrimSuffix (s suffix : string) : string :=
  if HasSuffix s suffix
  then slice_to (String.length s - String.length suffix) s
  else s.

(** [findFile]; the cache is updated in place, so it is returned. *)
Definition findFile (ext : Externals) (pkgs : packagesCache) (file : string)
  : packagesCache * outcome (string * string) :=
  let '(dir, file) := Split ext file in
  let dir := if String.eqb dir EmptyString then dir else TrimSuffix dir "/" in
  match lookup pkgs dir with
  | Some pkg => (pkgs, Ok (Join ext (build.Dir pkg) file, build.ImportPath pkg))
  | None =>
      match Import_ ext dir with
      | Ok pkg =>
          (store pkgs dir pkg,
           Ok (Join ext (build.Dir pkg) file, build.ImportPath pkg))
      | Err err => (pkgs, Err (wrapError "can't find %q: %w" [file] err))
      | Panic msg => (pkgs, Panic msg)
      | Hang => (pkgs, Hang)
      end
  end.

(** [findFuncs] *)
Definition findFuncs (ext : Externals) (nm : string) : outcome (list FuncExtent) :=
  '(fset, parsedFile) <- ParseFile ext nm ;;
  Walk fset [] (ast.funcNodes parsedFile).

(** The [statement] built for one statement extent. *)
Definition new_statement (se : StmtExtent) (change : option gittool.Change)
  : outcome statement :=
  st <- findState se change ;;
  Ok {| Statement_ := {| StartLine := startLine se;
                         EndLine := endLine se;
                         Start := startOffset se;
                         End_ := endOffset se;
                         Reached := 0;
                         Mode_ := Keep;
                         State_ := st |};
        StmtExtent_ := se |}.

Fixpoint new_statements (ses : list StmtExtent) (change : option gittool.Change)
  : outcome (list statement) :=
  match ses with
  | [] => Ok []
  | se :: rest =>
      s <- new_statement se change ;;
      ss <- new_statements rest change ;;
      Ok (s :: ss)
  end.

(** The loop over [extents]: for every function its statements, in the
    order in which they are appended to [stmts]. *)
Fixpoint build_stmts (extents : list FuncExtent) (change : option gittool.Change)
  : outcome (list (FuncExtent * list statement)) :=
  match extents with
  | [] => Ok []
  | fe :: rest =>
      ss <- new_statements (stmts fe) change ;;
      groups <- build_stmts rest change ;;
      Ok ((fe, ss) :: groups)
  end.

(** The [Function] values of [pkg.Functions]: each holds pointers to
    its statements, which the reconciliation loop updates through the
    flat slice [stmts]; [flat] is that slice once the loop has ended. *)
Fixpoint functions_of (file : string) (groups : list (FuncExtent * list statement))
  (flat : list statement) : list Func.Function :=
  match groups with
  | [] => []
  | (fe, ss) :: rest =>
      let n := List.length ss in
      {| Func.Name := name fe;
         Func.File := file;
         Func.Start := startOffset (fe_extent fe);
         Func.End_ := endOffset (fe_extent fe);
         Func.StartLine := startLine (fe_extent fe);
         Func.EndLine := endLine (fe_extent fe);
         Func.Statements := map Statement_ (firstn n flat) |}
      :: functions_of file rest (skipn n flat)
  end.

Definition with_cache (parser : Parser) (c : packagesCache) : Parser :=
  {| packages := packages parser; cache := c;
     coverProfileFiles := coverProfileFiles parser |}.

Definition with_package (parser : Parser) (k : string) (pkg : Pkg.Package) : Parser :=
  {| packages := store (packages parser) k pkg; cache := cache parser;
     coverProfileFiles := coverProfileFiles parser |}.

(** [convertProfile]; the parser is updated in place, so it is returned. *)
Definition convertProfile (ext : Externals) (parser : Parser) (p : cover.Profile)
  (change : option gittool.Change) : Parser * outcome unit :=
  let '(c, found) := findFile ext (cache parser) (cover.FileName p) in
  let parser := with_cache parser c in
  match found with
  | Err err => (parser, Err (wrapError "find file: %w" [] err))
  | Panic msg => (parser, Panic msg)
  | Hang => (parser, Hang)
  | Ok (file, pkgpath) =>
      let pkg :=
        match lookup (packages parser) pkgpath with
        | Some pkg => pkg
        | None => {| Pkg.Name := pkgpath; Pkg.Functions := [] |}
        end in
      let parser := with_package parser pkgpath pkg in
      match ParseIgnoreProfiles ext file p with
      | Err _ => (parser, Err (errorString "parse ignore profile"))
      | Panic msg => (parser, Panic msg)
      | Hang => (parser, Hang)
      | Ok ignoreProfile =>
          match findFuncs ext file with
          | Err err => (parser, Err (wrapError "find Functions: %w" [] err))
          | Panic msg => (parser, Panic msg)
          | Hang => (parser, Hang)
          | Ok extents =>
              match
                groups <- build_stmts extents change ;;
                flat <- reconcile ignoreProfile (cover.Blocks p)
                                  (List.concat (map snd groups)) ;;
                Ok (functions_of file groups flat)
              with
              | Ok fs =>
                  (with_package parser pkgpath
                     {| Pkg.Name := Pkg.Name pkg;
                        Pkg.Functions := Pkg.Functions pkg ++ fs |},
                   Ok tt)
              | Err err => (parser, Err err)
              | Panic msg => (parser, Panic msg)
              | Hang => (parser, Hang)
              end
          end
      end
  end.

(** The loop [for _, p := range profiles] of [Parse]. *)
Fixpoint convert_profiles (ext : Externals) (parser : Parser)
  (profiles : list cover.Profile) (changes : list gittool.Change)
  : Parser * outcome unit :=
  match profiles with
  | [] => (parser, Ok tt)
  | p :: rest =>
      match convertProfile ext parser p (findChange p changes) with
      | (parser, Ok _) => convert_profiles ext parser rest changes
      | (parser, Err err) => (parser, Err (wrapError "covert cover profile: %w" [] err))
      | (parser, Panic msg) => (parser, Panic msg)
      | (parser, Hang) => (parser, Hang)
      end
  end.

(** The loop [for _, coverProfile := range parser.coverProfileFiles]. *)
Fixpoint parse_files (ext : Externals) (parser : Parser) (files : list string)
  (changes : list gittool.Change) (result : Packages ext)
  : Parser * outcome (Packages ext) :=
  match files with
  | [] => (parser, Ok result)
  | coverProfile :: rest =>
      match ParseProfiles ext coverProfile with
      | Err err => (parser, Err (wrapError "parse cover profile: %w" [] err))
      | Panic msg => (parser, Panic msg)
      | Hang => (parser, Hang)
      | Ok profiles =>
          match convert_profiles ext parser profiles changes with
          | (parser, Ok _) =>
              let result :=
                fold_left (AddPackage ext) (range_packages ext (packages parser)) result in
              parse_files ext parser rest changes result
          | (parser, Err err) => (parser, Err err)
          | (parser, Panic msg) => (parser, Panic msg)
          | (parser, Hang) => (parser, Hang)
          end
      end
  end.

(** [Parser.Parse]: [Ok] carries the aggregate behind the returned
    pointer, and with [Err] the returned pointer is nil.  The aggregate
    is built from pointers to the packages of the parser: what it shows
    of a package is the package that the parser holds when it is read,
    with the functions that later [convertProfile] calls have appended. *)
Definition Parse (ext : Externals) (parser : Parser) (changes : list gittool.Change)
  : Parser * outcome (Packages ext) :=
  parse_files ext parser (coverProfileFiles parser) changes (noPackages ext).

(* ================================================================== *)
(** * Part II: the vocabulary of the properties *)
(* ================================================================== *)

(** ** The diff correlator *)

(** The change's path ends the profile's path. *)
Definition path_suffix (profile : cover.Profile) (c : gittool.Change) : Prop :=
  exists pre, cover.FileName profile = (pre ++ gittool.FileName c)%string.

(** At most one change of the list has a path that ends the profile's
    path. *)
Definition one_match (profile : cover.Profile) (changes : list gittool.Change)
  : Prop :=
  forall c c',
    In c changes -> In c' changes ->
    path_suffix profile c -> path_suffix profile c' -> c = c'.

(** The profile of [cmd/main.go] in a module that also has a
    [main.go] at its root, and the changes of the two files. *)
Definition cmd_profile : cover.Profile :=
  cover.mkProfile "example.com/app/cmd/main.go" "set" [].
Definition root_change : gittool.Change :=
  gittool.mkChange "main.go" [gittool.mkSection 1 1].
Definition cmd_change : gittool.Change :=
  gittool.mkChange "cmd/main.go" [gittool.mkSection 7 9].

(** A section and a statement share a line number. *)
Definition lines_meet (stmt : StmtExtent) (s : gittool.Section_) : Prop :=
  exists line,
    gittool.StartLine s <= line <= gittool.EndLine s
    /\ startLine stmt <= line <= endLine stmt.

(** The bounds of a section are Go [int]s, and the section does not end
    on the largest of them, where [i++] would wrap. *)
Definition section_ok (s : gittool.Section_) : Prop :=
  in_int (gittool.StartLine s) /\ gittool.EndLine s < int_max.

(** ** The block-statement reconciler *)

(** Position [(l1, c1)] is at or before position [(l2, c2)]. *)
Definition pos_le (l1 c1 l2 c2 : Z) : Prop :=
  l1 < l2 \/ (l1 = l2 /\ c1 <= c2).

(** Profile blocks and statements ordered by start position. *)
Definition block_start_le (b b' : cover.ProfileBlock) : Prop :=
  pos_le (cover.StartLine b) (cover.StartCol b) (cover.StartLine b') (cover.StartCol b').

Definition stmt_start_le (s s' : statement) : Prop :=
  pos_le (startLine (StmtExtent_ s)) (startCol (StmtExtent_ s))
         (startLine (StmtExtent_ s')) (startCol (StmtExtent_ s')).

(** The span of a block overlaps the span of a statement: the block
    neither starts past the statement's end nor ends before its start. *)
Definition overlaps (b : cover.ProfileBlock) (s : StmtExtent) : bool :=
  negb (past_end b s) && negb (before_start b s).

(** The sum of [Count] over the blocks that overlap the statement. *)
Definition overlap_sum (blocks : list cover.ProfileBlock) (s : StmtExtent) : Z :=
  fold_right (fun b acc => if overlaps b s then cover.Count b + acc else acc) 0 blocks.

(** The first block, in profile order, that overlaps the statement. *)
Definition first_overlap (blocks : list cover.ProfileBlock) (s : StmtExtent)
  : option cover.ProfileBlock :=
  find (fun b => overlaps b s) blocks.

(** The [Count] of that block, 0 when no block overlaps the statement. *)
Definition first_overlap_count (blocks : list cover.ProfileBlock) (s : StmtExtent) : Z :=
  match first_overlap blocks s with
  | Some b => cover.Count b
  | None => 0
  end.

(** What the scan does to a statement on meeting the overlapping block [b]. *)
Definition hit (ip : annotation.IgnoreProfile) (s : statement) (b : cover.ProfileBlock)
  : statement :=
  let s := set_Reached (int_add (Reached (Statement_ s)) (cover.Count b)) s in
  if annotation.has_block ip b then set_Mode Ignore s else s.

(** The statement after its scan, from the whole block list. *)
Definition settled (ignoreProfile : option annotation.IgnoreProfile)
  (blocks : list cover.ProfileBlock) (s : statement) : outcome statement :=
  match first_overlap blocks (StmtExtent_ s) with
  | None => Ok s
  | Some b =>
      match ignoreProfile with
      | None => Panic "runtime error: invalid memory address or nil pointer dereference"
      | Some ip => Ok (hit ip s b)
      end
  end.

(** [f] on every element in turn, stopping at the first that fails. *)
Fixpoint each {A B : Type} (f : A -> outcome B) (l : list A) : outcome (list B) :=
  match l with
  | [] => Ok []
  | x :: rest => y <- f x ;; ys <- each f rest ;; Ok (y :: ys)
  end.

(** What the loop does to a statement of a file that carries the
    file-level ignore marker. *)
Definition ignored (s : statement) : statement :=
  set_Reached 1 (set_Mode Ignore s).

(** A statement as [convertProfile] creates it, not yet reached. *)
Definition fresh (s : statement) : Prop := Reached (Statement_ s) = 0.

(** An [if] statement on lines 1 to 10, the block of its header and
    the block of its body. *)
Definition if_statement : statement :=
  {| Statement_ := mkStatement 1 10 0 120 0 Keep Original;
     StmtExtent_ := mkExtent 0 1 1 120 10 2 |}.
Definition header_block : cover.ProfileBlock := cover.mkBlock 1 1 1 10 1 1.
Definition body_block : cover.ProfileBlock := cover.mkBlock 1 10 10 2 3 2.
Definition no_ignore : annotation.IgnoreProfile :=
  annotation.mkIgnoreProfile annotation.NO_IGNORE [].


(** ** The structural extent extractor *)

(** [P] holds of every statement of a list, of an optional statement. *)
Fixpoint all (P : ast.Stmt -> Prop) (l : list ast.Stmt) : Prop :=
  match l with
  | [] => True
  | x :: rest => P x /\ all P rest
  end.

Definition all_opt (P : ast.Stmt -> Prop) (o : option ast.Stmt) : Prop :=
  match o with
  | None => True
  | Some x => P x
  end.

(** The control constructs: loops, conditionals, switches and selects. *)
Definition is_control (s : ast.Stmt) : bool :=
  match s with
  | ast.ForStmt _ _ _ _ | ast.RangeStmt _ _ | ast.IfStmt _ _ _ _
  | ast.SwitchStmt _ _ _ | ast.TypeSwitchStmt _ _ _ _ | ast.SelectStmt _ _ => true
  | _ => false
  end.

(** The statement list of a block or clause. *)
Definition statement_list (s : ast.Stmt) : list ast.Stmt :=
  match s with
  | ast.BlockStmt _ l _ => l
  | ast.CaseClause _ _ body => body
  | ast.CommClause _ _ body => body
  | _ => []
  end.

Definition is_if_or_block (s : ast.Stmt) : Prop :=
  match s with
  | ast.IfStmt _ _ _ _ | ast.BlockStmt _ _ _ => True
  | _ => False
  end.

(** A tree as [go/parser] returns it when it reports no error: after
    [else] it accepts an [if] statement or a block and nothing else, so
    the [Else] of every [if] statement of the tree, when it is not nil,
    is one of the two. *)
Fixpoint parsed (s : ast.Stmt) : Prop :=
  match s with
  | ast.BlockStmt _ l _ => all parsed l
  | ast.CaseClause _ _ body => all parsed body
  | ast.CommClause _ _ body => all parsed body
  | ast.ForStmt _ init post body =>
      all_opt parsed init /\ all_opt parsed post /\ parsed body
  | ast.IfStmt _ init body els =>
      all_opt parsed init /\ parsed body
      /\ match els with
         | None => True
         | Some e => is_if_or_block e /\ parsed e
         end
  | ast.LabeledStmt _ st => parsed st
  | ast.RangeStmt _ body => parsed body
  | ast.SelectStmt _ body => parsed body
  | ast.SwitchStmt _ init body => all_opt parsed init /\ parsed body
  | ast.TypeSwitchStmt _ init assign body =>
      all_opt parsed init /\ parsed assign /\ parsed body
  | ast.OtherStmt _ _ => True
  end.

(** The statements whose extents the extractor records, in the order in
    which it records them: the members of every statement list it walks
    that are neither blocks nor clauses, each followed by what its own
    visit records. *)
Definition keep (s : ast.Stmt) : list ast.Stmt :=
  match s with
  | ast.CaseClause _ _ _ | ast.CommClause _ _ _ | ast.BlockStmt _ _ _ => []
  | _ => [s]
  end.

Definition recorded_opt (rec : ast.Stmt -> list ast.Stmt) (o : option ast.Stmt)
  : list ast.Stmt :=
  match o with
  | None => []
  | Some x => rec x
  end.

Fixpoint recorded_list (rec : ast.Stmt -> list ast.Stmt) (l : list ast.Stmt)
  : list ast.Stmt :=
  match l with
  | [] => []
  | x :: rest => keep x ++ rec x ++ recorded_list rec rest
  end.

Fixpoint recorded (s : ast.Stmt) : list ast.Stmt :=
  match s with
  | ast.BlockStmt _ l _ => recorded_list recorded l
  | ast.CaseClause _ _ body => recorded_list recorded body
  | ast.CommClause _ _ body => recorded_list recorded body
  | ast.ForStmt _ init post body =>
      recorded_opt recorded init ++ recorded_opt recorded post ++ recorded body
  | ast.IfStmt _ init body els =>
      recorded_opt recorded init ++ recorded body
      ++ match els with
         | None => []
         | Some stmt =>
             match stmt with
             | ast.IfStmt _ _ _ _ => recorded_list recorded [stmt]
             | ast.BlockStmt _ l _ => recorded_list recorded l
             | _ => []
             end
         end
  | ast.LabeledStmt _ st => recorded st
  | ast.RangeStmt _ body => recorded body
  | ast.SelectStmt _ body => recorded body
  | ast.SwitchStmt _ init body => recorded_opt recorded init ++ recorded body
  | ast.TypeSwitchStmt _ init assign body =>
      recorded_opt recorded init ++ recorded assign ++ recorded body
  | ast.OtherStmt _ _ => []
  end.

(** Source order.  [placed lo hi s]: the tokens of [s] lie between the
    positions [lo] and [hi], every part of [s] after the keyword that
    starts it and in the order of the text, the statements of a list one
    after the other, each of them at least one byte wide. *)
Definition placed_opt (pl : Z -> Z -> ast.Stmt -> Prop) (lo hi : Z)
  (o : option ast.Stmt) : Prop :=
  match o with
  | None => True
  | Some x => pl lo hi x
  end.

Definition after_opt (lo : Z) (o : option ast.Stmt) : Z :=
  match o with
  | None => lo
  | Some x => ast.End x
  end.

Fixpoint placed_list (pl : Z -> Z -> ast.Stmt -> Prop) (lo hi : Z)
  (l : list ast.Stmt) : Prop :=
  match l with
  | [] => True
  | x :: rest =>
      pl lo hi x /\ ast.Pos x < ast.End x /\ placed_list pl (ast.End x) hi rest
  end.

Fixpoint placed (lo hi : Z) (s : ast.Stmt) {struct s} : Prop :=
  match s with
  | ast.BlockStmt lbrace l rbrace =>
      lo <= lbrace /\ lbrace < rbrace /\ rbrace < hi
      /\ placed_list placed (lbrace + 1) rbrace l
  | ast.CaseClause case colon body =>
      lo <= case /\ case < colon /\ colon < hi
      /\ placed_list placed (colon + 1) hi body
  | ast.CommClause case colon body =>
      lo <= case /\ case < colon /\ colon < hi
      /\ placed_list placed (colon + 1) hi body
  | ast.ForStmt for_ init post body =>
      lo <= for_
      /\ placed_opt placed (for_ + 1) (ast.Pos body) init
      /\ placed_opt placed (after_opt (for_ + 1) init) (ast.Pos body) post
      /\ placed (for_ + 1) hi body
  | ast.IfStmt if_ init body els =>
      lo <= if_
      /\ placed_opt placed (if_ + 1) (ast.Pos body) init
      /\ placed (if_ + 1) hi body
      /\ placed_opt placed (ast.End body) hi els
  | ast.LabeledStmt label st =>
      lo <= label /\ placed (label + 1) hi st
  | ast.RangeStmt for_ body =>
      lo <= for_ /\ placed (for_ + 1) hi body
  | ast.SelectStmt select body =>
      lo <= select /\ placed (select + 1) hi body
  | ast.SwitchStmt switch init body =>
      lo <= switch
      /\ placed_opt placed (switch + 1) (ast.Pos body) init
      /\ placed (switch + 1) hi body
  | ast.TypeSwitchStmt switch init assign body =>
      lo <= switch
      /\ placed_opt placed (switch + 1) (ast.Pos body) init
      /\ placed (after_opt (switch + 1) init) (ast.Pos body) assign
      /\ placed (switch + 1) hi body
  | ast.OtherStmt pos end_ => lo <= pos /\ pos <= end_ /\ end_ <= hi
  end.

(** The file set of a file of [size] bytes registered at [base]: the
    offset of a position of the file is its distance from [base]. *)
Definition file_at (fset : token.FileSet) (base size : Z) : Prop :=
  forall p, base <= p <= base + size ->
            token.Offset (token.position fset p) = p - base.

(** Extents in strictly increasing order of start offset. *)
Definition by_start (es : list StmtExtent) : Prop :=
  StronglySorted (fun a b => startOffset a < startOffset b) es.

(** The body of a function-like node. *)
Definition node_body (n : ast.Node) : option ast.Stmt :=
  match n with
  | ast.FuncLit _ body => body
  | ast.FuncDecl _ _ _ body => body
  end.

(** A file of one line registered at base 1: the column of a position
    is the position itself. *)
Definition one_line : token.FileSet :=
  token.mkFileSet (fun p => token.mkPosition "a.go" (p - 1) 1 p).

(** The tokens of [{ if a { x } else if b; c { y } }], with [{] at 1,
    the first [if] at 10, [else] at 20 and the second [if] at 25. *)
Definition inner_if : ast.Stmt :=
  ast.IfStmt 25 (Some (ast.OtherStmt 28 29))
    (ast.BlockStmt 33 [ast.OtherStmt 35 36] 38) None.

Definition else_if_chain : ast.Stmt :=
  ast.BlockStmt 1
    [ast.IfStmt 10 None (ast.BlockStmt 15 [ast.OtherStmt 16 17] 18) (Some inner_if)]
    50.

(** Positions in strictly increasing order, all of them in [[lo, hi)]. *)
Definition increasing_in (lo hi : Z) (zs : list Z) : Prop :=
  StronglySorted Z.lt zs /\ Forall (fun z => lo <= z < hi) zs.

(** Every statement but the opaque ones is at least one byte wide. *)
Definition compound (s : ast.Stmt) : Prop :=
  match s with
  | ast.OtherStmt _ _ => False
  | _ => True
  end.

(** What source order gives for one statement: its span, and the
    positions of the statements recorded inside it. *)
Definition spans (lo hi : Z) (s : ast.Stmt) : Prop :=
  lo <= ast.Pos s /\ ast.Pos s <= ast.End s /\ ast.End s <= hi
  /\ (compound s -> ast.Pos s < ast.End s)
  /\ increasing_in (ast.Pos s + 1) (ast.End s) (map ast.Pos (recorded s)).

(** The tokens of [{ if x := f(); x { y } }]: the [if] at 10, its
    initializer from 13 to 19, its body from 25 to 33. *)
Definition if_with_init : ast.Stmt :=
  ast.IfStmt 10 (Some (ast.OtherStmt 13 19))
    (ast.BlockStmt 25 [ast.OtherStmt 27 30] 32) None.

Definition body_with_if : ast.Stmt := ast.BlockStmt 1 [if_with_init] 40.

(** ** The entry point *)

(** A run in which the annotation parser rejects the only file of the
    only profile with the error ["bad annotation"]. *)
Definition bad_annotation : error := errorString "bad annotation".

Definition annotated_profile : cover.Profile :=
  cover.mkProfile "example.com/pkg/a.go" "set" [cover.mkBlock 3 10 5 2 1 1].

Definition failing_annotations : Externals :=
  {| ParseProfiles := fun _ => Ok [annotated_profile];
     Import_ := fun _ => Ok (build.mkPackage "/repo/pkg" "example.com/pkg");
     ParseIgnoreProfiles := fun _ _ => Err bad_annotation;
     ParseFile := fun _ => Ok (one_line, ast.mkFile []);
     Split := fun _ => ("example.com/pkg/", "a.go")%string;
     Join := fun dir file => (dir ++ "/" ++ file)%string;
     range_packages := fun m => m;
     Packages := list string;
     noPackages := [];
     AddPackage := fun ps p => ps ++ [fst p] |}.

Definition one_profile_parser : Parser :=
  {| packages := []; cache := []; coverProfileFiles := ["cover.out"%string] |}.

(** A run over one function of three statements, on lines 2, 3 and 4 of
    a file of 100 columns a line: one block covers the first two
    statements with count 5, another the third with count 0, and the
    diff touches line 4 only. *)
Definition hundred_columns : token.FileSet :=
  token.mkFileSet
    (fun p => token.mkPosition "f.go" (p - 1) ((p - 1) / 100 + 1) ((p - 1) mod 100 + 1)).

Definition three_statements : ast.File :=
  ast.mkFile
    [ast.FuncDecl None "f" 1
       (Some (ast.BlockStmt 10
                [ast.OtherStmt 105 110; ast.OtherStmt 205 210; ast.OtherStmt 305 310]
                401))].

Definition three_statement_run : Externals :=
  {| ParseProfiles := fun _ =>
       Ok [cover.mkProfile "example.com/pkg/f.go" "set"
             [cover.mkBlock 1 10 3 11 2 5; cover.mkBlock 4 5 5 2 1 0]];
     Import_ := fun _ => Ok (build.mkPackage "/repo/pkg" "example.com/pkg");
     ParseIgnoreProfiles := fun _ _ => Ok (Some no_ignore);
     ParseFile := fun _ => Ok (hundred_columns, three_statements);
     Split := fun _ => ("example.com/pkg/", "f.go")%string;
     Join := fun dir file => (dir ++ "/" ++ file)%string;
     range_packages := fun m => m;
     Packages := list string;
     noPackages := [];
     AddPackage := fun ps p => (ps ++ [fst p])%list |}.

(** ** Further vocabulary: the reconciler *)

(** The loop leaves everything of a statement but [Reached] and [Mode]
    as it was, and never takes [Ignore] back. *)
Definition touched (s s' : statement) : Prop :=
  StmtExtent_ s' = StmtExtent_ s
  /\ StartLine (Statement_ s') = StartLine (Statement_ s)
  /\ EndLine (Statement_ s') = EndLine (Statement_ s)
  /\ Start (Statement_ s') = Start (Statement_ s)
  /\ End_ (Statement_ s') = End_ (Statement_ s)
  /\ State_ (Statement_ s') = State_ (Statement_ s)
  /\ (Mode_ (Statement_ s) = Ignore -> Mode_ (Statement_ s') = Ignore).

(** The statement is as it was, or was credited with one block of the
    list that overlaps it. *)
Definition credited (ignoreProfile : option annotation.IgnoreProfile)
  (blocks : list cover.ProfileBlock) (s s' : statement) : Prop :=
  s' = s
  \/ exists b ip,
       ignoreProfile = Some ip /\ In b blocks
       /\ overlaps b (StmtExtent_ s) = true /\ s' = hit ip s b.

(** The scan passes over a block: it is not past the end of the
    statement and ends before the statement starts. *)
Definition skipped (s : statement) (d : cover.ProfileBlock) : Prop :=
  past_end d (StmtExtent_ s) = false /\ before_start d (StmtExtent_ s) = true.

(** A statement on lines 1 to 10 that overlaps two blocks, of which
    only the second is marked to be ignored. *)
Definition ignore_body : annotation.IgnoreProfile :=
  annotation.mkIgnoreProfile annotation.BLOCK_IGNORE [body_block].

(** A block and a statement on later lines. *)
Definition early_block : cover.ProfileBlock := cover.mkBlock 1 1 2 5 1 7.
Definition late_statement : statement :=
  {| Statement_ := mkStatement 4 4 300 310 0 Keep Original;
     StmtExtent_ := mkExtent 300 4 1 310 4 11 |}.

(** ** Further vocabulary: the extractor *)

(** A step of the visit returns when [good] holds and ends in the panic
    of the else-chain case when it does not. *)
Definition verdict {A : Type} (good : Prop) (m : outcome A) : Prop :=
  (good /\ exists r, m = Ok r)
  \/ (~ good /\ m = Panic "unexpected node type in if").

(** [if a { } else x] with a statement [x] that is neither an [if]
    statement nor a block, inside a loop. *)
Definition loop_with_bad_else : ast.Stmt :=
  ast.ForStmt 5 None None
    (ast.BlockStmt 9
       [ast.IfStmt 10 None (ast.BlockStmt 15 [] 16) (Some (ast.OtherStmt 22 30))]
       40).

(** The statement [n] lies between the positions [a] and [b] and is at
    least one byte wide. *)
Definition inside (a b : Z) (n : ast.Stmt) : Prop :=
  a <= ast.Pos n /\ ast.Pos n < ast.End n /\ ast.End n <= b.

(** The extent [inner] lies within the extent [outer], by offsets, and
    is not empty. *)
Definition within_extent (outer inner : extent) : Prop :=
  startOffset outer <= startOffset inner
  /\ startOffset inner < endOffset inner
  /\ endOffset inner <= endOffset outer.

(** The position of a function-like node. *)
Definition node_pos (n : ast.Node) : Z :=
  match n with
  | ast.FuncLit pos _ => pos
  | ast.FuncDecl _ _ pos _ => pos
  end.

(** [func f() { if a { x } else if b; c { y } }] with [func] at 1 and the
    body as in [else_if_chain]. *)
Definition chain_function : ast.Node :=
  ast.FuncDecl None "f" 1 (Some else_if_chain).

(** The node has a body. *)
Definition has_body (n : ast.Node) : bool :=
  match node_body n with
  | Some _ => true
  | None => false
  end.

(** A file with a method, a declaration without a body and a closure. *)
Definition three_nodes : ast.File :=
  ast.mkFile
    [ast.FuncDecl (Some [ast.StarExpr (ast.Ident "T")]) "m" 1
       (Some (ast.BlockStmt 10 [ast.OtherStmt 12 14] 16));
     ast.FuncDecl None "external" 20 None;
     ast.FuncLit 30 (Some (ast.BlockStmt 37 [] 38))].

Definition parses_three_nodes : Externals :=
  {| ParseProfiles := fun _ => Ok [];
     Import_ := fun _ => Ok (build.mkPackage "/repo/pkg" "example.com/pkg");
     ParseIgnoreProfiles := fun _ _ => Ok (Some no_ignore);
     ParseFile := fun _ => Ok (one_line, three_nodes);
     Split := fun _ => ("example.com/pkg/", "a.go")%string;
     Join := fun dir file => (dir ++ "/" ++ file)%string;
     range_packages := fun m => m;
     Packages := list string;
     noPackages := [];
     AddPackage := fun ps p => (ps ++ [fst p])%list |}.

(** ** Further vocabulary: resolution and the entry point *)

(** The cache key [findFile] computes for a file: its directory without
    the trailing slash. *)
Definition dir_of (ext : Externals) (file : string) : string :=
  let dir := fst (Split ext file) in
  if String.eqb dir EmptyString then dir else TrimSuffix dir "/".

(** The file name [findFile] joins to the package directory. *)
Definition base_of (ext : Externals) (file : string) : string :=
  snd (Split ext file).

(** Two sets of collaborators that split and join paths alike. *)
Definition same_paths (ext ext' : Externals) : Prop :=
  Split ext' = Split ext /\ Join ext' = Join ext.

(** The errors [Parse] can return, each with the error of the
    collaborator that failed. *)
Inductive Parse_error (ext : Externals) (files : list string)
  : error -> error -> Prop :=
| profile_error (f : string) (e : error) :
    In f files -> ParseProfiles ext f = Err e ->
    Parse_error ext files (wrapError "parse cover profile: %w" [] e) e
| import_error (dir file : string) (e : error) :
    Import_ ext dir = Err e ->
    Parse_error ext files
      (wrapError "covert cover profile: %w" []
         (wrapError "find file: %w" []
            (wrapError "can't find %q: %w" [file] e))) e
| annotation_error (file : string) (p : cover.Profile) (e : error) :
    ParseIgnoreProfiles ext file p = Err e ->
    Parse_error ext files
      (wrapError "covert cover profile: %w" [] (errorString "parse ignore profile")) e
| source_error (file : string) (e : error) :
    ParseFile ext file = Err e ->
    Parse_error ext files
      (wrapError "covert cover profile: %w" []
         (wrapError "find Functions: %w" [] e)) e.

(** The error of one [convertProfile] call, before [Parse] tags it. *)
Inductive convert_error (ext : Externals) (p : cover.Profile)
  : error -> error -> Prop :=
| convert_import_error (dir file : string) (e : error) :
    Import_ ext dir = Err e ->
    convert_error ext p
      (wrapError "find file: %w" [] (wrapError "can't find %q: %w" [file] e)) e
| convert_annotation_error (file : string) (e : error) :
    ParseIgnoreProfiles ext file p = Err e ->
    convert_error ext p (errorString "parse ignore profile") e
| convert_source_error (file : string) (e : error) :
    ParseFile ext file = Err e ->
    convert_error ext p (wrapError "find Functions: %w" [] e) e.

(** Collaborators that cannot import the directory of the profile. *)
Definition import_fails : Externals :=
  {| ParseProfiles := fun _ => Ok [annotated_profile];
     Import_ := fun _ => Err (errorString "cannot find package");
     ParseIgnoreProfiles := fun _ _ => Ok (Some no_ignore);
     ParseFile := fun _ => Ok (one_line, ast.mkFile []);
     Split := fun _ => ("example.com/pkg/", "a.go")%string;
     Join := fun dir file => (dir ++ "/" ++ file)%string;
     range_packages := fun m => m;
     Packages := list string;
     noPackages := [];
     AddPackage := fun ps p => (ps ++ [fst p])%list |}.

(** The package [convertProfile] works on: the one registered under the
    package path, or a new one without functions. *)
Definition package_at (parser : Parser) (pkgpath : string) : Pkg.Package :=
  match lookup (packages parser) pkgpath with
  | Some pkg => pkg
  | None => {| Pkg.Name := pkgpath; Pkg.Functions := [] |}
  end.

(** A [Statement] of the model built from the statement extent [se]
    under the change [change]. *)
Definition statement_of (change : option gittool.Change) (se : StmtExtent)
  (st : Statement) : Prop :=
  StartLine st = startLine se /\ EndLine st = endLine se
  /\ Start st = startOffset se /\ End_ st = endOffset se
  /\ findState se change = Ok (State_ st).

(** A [Function] of the model built from the function extent [fe] of
    the file [file]. *)
Definition function_of (file : string) (change : option gittool.Change)
  (fe : FuncExtent) (f : Func.Function) : Prop :=
  Func.Name f = name fe /\ Func.File f = file
  /\ Func.Start f = startOffset (fe_extent fe)
  /\ Func.End_ f = endOffset (fe_extent fe)
  /\ Func.StartLine f = startLine (fe_extent fe)
  /\ Func.EndLine f = endLine (fe_extent fe)
  /\ Forall2 (statement_of change) (stmts fe) (Func.Statements f).

(** One step of the loop on a statement: left as it is, ignored with
    the file, or credited with a block. *)
Definition stepped (s s' : statement) : Prop :=
  s' = s \/ s' = ignored s \/ exists ip b, s' = hit ip s b.

(** Every package is registered under its own name. *)
Definition keyed (m : list (string * Pkg.Package)) : Prop :=
  forall k pkg, lookup m k = Some pkg -> Pkg.Name pkg = k.

(** The package map [m'] has every package of [m], under the same name
    and with the same functions followed by more. *)
Definition grown (m m' : list (string * Pkg.Package)) : Prop :=
  forall k pkg,
    lookup m k = Some pkg ->
    exists pkg' fs,
      lookup m' k = Some pkg'
      /\ Pkg.Name pkg' = Pkg.Name pkg
      /\ Pkg.Functions pkg' = Pkg.Functions pkg ++ fs.

(** Collaborators for a file that carries the file-level marker. *)
Definition file_ignored_run : Externals :=
  {| ParseProfiles := ParseProfiles three_statement_run;
     Import_ := Import_ three_statement_run;
     ParseIgnoreProfiles := fun _ _ =>
       Ok (Some (annotation.mkIgnoreProfile annotation.FILE_IGNORE []));
     ParseFile := ParseFile three_statement_run;
     Split := Split three_statement_run;
     Join := Join three_statement_run;
     range_packages := fun m => m;
     Packages := list string;
     noPackages := [];
     AddPackage := fun ps p => (ps ++ [fst p])%list |}.

Definition three_statement_profile : cover.Profile :=
  cover.mkProfile "example.com/pkg/f.go" "set"
    [cover.mkBlock 1 10 3 11 2 5; cover.mkBlock 4 5 5 2 1 0].

(** The statement as [convertProfile] creates it for an extent. *)
Definition created (change : option gittool.Change) (se : StmtExtent)
  (s : statement) : Prop :=
  StmtExtent_ s = se /\ statement_of change se (Statement_ s)
  /\ Reached (Statement_ s) = 0 /\ Mode_ (Statement_ s) = Keep.

(** ** Further vocabulary: the diff correlator *)

(** The lines of [inner] are lines of [outer]. *)
Definition encloses (outer inner : StmtExtent) : Prop :=
  startLine outer <= startLine inner /\ endLine inner <= endLine outer.

(** The line range of the statement holds a Go [int]. *)
Definition holds_int (stmt : StmtExtent) : Prop :=
  exists line, in_int line /\ startLine stmt <= line <= endLine stmt.


(* ================================================================== *)
(** * Part III: properties *)
(* ================================================================== *)

(** ** Machine integers *)

Lemma wrap_in_int (z : Z) : in_int z -> wrap z = z.
Proof.
  unfold in_int, int_min, int_max, wrap. intros H.
  rewrite Z.mod_small; lia.
Qed.

(** ** Strings *)

Lemma slice_split (n : nat) (s : string) :
  (slice_to n s ++ slice_from n s)%string = s.
Proof.
  revert s. induction n as [|n IH]; intros s; simpl.
  - reflexivity.
  - destruct s as [|c s]; simpl; [reflexivity|]. now rewrite IH.
Qed.

Lemma slice_from_append (pre suf : string) :
  slice_from (String.length pre) (pre ++ suf)%string = suf.
Proof.
  induction pre as [|c pre IH]; simpl.
  - now destruct suf.
  - exact IH.
Qed.

Lemma length_append (a b : string) :
  String.length (a ++ b)%string = (String.length a + String.length b)%nat.
Proof.
  induction a as [|c a IH]; simpl; [reflexivity|]. now rewrite IH.
Qed.

Lemma HasSuffix_iff (s suffix : string) :
  HasSuffix s suffix = true <-> exists pre, s = (pre ++ suffix)%string.
Proof.
  unfold HasSuffix. rewrite andb_true_iff, Nat.leb_le, String.eqb_eq. split.
  - intros [_ Heq].
    remember (String.length s - String.length suffix)%nat as n.
    exists (slice_to n s). rewrite <- Heq. symmetry. apply slice_split.
  - intros [pre ->]. rewrite length_append. split; [lia|].
    replace (String.length pre + String.length suffix - String.length suffix)%nat
      with (String.length pre) by lia.
    apply slice_from_append.
Qed.

(** ** The diff correlator *)

Lemma InFolder_iff (parentDir filepath : string) :
  InFolder parentDir filepath = true <-> exists pre, parentDir = (pre ++ filepath)%string.
Proof. apply HasSuffix_iff. Qed.

Lemma InFolder_false_iff (parentDir filepath : string) :
  InFolder parentDir filepath = false
  <-> ~ exists pre, parentDir = (pre ++ filepath)%string.
Proof.
  rewrite <- InFolder_iff. destruct (InFolder parentDir filepath); split; congruence.
Qed.

Lemma findChange_Some (profile : cover.Profile) (changes : list gittool.Change)
  (c : gittool.Change) :
  findChange profile changes = Some c
  <-> exists front back,
        changes = front ++ c :: back
        /\ path_suffix profile c
        /\ Forall (fun c' => ~ path_suffix profile c') front.
Proof.
  induction changes as [|c0 rest IH]; simpl.
  - split; [discriminate|]. intros (front & back & H & _). now destruct front.
  - destruct (InFolder (cover.FileName profile) (gittool.FileName c0)) eqn:E.
    + apply InFolder_iff in E. split.
      * intros [= <-]. exists [], rest. repeat split; auto.
      * intros (front & back & H & Hc & Hfront).
        destruct front as [|c1 front]; simpl in H; injection H as -> ->; [reflexivity|].
        inversion Hfront; subst. contradiction.
    + apply InFolder_false_iff in E. rewrite IH. split.
      * intros (front & back & -> & Hc & Hfront).
        exists (c0 :: front), back. repeat split; auto.
      * intros (front & back & H & Hc & Hfront).
        destruct front as [|c1 front]; simpl in H; injection H as -> ->.
        -- contradiction.
        -- inversion Hfront; subst. exists front, back. repeat split; auto.
Qed.

Lemma findChange_None (profile : cover.Profile) (changes : list gittool.Change) :
  findChange profile changes = None
  <-> Forall (fun c => ~ path_suffix profile c) changes.
Proof.
  induction changes as [|c0 rest IH]; simpl.
  - split; auto.
  - destruct (InFolder (cover.FileName profile) (gittool.FileName c0)) eqn:E.
    + apply InFolder_iff in E. split; [discriminate|].
      intros H. inversion H; subst. contradiction.
    + apply InFolder_false_iff in E. rewrite IH. split.
      * intros H. constructor; assumption.
      * intros H. now inversion H.
Qed.

(** C8, as stated, fails: the path of the change of [cmd/main.go] ends
    the path of the profile of [cmd/main.go], and the change is in the
    list, but [findChange] gives the profile the change of the root
    [main.go], which comes first. *)
Lemma findChange_takes_first_suffix :
  In cmd_change [root_change; cmd_change]
  /\ path_suffix cmd_profile cmd_change
  /\ findChange cmd_profile [root_change; cmd_change] = Some root_change
  /\ findChange cmd_profile [root_change; cmd_change] <> Some cmd_change.
Proof.
  split; [right; now left|].
  split; [now exists "example.com/app/"%string|].
  split; [reflexivity|discriminate].
Qed.

(** C8, amended: [InFolder parentDir filepath] holds exactly when
    [filepath] is a suffix of [parentDir], it accepts ["pkg/a.go"] and
    rejects ["pkg/b.go"] for ["/repo/pkg/a.go"], and [findChange] gives
    a profile the first change of the list whose file name is a suffix
    of the profile's file name, [nil] when there is none: a change is
    associated exactly when its file name is such a suffix and that of
    no change before it is.  When at most one change of the list has
    such a file name, a change of the list is associated exactly when
    its file name is a suffix of the profile's. *)
Theorem InFolder_is_suffix_match :
  (forall parentDir filepath,
      InFolder parentDir filepath = true
      <-> exists pre, parentDir = (pre ++ filepath)%string)
  /\ InFolder "/repo/pkg/a.go" "pkg/a.go" = true
  /\ InFolder "/repo/pkg/a.go" "pkg/b.go" = false
  /\ (forall profile changes c,
        findChange profile changes = Some c
        <-> exists front back,
              changes = front ++ c :: back
              /\ path_suffix profile c
              /\ Forall (fun c' => ~ path_suffix profile c') front)
  /\ (forall profile changes,
        findChange profile changes = None
        <-> Forall (fun c => ~ path_suffix profile c) changes)
  /\ (forall profile changes,
        one_match profile changes ->
        forall c, In c changes ->
                  (findChange profile changes = Some c <-> path_suffix profile c)).
Proof.
  split; [exact InFolder_iff|].
  split; [reflexivity|].
  split; [reflexivity|].
  split; [exact findChange_Some|].
  split; [exact findChange_None|].
  intros profile changes Hone c Hin. split.
  - intros H. apply findChange_Some in H.
    now destruct H as (front & back & _ & Hc & _).
  - intros Hc.
    destruct (findChange profile changes) as [c'|] eqn:E.
    + f_equal. pose proof E as H. apply findChange_Some in H.
      destruct H as (front & back & -> & Hc' & _).
      apply (Hone c' c); [|exact Hin|exact Hc'|exact Hc].
      apply in_or_app. right. now left.
    + apply findChange_None in E. rewrite Forall_forall in E.
      exfalso. exact (E c Hin Hc).
Qed.

(** Only the change of [cmd/main.go] matches when that of the root
    [main.go] is not in the list. *)
Lemma InFolder_is_suffix_match_witness :
  findChange cmd_profile [gittool.mkChange "cmd/util.go" []; cmd_change]
  = Some cmd_change
  <-> path_suffix cmd_profile cmd_change.
Proof.
  apply (proj2 (proj2 (proj2 (proj2 (proj2 InFolder_is_suffix_match))))).
  - intros c c' Hc Hc' Hs Hs'.
    apply InFolder_iff in Hs. apply InFolder_iff in Hs'.
    destruct Hc as [<-|[<-|[]]]; [discriminate Hs|].
    destruct Hc' as [<-|[<-|[]]]; [discriminate Hs'|reflexivity].
  - right. now left.
Defined.

Lemma line_loop_spec (stmt : StmtExtent) (hi : Z) :
  hi < int_max ->
  forall (trips : nat) (i : Z),
    in_int i ->
    (Z.to_nat (hi - i + 1) < trips)%nat ->
    exists b,
      line_loop trips stmt i hi = Some b
      /\ (b = true <->
          exists line, i <= line <= hi /\ startLine stmt <= line <= endLine stmt).
Proof.
  intros Hhi. induction trips as [|trips IH]; intros i Hi Htrips; [lia|].
  simpl. destruct (i <=? hi) eqn:Ele.
  - apply Z.leb_le in Ele.
    destruct ((startLine stmt <=? i) && (endLine stmt >=? i)) eqn:Ehit.
    + exists true. split; [reflexivity|]. split; [|reflexivity]. intros _.
      apply andb_true_iff in Ehit. destruct Ehit as [H1 H2].
      apply Z.leb_le in H1. apply Z.geb_le in H2. exists i. lia.
    + assert (Hnext : int_add i 1 = i + 1).
      { unfold int_add. apply wrap_in_int. unfold in_int, int_max in *. lia. }
      rewrite Hnext.
      destruct (IH (i + 1)) as (b & Hb & Hiff).
      { unfold in_int, int_max in *. lia. }
      { lia. }
      exists b. split; [exact Hb|]. rewrite Hiff. split.
      * intros (line & H1 & H2). exists line. lia.
      * intros (line & H1 & H2). exists line. split; [|exact H2].
        assert (line <> i); [|lia].
        intros ->. apply andb_false_iff in Ehit.
        destruct Ehit as [H|H];
          [apply Z.leb_gt in H | rewrite Z.geb_leb in H; apply Z.leb_gt in H]; lia.
  - apply Z.leb_gt in Ele. exists false. split; [reflexivity|].
    split; [discriminate|]. intros (line & H1 & _). lia.
Qed.

Lemma sections_loop_spec (stmt : StmtExtent) (sections : list gittool.Section_) :
  Forall section_ok sections ->
  exists st,
    sections_loop stmt sections = Ok st
    /\ (st = Changed <-> exists s, In s sections /\ lines_meet stmt s).
Proof.
  induction sections as [|s rest IH]; intros Hok; cbn [sections_loop].
  - exists Original. split; [reflexivity|]. split; [discriminate|].
    intros (s & [] & _).
  - inversion Hok as [|? ? [Hs1 Hs2] Hrest]; subst.
    destruct (line_loop_spec stmt (gittool.EndLine s) Hs2
                (section_trips s) (gittool.StartLine s) Hs1) as (b & Hb & Hiff).
    { unfold section_trips. rewrite (proj2 (Z.ltb_lt _ _) Hs2). lia. }
    rewrite Hb. destruct b.
    + exists Changed. split; [reflexivity|]. split; [|reflexivity]. intros _.
      exists s. split; [now left|]. now apply Hiff.
    + destruct (IH Hrest) as (st & Hst & Hst_iff).
      exists st. split; [exact Hst|]. rewrite Hst_iff. split.
      * intros (s' & Hin & Hm). exists s'. split; [now right|exact Hm].
      * intros (s' & [<-|Hin] & Hm).
        -- apply Hiff in Hm. discriminate.
        -- exists s'. split; assumption.
Qed.

(** C4: [findState] returns [Changed] exactly when a section of the
    change shares a line number with the statement's line range, and
    [Original] otherwise, in particular when there is no change. *)
Theorem findState_Changed_iff (stmt : StmtExtent) (change : option gittool.Change) :
  (forall c, change = Some c -> Forall section_ok (gittool.Sections c)) ->
  exists st,
    findState stmt change = Ok st
    /\ (st = Changed <->
        exists c s, change = Some c /\ In s (gittool.Sections c) /\ lines_meet stmt s)
    /\ (st = Original <->
        ~ exists c s, change = Some c /\ In s (gittool.Sections c) /\ lines_meet stmt s)
    /\ (change = None -> st = Original).
Proof.
  intros Hok.
  assert (Hmain : exists st,
             findState stmt change = Ok st
             /\ (st = Changed <->
                 exists c s, change = Some c /\ In s (gittool.Sections c)
                             /\ lines_meet stmt s)
             /\ (change = None -> st = Original)).
  { destruct change as [c|]; simpl.
    - destruct (sections_loop_spec stmt (gittool.Sections c) (Hok c eq_refl))
        as (st & Hst & Hiff).
      exists st. split; [exact Hst|]. split; [|discriminate].
      rewrite Hiff. split.
      + intros (s & Hin & Hm). now exists c, s.
      + intros (c' & s & [= <-] & Hin & Hm). now exists s.
    - exists Original. split; [reflexivity|]. split; [|reflexivity].
      split; [discriminate|]. intros (c & s & Hc & _). discriminate. }
  destruct Hmain as (st & Hst & Hiff & Hnone).
  exists st. repeat split; auto; try apply Hiff.
  - intros -> H. apply Hiff in H. discriminate.
  - intros H. destruct st; [reflexivity|]. exfalso. apply H. now apply Hiff.
Qed.

(** A statement on lines 3 to 5 and hunks on lines 1-2 and 5-9. *)
Lemma findState_Changed_iff_witness :
  exists st,
    findState (mkExtent 0 3 1 0 5 1)
      (Some (gittool.mkChange "a.go" [gittool.mkSection 1 2; gittool.mkSection 5 9]))
    = Ok st
    /\ st = Changed.
Proof.
  destruct (findState_Changed_iff (mkExtent 0 3 1 0 5 1)
              (Some (gittool.mkChange "a.go"
                       [gittool.mkSection 1 2; gittool.mkSection 5 9])))
    as (st & Hst & Hiff & _).
  - intros c [= <-]. simpl.
    repeat constructor; unfold in_int, int_min, int_max; simpl; lia.
  - exists st. split; [exact Hst|].
    vm_compute in Hst. now injection Hst as <-.
Defined.

(** ** The block-statement reconciler *)

Lemma pos_le_trans (l1 c1 l2 c2 l3 c3 : Z) :
  pos_le l1 c1 l2 c2 -> pos_le l2 c2 l3 c3 -> pos_le l1 c1 l3 c3.
Proof. unfold pos_le. lia. Qed.

Lemma past_end_iff (b : cover.ProfileBlock) (s : StmtExtent) :
  past_end b s = true
  <-> pos_le (endLine s) (endCol s) (cover.StartLine b) (cover.StartCol b).
Proof.
  unfold past_end, pos_le.
  rewrite orb_true_iff, andb_true_iff, Z.gtb_lt, Z.eqb_eq, Z.geb_le. lia.
Qed.

Lemma before_start_iff (b : cover.ProfileBlock) (s : StmtExtent) :
  before_start b s = true
  <-> pos_le (cover.EndLine b) (cover.EndCol b) (startLine s) (startCol s).
Proof.
  unfold before_start, pos_le.
  rewrite orb_true_iff, andb_true_iff, Z.ltb_lt, Z.eqb_eq, Z.leb_le. lia.
Qed.

(** Blocks sorted by start: once one is past the end of the statement,
    so are all the later ones. *)
Lemma past_end_later (b b' : cover.ProfileBlock) (s : StmtExtent) :
  block_start_le b b' -> past_end b s = true -> past_end b' s = true.
Proof.
  rewrite !past_end_iff. unfold block_start_le. intros H1 H2.
  eapply pos_le_trans; eassumption.
Qed.

(** Statements sorted by start: a block that ends before one starts
    ends before the later ones start. *)
Lemma before_start_later (b : cover.ProfileBlock) (s s' : statement) :
  stmt_start_le s s' ->
  before_start b (StmtExtent_ s) = true -> before_start b (StmtExtent_ s') = true.
Proof.
  rewrite !before_start_iff. unfold stmt_start_le. intros H1 H2.
  eapply pos_le_trans; eassumption.
Qed.

Lemma first_overlap_none (blocks : list cover.ProfileBlock) (s : StmtExtent) :
  Forall (fun b => overlaps b s = false) blocks -> first_overlap blocks s = None.
Proof.
  unfold first_overlap. induction 1 as [|b rest Hb _ IH]; simpl; [reflexivity|].
  now rewrite Hb.
Qed.

Lemma first_overlap_app (front back : list cover.ProfileBlock) (s : StmtExtent) :
  Forall (fun b => overlaps b s = false) front ->
  first_overlap (front ++ back) s = first_overlap back s.
Proof.
  unfold first_overlap. induction 1 as [|b rest Hb _ IH]; simpl; [reflexivity|].
  now rewrite Hb.
Qed.


(** One scan over a sorted cursor: it stops at the first overlapping
    block when there is one, and otherwise leaves the statement as it
    is, having dropped only blocks that end before the statement. *)
Lemma scan_sorted (ip : option annotation.IgnoreProfile) (s : statement)
  (bs : list cover.ProfileBlock) :
  StronglySorted block_start_le bs ->
  match first_overlap bs (StmtExtent_ s) with
  | Some b =>
      scan ip s bs
      = match ip with
        | None => Panic "runtime error: invalid memory address or nil pointer dereference"
        | Some p => Ok (hit p s b, None)
        end
  | None =>
      exists moved,
        scan ip s bs = Ok (s, moved)
        /\ match moved with
           | None => True
           | Some bs' =>
               exists front,
                 bs = front ++ bs'
                 /\ Forall (fun d => before_start d (StmtExtent_ s) = true) front
           end
  end.
Proof.
  induction 1 as [|b rest Hrest IH Hb]; simpl.
  - exists None. split; [reflexivity|exact I].
  - unfold first_overlap in *. simpl. unfold overlaps at 1.
    destruct (past_end b (StmtExtent_ s)) eqn:Epast; simpl.
    + assert (Hnone : first_overlap rest (StmtExtent_ s) = None).
      { apply first_overlap_none. rewrite Forall_forall in *. intros b' Hin.
        unfold overlaps. now rewrite (past_end_later b b' _ (Hb b' Hin) Epast). }
      unfold first_overlap in Hnone. rewrite Hnone.
      exists (Some (b :: rest)). split; [reflexivity|].
      exists []. split; [reflexivity|constructor].
    + destruct (before_start b (StmtExtent_ s)) eqn:Ebefore; simpl.
      * destruct (find (fun b0 => overlaps b0 (StmtExtent_ s)) rest) as [b'|];
          [exact IH|].
        destruct IH as (moved & Hscan & Hmoved).
        exists moved. split; [exact Hscan|].
        destruct moved as [bs'|]; [|exact I].
        destruct Hmoved as (front & -> & Hfront).
        exists (b :: front). split; [reflexivity|]. now constructor.
      * unfold hit. destruct ip as [p|]; [|reflexivity].
        now destruct (annotation.has_block p b).
Qed.

(** The whole loop over sorted statements and a sorted block list: each
    statement ends as its own scan over the whole list leaves it.
    [front] holds the blocks the cursor has passed. *)
Lemma reconcile_sorted (ip : option annotation.IgnoreProfile)
  (blocks : list cover.ProfileBlock) :
  file_ignored ip = false ->
  StronglySorted block_start_le blocks ->
  forall (ss : list statement) (front bs : list cover.ProfileBlock),
    blocks = front ++ bs ->
    StronglySorted stmt_start_le ss ->
    Forall (fun d => Forall (fun s => before_start d (StmtExtent_ s) = true) ss) front ->
    reconcile ip bs ss = each (settled ip blocks) ss.
Proof.
  intros Hfile Hblocks.
  induction ss as [|s rest IH]; intros front bs Hsplit Hss Hfront; simpl.
  - reflexivity.
  - rewrite Hfile.
    inversion Hss as [|? ? Hrest Hs]; subst.
    assert (Hbs : StronglySorted block_start_le bs).
    { clear - Hblocks. induction front as [|d front IHf]; simpl in Hblocks.
      - exact Hblocks.
      - apply IHf. now inversion Hblocks. }
    assert (Hsame : first_overlap (front ++ bs) (StmtExtent_ s)
                    = first_overlap bs (StmtExtent_ s)).
    { apply first_overlap_app. rewrite Forall_forall in *. intros d Hin.
      specialize (Hfront d Hin). inversion Hfront as [|? ? Hd _]; subst.
      unfold overlaps. rewrite Hd. apply andb_false_r. }
    assert (Hfront_rest :
              Forall (fun d => Forall (fun s' => before_start d (StmtExtent_ s') = true) rest)
                     front).
    { rewrite Forall_forall in *. intros d Hin.
      specialize (Hfront d Hin). now inversion Hfront. }
    unfold settled at 1. rewrite Hsame.
    pose proof (scan_sorted ip s bs Hbs) as Hscan.
    destruct (first_overlap bs (StmtExtent_ s)) as [b|].
    + rewrite Hscan. destruct ip as [p|]; simpl; [|reflexivity].
      now rewrite (IH front bs eq_refl Hrest Hfront_rest).
    + destruct Hscan as (moved & -> & Hmoved). simpl.
      destruct moved as [bs'|].
      * destruct Hmoved as (mid & -> & Hmid).
        rewrite (IH (front ++ mid) bs'); [reflexivity| | exact Hrest |].
        -- now rewrite app_assoc.
        -- apply Forall_app. split; [exact Hfront_rest|].
           rewrite Forall_forall in *. intros d Hin. apply Forall_forall.
           intros s' Hin'. apply (before_start_later d s s').
           ++ apply (Hs s' Hin').
           ++ exact (Hmid d Hin).
      * now rewrite (IH front bs eq_refl Hrest Hfront_rest).
Qed.

(** Sortedness of an explicit list. *)
Ltac sorted_by_start :=
  repeat first [ apply SSorted_nil | apply SSorted_cons
               | apply Forall_nil | apply Forall_cons ];
  unfold block_start_le, stmt_start_le, pos_le; simpl; lia.

Lemma each_settled_some (ip : annotation.IgnoreProfile)
  (blocks : list cover.ProfileBlock) (ss : list statement) :
  each (settled (Some ip) blocks) ss
  = Ok (map (fun s => match first_overlap blocks (StmtExtent_ s) with
                      | Some b => hit ip s b
                      | None => s
                      end) ss).
Proof.
  induction ss as [|s rest IH]; simpl; [reflexivity|].
  rewrite IH. unfold settled.
  now destruct (first_overlap blocks (StmtExtent_ s)).
Qed.

Lemma each_settled_nil (blocks : list cover.ProfileBlock) (ss : list statement) :
  (exists s, In s ss /\ first_overlap blocks (StmtExtent_ s) <> None) ->
  each (settled None blocks) ss
  = Panic "runtime error: invalid memory address or nil pointer dereference".
Proof.
  induction ss as [|s rest IH]; intros (s' & Hin & Hs').
  - destruct Hin.
  - simpl. unfold settled at 1.
    destruct (first_overlap blocks (StmtExtent_ s)) eqn:E; [reflexivity|].
    simpl. rewrite IH; [reflexivity|].
    destruct Hin as [->|Hin]; [congruence|]. now exists s'.
Qed.

Lemma hit_Reached (ip : annotation.IgnoreProfile) (s : statement)
  (b : cover.ProfileBlock) :
  Reached (Statement_ (hit ip s b)) = int_add (Reached (Statement_ s)) (cover.Count b)
  /\ StmtExtent_ (hit ip s b) = StmtExtent_ s.
Proof. unfold hit. now destruct (annotation.has_block ip b). Qed.

Lemma file_ignored_Some (ip : annotation.IgnoreProfile) :
  file_ignored (Some ip) = true <-> annotation.Type_ ip = annotation.FILE_IGNORE.
Proof. destruct ip as [[] ?]; simpl; split; congruence. Qed.



(** C3: in a file that carries the file-level ignore marker every
    statement ends with [Mode = Ignore] and [Reached = 1], whatever the
    profile blocks are: the result is the same for every block list. *)
Theorem file_ignore_dominates (ip : annotation.IgnoreProfile)
  (blocks : list cover.ProfileBlock) (ss : list statement) :
  annotation.Type_ ip = annotation.FILE_IGNORE ->
  exists res,
    reconcile (Some ip) blocks ss = Ok res
    /\ res = map ignored ss
    /\ Forall (fun s => Mode_ (Statement_ s) = Ignore /\ Reached (Statement_ s) = 1) res
    /\ forall blocks', reconcile (Some ip) blocks' ss = Ok res.
Proof.
  intros Htype. apply file_ignored_Some in Htype.
  assert (Hrun : forall bs, reconcile (Some ip) bs ss = Ok (map ignored ss)).
  { intros bs. induction ss as [|s rest IH]; cbn [reconcile]; [reflexivity|].
    rewrite Htype, IH. reflexivity. }
  exists (map ignored ss). split; [apply Hrun|]. split; [reflexivity|].
  split; [|exact Hrun].
  apply Forall_forall. intros s Hin. apply in_map_iff in Hin.
  destruct Hin as (s0 & <- & _). split; reflexivity.
Qed.

(** The statement overlaps two blocks that were hit; the file is ignored. *)
Lemma file_ignore_dominates_witness :
  exists res,
    reconcile (Some (annotation.mkIgnoreProfile annotation.FILE_IGNORE []))
      [header_block; body_block] [if_statement] = Ok res
    /\ Forall (fun s => Mode_ (Statement_ s) = Ignore /\ Reached (Statement_ s) = 1) res.
Proof.
  destruct (file_ignore_dominates
              (annotation.mkIgnoreProfile annotation.FILE_IGNORE [])
              [header_block; body_block] [if_statement] eq_refl)
    as (res & Hres & _ & Hall & _).
  exists res. split; assumption.
Defined.

(** C1, as stated, fails: a statement that overlaps two blocks with
    counts 1 and 2 ends with [Reached = 1], not 3. *)
Lemma reconcile_stops_at_first_overlap :
  overlaps header_block (StmtExtent_ if_statement) = true
  /\ overlaps body_block (StmtExtent_ if_statement) = true
  /\ overlap_sum [header_block; body_block] (StmtExtent_ if_statement) = 3
  /\ exists s,
       reconcile (Some no_ignore) [header_block; body_block] [if_statement] = Ok [s]
       /\ Reached (Statement_ s) = 1
       /\ Reached (Statement_ s)
          <> overlap_sum [header_block; body_block] (StmtExtent_ if_statement).
Proof.
  repeat split; try reflexivity.
  eexists. split; [reflexivity|]. split; [reflexivity|]. vm_compute. discriminate.
Qed.

(** C1, amended: when the file is not ignored as a whole, the blocks are
    sorted by start position and the statements are sorted by start
    position, every statement ends with [Reached] equal to the [Count]
    of the first block, in profile order, that overlaps it, and with 0
    when no block overlaps it: the scan of a statement stops at its
    first overlapping block. *)
Theorem reconcile_counts_first_overlap (ip : annotation.IgnoreProfile)
  (blocks : list cover.ProfileBlock) (ss : list statement) :
  annotation.Type_ ip <> annotation.FILE_IGNORE ->
  StronglySorted block_start_le blocks ->
  StronglySorted stmt_start_le ss ->
  Forall (fun b => in_int (cover.Count b)) blocks ->
  Forall fresh ss ->
  exists res,
    reconcile (Some ip) blocks ss = Ok res
    /\ Forall2 (fun s s' =>
                  StmtExtent_ s' = StmtExtent_ s
                  /\ Reached (Statement_ s')
                     = first_overlap_count blocks (StmtExtent_ s))
               ss res.
Proof.
  intros Htype Hblocks Hss Hcounts Hfresh.
  assert (Hfile : file_ignored (Some ip) = false).
  { destruct (file_ignored (Some ip)) eqn:E; [|reflexivity].
    apply file_ignored_Some in E. contradiction. }
  rewrite (reconcile_sorted (Some ip) blocks Hfile Hblocks ss [] blocks eq_refl Hss);
    [|constructor].
  rewrite each_settled_some. eexists. split; [reflexivity|].
  clear Hss. induction Hfresh as [|s rest Hs _ IH]; simpl; constructor; [|exact IH].
  unfold first_overlap_count.
  destruct (first_overlap blocks (StmtExtent_ s)) as [b|] eqn:E.
  - destruct (hit_Reached ip s b) as [-> ->]. split; [reflexivity|].
    unfold fresh in Hs. rewrite Hs. unfold int_add. simpl.
    apply wrap_in_int. rewrite Forall_forall in Hcounts. apply Hcounts.
    unfold first_overlap in E. now apply find_some in E.
  - split; [reflexivity|exact Hs].
Qed.

Lemma reconcile_counts_first_overlap_witness :
  exists res,
    reconcile (Some no_ignore) [header_block; body_block] [if_statement] = Ok res
    /\ Forall2 (fun s s' =>
                  StmtExtent_ s' = StmtExtent_ s
                  /\ Reached (Statement_ s')
                     = first_overlap_count [header_block; body_block] (StmtExtent_ s))
               [if_statement] res.
Proof.
  apply (reconcile_counts_first_overlap no_ignore
           [header_block; body_block] [if_statement]).
  - discriminate.
  - sorted_by_start.
  - sorted_by_start.
  - repeat constructor; unfold in_int, int_min, int_max; simpl; lia.
  - repeat constructor.
Defined.










(** ** The structural extent extractor *)

(** Induction over statements, with the hypothesis for every statement
    of a list and for an optional statement. *)
Section Stmt_induction.

Variable P : ast.Stmt -> Prop.

Hypothesis HBlock : forall lbrace l rbrace,
    all P l -> P (ast.BlockStmt lbrace l rbrace).
Hypothesis HCase : forall case colon body,
    all P body -> P (ast.CaseClause case colon body).
Hypothesis HComm : forall case colon body,
    all P body -> P (ast.CommClause case colon body).
Hypothesis HFor : forall for_ init post body,
    all_opt P init -> all_opt P post -> P body ->
    P (ast.ForStmt for_ init post body).
Hypothesis HIf : forall if_ init body els,
    all_opt P init -> P body -> all_opt P els ->
    P (ast.IfStmt if_ init body els).
Hypothesis HLabeled : forall label st, P st -> P (ast.LabeledStmt label st).
Hypothesis HRange : forall for_ body, P body -> P (ast.RangeStmt for_ body).
Hypothesis HSelect : forall select body, P body -> P (ast.SelectStmt select body).
Hypothesis HSwitch : forall switch init body,
    all_opt P init -> P body -> P (ast.SwitchStmt switch init body).
Hypothesis HTypeSwitch : forall switch init assign body,
    all_opt P init -> P assign -> P body ->
    P (ast.TypeSwitchStmt switch init assign body).
Hypothesis HOther : forall pos end_, P (ast.OtherStmt pos end_).

Fixpoint Stmt_induction (s : ast.Stmt) : P s :=
  let all_list :=
    fix all_list (l : list ast.Stmt) : all P l :=
      match l with
      | [] => I
      | x :: rest => conj (Stmt_induction x) (all_list rest)
      end in
  let opt (o : option ast.Stmt) : all_opt P o :=
    match o with
    | None => I
    | Some x => Stmt_induction x
    end in
  match s with
  | ast.BlockStmt lbrace l rbrace => HBlock lbrace l rbrace (all_list l)
  | ast.CaseClause case colon body => HCase case colon body (all_list body)
  | ast.CommClause case colon body => HComm case colon body (all_list body)
  | ast.ForStmt for_ init post body =>
      HFor for_ init post body (opt init) (opt post) (Stmt_induction body)
  | ast.IfStmt if_ init body els =>
      HIf if_ init body els (opt init) (Stmt_induction body) (opt els)
  | ast.LabeledStmt label st => HLabeled label st (Stmt_induction st)
  | ast.RangeStmt for_ body => HRange for_ body (Stmt_induction body)
  | ast.SelectStmt select body => HSelect select body (Stmt_induction body)
  | ast.SwitchStmt switch init body =>
      HSwitch switch init body (opt init) (Stmt_induction body)
  | ast.TypeSwitchStmt switch init assign body =>
      HTypeSwitch switch init assign body (opt init)
        (Stmt_induction assign) (Stmt_induction body)
  | ast.OtherStmt pos end_ => HOther pos end_
  end.

End Stmt_induction.

Lemma bind_Ok {A B : Type} (m : outcome A) (k : A -> outcome B) (r : B) :
  bind m k = Ok r -> exists a, m = Ok a /\ k a = Ok r.
Proof. destruct m; simpl; try discriminate. intros H. now exists a. Qed.

(** Splits a hypothesis [' (a, b) <- m ;; k = Ok r] into its two steps. *)
Tactic Notation "bind_inv" hyp(H) "as" ident(a) ident(b) ident(Ha) :=
  apply bind_Ok in H; destruct H as ([a b] & Ha & H).

Lemma record_keep (fset : token.FileSet) (s : ast.Stmt) :
  record fset s = map (extent_of fset) (keep s).
Proof. now destruct s. Qed.

(** The [IfStmt] case as the source has it: the alternate, a
    synthesized block or the plain block moved back, is visited by
    [VisitStmt] itself. *)
Lemma VisitStmt_else (fset : token.FileSet) (if_ : Z) (init : option ast.Stmt)
  (body alt : ast.Stmt) :
  VisitStmt fset (ast.IfStmt if_ init body (Some alt))
  = ('(init', e1) <- visit_option (VisitStmt fset) init ;;
     '(body', e2) <- VisitStmt fset body ;;
     match alt with
     | ast.IfStmt stmt_if _ _ _ =>
         '(block, e3) <-
            VisitStmt fset
              (ast.BlockStmt (int_sub stmt_if backupToElse) [alt] (ast.End alt)) ;;
         Ok (ast.IfStmt if_ init' body' (Some block), e1 ++ e2 ++ e3)
     | ast.BlockStmt lbrace l rbrace =>
         '(block, e3) <-
            VisitStmt fset (ast.BlockStmt (int_sub lbrace backupToElse) l rbrace) ;;
         Ok (ast.IfStmt if_ init' body' (Some block), e1 ++ e2 ++ e3)
     | _ => Panic "unexpected node type in if"
     end).
Proof.
  cbn [VisitStmt].
  destruct (visit_option (VisitStmt fset) init) as [[init' e1] | | |];
    try reflexivity.
  cbn [bind].
  destruct (VisitStmt fset body) as [[body' e2] | | |]; try reflexivity.
  cbn [bind].
  destruct alt as [lb2 l2 rb2| | | | if2 init2 body2 els2 | | | | | |];
    try reflexivity.
  - cbn [VisitStmt].
    now destruct (visit_list (record fset) (VisitStmt fset) l2) as [[l' e3] | | |].
  - cbn [VisitStmt].
    now destruct (visit_list (record fset) (VisitStmt fset)
                    [ast.IfStmt if2 init2 body2 els2]) as [[l' e3] | | |].
Qed.

Section Recorded.

Variable fset : token.FileSet.

(** What a successful visit appends is the extents of [recorded]. *)
Let appends (s : ast.Stmt) : Prop :=
  forall t es, VisitStmt fset s = Ok (t, es) ->
               es = map (extent_of fset) (recorded s).

Lemma visit_list_recorded (l : list ast.Stmt) :
  all appends l ->
  forall l' es,
    visit_list (record fset) (VisitStmt fset) l = Ok (l', es) ->
    es = map (extent_of fset) (recorded_list recorded l).
Proof.
  induction l as [|x rest IH]; intros Hall l' es H; simpl in H.
  - now injection H as <- <-.
  - destruct Hall as [Hx Hrest].
    bind_inv H as x' e1 H1. bind_inv H as rest' e2 H2. injection H as <- <-.
    simpl. rewrite !map_app, <- record_keep.
    now rewrite (Hx _ _ H1), (IH Hrest _ _ H2).
Qed.

Lemma visit_option_recorded (o : option ast.Stmt) :
  all_opt appends o ->
  forall o' es,
    visit_option (VisitStmt fset) o = Ok (o', es) ->
    es = map (extent_of fset) (recorded_opt recorded o).
Proof.
  destruct o as [x|]; simpl; intros Hx o' es H.
  - bind_inv H as x' e1 H1. injection H as <- <-. exact (Hx _ _ H1).
  - now injection H as <- <-.
Qed.

Lemma VisitStmt_recorded (s : ast.Stmt) :
  forall t es, VisitStmt fset s = Ok (t, es) ->
               es = map (extent_of fset) (recorded s).
Proof.
  induction s as [lbrace l rbrace Hl | case colon body Hbody
                 | case colon body Hbody
                 | for_ init post body Hinit Hpost IHbody
                 | if_ init body els Hinit IHbody Hels
                 | label st IHst | for_ body IHbody | select body IHbody
                 | switch init body Hinit IHbody
                 | switch init assign body Hinit IHassign IHbody
                 | pos end_] using Stmt_induction;
    intros t es Hv; simpl in Hv.
  - bind_inv Hv as l' e1 H1. injection Hv as <- <-.
    exact (visit_list_recorded l Hl _ _ H1).
  - bind_inv Hv as l' e1 H1. injection Hv as <- <-.
    exact (visit_list_recorded body Hbody _ _ H1).
  - bind_inv Hv as l' e1 H1. injection Hv as <- <-.
    exact (visit_list_recorded body Hbody _ _ H1).
  - bind_inv Hv as init' e1 H1. bind_inv Hv as post' e2 H2.
    bind_inv Hv as body' e3 H3. injection Hv as <- <-.
    simpl. rewrite !map_app.
    rewrite (visit_option_recorded init Hinit _ _ H1).
    rewrite (visit_option_recorded post Hpost _ _ H2).
    now rewrite (IHbody _ _ H3).
  - bind_inv Hv as init' e1 H1. bind_inv Hv as body' e2 H2.
    apply (visit_option_recorded init Hinit) in H1.
    apply IHbody in H2. subst e1 e2.
    destruct els as [stmt|].
    + destruct stmt as [lb2 l2 rb2| | | | if2 init2 body2 els2 | | | | | |];
        try discriminate.
      * bind_inv Hv as l' e3 H3. injection Hv as <- <-.
        simpl. rewrite !map_app. do 2 f_equal.
        apply (Hels (ast.BlockStmt lb2 l' rb2)).
        simpl. now rewrite H3.
      * bind_inv Hv as l' e3 H3. injection Hv as <- <-.
        cbn [recorded]. rewrite !map_app. do 2 f_equal.
        exact (visit_list_recorded [ast.IfStmt if2 init2 body2 els2]
                 (conj Hels I) l' e3 H3).
    + injection Hv as <- <-. simpl. now rewrite !map_app, app_nil_r.
  - bind_inv Hv as st' e1 H1. injection Hv as <- <-. exact (IHst _ _ H1).
  - bind_inv Hv as st' e1 H1. injection Hv as <- <-. exact (IHbody _ _ H1).
  - bind_inv Hv as st' e1 H1. injection Hv as <- <-. exact (IHbody _ _ H1).
  - bind_inv Hv as init' e1 H1. bind_inv Hv as body' e2 H2.
    injection Hv as <- <-. simpl. rewrite !map_app.
    rewrite (visit_option_recorded init Hinit _ _ H1).
    now rewrite (IHbody _ _ H2).
  - bind_inv Hv as init' e1 H1. bind_inv Hv as assign' e2 H2.
    bind_inv Hv as body' e3 H3. injection Hv as <- <-.
    simpl. rewrite !map_app.
    rewrite (visit_option_recorded init Hinit _ _ H1).
    now rewrite (IHassign _ _ H2), (IHbody _ _ H3).
  - now injection Hv as <- <-.
Qed.

End Recorded.

Section Totality.

Variable fset : token.FileSet.

Let returns (s : ast.Stmt) : Prop :=
  parsed s -> exists t es, VisitStmt fset s = Ok (t, es).

Lemma visit_list_total (l : list ast.Stmt) :
  all returns l -> all parsed l ->
  exists l' es, visit_list (record fset) (VisitStmt fset) l = Ok (l', es).
Proof.
  induction l as [|x rest IH]; simpl; intros Hall Hparsed.
  - now exists [], [].
  - destruct Hall as [Hx Hrest]. destruct Hparsed as [Px Prest].
    destruct (Hx Px) as (x' & e1 & ->).
    destruct (IH Hrest Prest) as (rest' & e2 & ->).
    simpl. eauto.
Qed.

Lemma visit_option_total (o : option ast.Stmt) :
  all_opt returns o -> all_opt parsed o ->
  exists o' es, visit_option (VisitStmt fset) o = Ok (o', es).
Proof.
  destruct o as [x|]; simpl; intros Hx Px.
  - destruct (Hx Px) as (x' & e1 & ->). simpl. eauto.
  - eauto.
Qed.

Lemma VisitStmt_total (s : ast.Stmt) :
  parsed s -> exists t es, VisitStmt fset s = Ok (t, es).
Proof.
  induction s as [lbrace l rbrace Hl | case colon body Hbody
                 | case colon body Hbody
                 | for_ init post body Hinit Hpost IHbody
                 | if_ init body els Hinit IHbody Hels
                 | label st IHst | for_ body IHbody | select body IHbody
                 | switch init body Hinit IHbody
                 | switch init assign body Hinit IHassign IHbody
                 | pos end_] using Stmt_induction;
    intros Hp; simpl in Hp.
  - destruct (visit_list_total l Hl Hp) as (l' & es & H).
    simpl. rewrite H. simpl. eauto.
  - destruct (visit_list_total body Hbody Hp) as (l' & es & H).
    simpl. rewrite H. simpl. eauto.
  - destruct (visit_list_total body Hbody Hp) as (l' & es & H).
    simpl. rewrite H. simpl. eauto.
  - destruct Hp as (Pinit & Ppost & Pbody).
    destruct (visit_option_total init Hinit Pinit) as (init' & e1 & H1).
    destruct (visit_option_total post Hpost Ppost) as (post' & e2 & H2).
    destruct (IHbody Pbody) as (body' & e3 & H3).
    simpl. rewrite H1. simpl. rewrite H2. simpl. rewrite H3. simpl. eauto.
  - destruct Hp as (Pinit & Pbody & Pels).
    destruct (visit_option_total init Hinit Pinit) as (init' & e1 & H1).
    destruct (IHbody Pbody) as (body' & e2 & H2).
    cbn [VisitStmt]. rewrite H1. cbn [bind]. rewrite H2. cbn [bind].
    destruct els as [stmt|]; [|eauto].
    destruct Pels as [Hshape Pstmt].
    destruct stmt as [lb2 l2 rb2| | | | if2 init2 body2 els2 | | | | | |];
      try contradiction.
    + destruct (Hels Pstmt) as (t & es & H3). simpl in H3.
      apply bind_Ok in H3. destruct H3 as ([l' e3] & H3 & _).
      rewrite H3. simpl. eauto.
    + destruct (visit_list_total [ast.IfStmt if2 init2 body2 els2]
                  (conj Hels I) (conj Pstmt I)) as (l' & e3 & H3).
      rewrite H3. simpl. eauto.
  - destruct (IHst Hp) as (st' & es & H). simpl. rewrite H. simpl. eauto.
  - destruct (IHbody Hp) as (st' & es & H). simpl. rewrite H. simpl. eauto.
  - destruct (IHbody Hp) as (st' & es & H). simpl. rewrite H. simpl. eauto.
  - destruct Hp as (Pinit & Pbody).
    destruct (visit_option_total init Hinit Pinit) as (init' & e1 & H1).
    destruct (IHbody Pbody) as (body' & e2 & H2).
    simpl. rewrite H1. simpl. rewrite H2. simpl. eauto.
  - destruct Hp as (Pinit & Passign & Pbody).
    destruct (visit_option_total init Hinit Pinit) as (init' & e1 & H1).
    destruct (IHassign Passign) as (assign' & e2 & H2).
    destruct (IHbody Pbody) as (body' & e3 & H3).
    simpl. rewrite H1. simpl. rewrite H2. simpl. rewrite H3. simpl. eauto.
  - simpl. eauto.
Qed.

End Totality.

(** An [Else] that is neither an [if] statement nor a block ends the
    visit in the panic. *)
Lemma VisitStmt_panics_on_other_else (fset : token.FileSet) :
  VisitStmt fset (ast.IfStmt 10 None (ast.BlockStmt 15 [] 16)
                    (Some (ast.OtherStmt 22 30)))
  = Panic "unexpected node type in if".
Proof. reflexivity. Qed.

(** C10: on a tree in which the [Else] of every [if] statement, when not
    nil, is an [if] statement or a block, as the Go parser builds them,
    [VisitStmt] returns: the panic of the else-chain case is not
    reached. *)
Theorem VisitStmt_total_on_parsed (fset : token.FileSet) (s : ast.Stmt) :
  parsed s ->
  (exists t es, VisitStmt fset s = Ok (t, es))
  /\ forall msg, VisitStmt fset s <> Panic msg.
Proof.
  intros Hp. destruct (VisitStmt_total fset s Hp) as (t & es & H).
  split; [now exists t, es|]. intros msg. rewrite H. discriminate.
Qed.

Lemma VisitStmt_total_on_parsed_witness :
  (exists t es, VisitStmt one_line else_if_chain = Ok (t, es))
  /\ forall msg, VisitStmt one_line else_if_chain <> Panic msg.
Proof.
  apply (VisitStmt_total_on_parsed one_line else_if_chain).
  simpl. tauto.
Defined.

(** *** Source order *)

Lemma increasing_in_nil (lo hi : Z) : increasing_in lo hi [].
Proof. split; constructor. Qed.

Lemma increasing_in_weaken (lo hi lo' hi' : Z) (zs : list Z) :
  lo' <= lo -> hi <= hi' -> increasing_in lo hi zs -> increasing_in lo' hi' zs.
Proof.
  intros Hlo Hhi [Hs Hb]. split; [exact Hs|].
  eapply Forall_impl; [|exact Hb]. simpl. intros z Hz. lia.
Qed.

Lemma increasing_in_app (lo mid hi : Z) (xs ys : list Z) :
  lo <= mid -> mid <= hi ->
  increasing_in lo mid xs -> increasing_in mid hi ys ->
  increasing_in lo hi (xs ++ ys).
Proof.
  intros Hlo Hhi [Hxs Hxb] [Hys Hyb]. split.
  - induction xs as [|x xs IH]; simpl; [exact Hys|].
    inversion Hxs as [|? ? Hxs' Hx]; subst.
    inversion Hxb as [|? ? Hxlt Hxb']; subst.
    constructor; [now apply IH|].
    apply Forall_app. split; [exact Hx|].
    eapply Forall_impl; [|exact Hyb]. simpl. intros z Hz. lia.
  - apply Forall_app. split.
    + eapply Forall_impl; [|exact Hxb]. simpl. intros z Hz. lia.
    + eapply Forall_impl; [|exact Hyb]. simpl. intros z Hz. lia.
Qed.

Lemma increasing_in_cons (lo hi z : Z) (zs : list Z) :
  lo <= z -> z < hi -> increasing_in (z + 1) hi zs -> increasing_in lo hi (z :: zs).
Proof.
  intros Hlo Hhi [Hs Hb]. split.
  - constructor; [exact Hs|].
    eapply Forall_impl; [|exact Hb]. simpl. intros y Hy. lia.
  - constructor; [lia|].
    eapply Forall_impl; [|exact Hb]. simpl. intros y Hy. lia.
Qed.

Lemma int_add_1 (z : Z) : 0 <= z -> z < int_max -> int_add z 1 = z + 1.
Proof.
  intros H0 H1. unfold int_add. apply wrap_in_int.
  unfold in_int, int_min, int_max in *. lia.
Qed.

Lemma End_BlockStmt (lbrace rbrace : Z) (l : list ast.Stmt) :
  0 < rbrace -> rbrace < int_max ->
  ast.End (ast.BlockStmt lbrace l rbrace) = rbrace + 1.
Proof.
  intros H0 H1. cbn [ast.End]. unfold token.IsValid, token.NoPos.
  destruct (rbrace =? 0) eqn:E; [apply Z.eqb_eq in E; lia|].
  simpl. apply int_add_1; lia.
Qed.

Lemma keep_Pos (x : ast.Stmt) :
  map ast.Pos (keep x) = [] \/ map ast.Pos (keep x) = [ast.Pos x].
Proof. destruct x; simpl; auto. Qed.

Lemma last_End_nonempty (x : ast.Stmt) (rest : list ast.Stmt) (d d' : Z) :
  ast.last_End ast.End (x :: rest) d = ast.last_End ast.End (x :: rest) d'.
Proof.
  revert x. induction rest as [|y rest IH]; intros x; [reflexivity|].
  cbn [ast.last_End] in *. apply (IH y).
Qed.

Section Source_order.

Let ordered (s : ast.Stmt) : Prop :=
  forall lo hi, 0 < lo -> hi <= int_max -> placed lo hi s -> spans lo hi s.

(** The statements of a list: the recorded positions lie between
    [lo] and the end of the last statement ([d] for an empty list). *)
Lemma placed_list_spans (l : list ast.Stmt) :
  all ordered l ->
  forall lo hi d,
    0 < lo -> hi <= int_max -> lo <= d -> d <= hi ->
    placed_list placed lo hi l ->
    let e := ast.last_End ast.End l d in
    lo <= e /\ e <= hi
    /\ increasing_in lo e (map ast.Pos (recorded_list recorded l)).
Proof.
  induction l as [|x rest IH]; intros Hall lo hi d Hlo Hhi Hd Hd' Hpl e.
  - subst e. simpl. split; [lia|]. split; [lia|]. apply increasing_in_nil.
  - destruct Hall as [Hx Hrest]. destruct Hpl as (Hpx & Hwide & Hprest).
    destruct (Hx lo hi Hlo Hhi Hpx) as (H1 & H2 & H3 & _ & Hinc).
    destruct (IH Hrest (ast.End x) hi (ast.End x)) as (IH1 & IH2 & IHinc);
      [lia | lia | lia | lia | exact Hprest |].
    assert (He : e = ast.last_End ast.End rest (ast.End x)).
    { subst e. destruct rest as [|y rest']; [reflexivity|].
      cbn [ast.last_End]. apply (last_End_nonempty y rest'). }
    rewrite He. split; [lia|]. split; [lia|].
    cbn [recorded_list]. rewrite !map_app.
    assert (Hin : increasing_in (ast.Pos x + 1)
                    (ast.last_End ast.End rest (ast.End x))
                    (map ast.Pos (recorded x)
                     ++ map ast.Pos (recorded_list recorded rest))).
    { apply (increasing_in_app _ (ast.End x)); auto; lia. }
    destruct (keep_Pos x) as [-> | ->]; simpl.
    + apply (increasing_in_weaken (ast.Pos x + 1)
               (ast.last_End ast.End rest (ast.End x))); auto; lia.
    + apply increasing_in_cons; auto; lia.
Qed.

Lemma placed_opt_spans (o : option ast.Stmt) :
  all_opt ordered o ->
  forall lo hi,
    0 < lo -> hi <= int_max -> lo <= hi ->
    placed_opt placed lo hi o ->
    lo <= after_opt lo o /\ after_opt lo o <= hi
    /\ increasing_in lo (after_opt lo o) (map ast.Pos (recorded_opt recorded o)).
Proof.
  destruct o as [x|]; simpl; intros Hx lo hi Hlo Hhi Hle Hpl.
  - destruct (Hx lo hi Hlo Hhi Hpl) as (H1 & H2 & H3 & _ & Hinc).
    split; [lia|]. split; [lia|].
    apply (increasing_in_weaken (ast.Pos x + 1) (ast.End x)); auto; lia.
  - split; [lia|]. split; [lia|]. apply increasing_in_nil.
Qed.

(** Loosens the bounds of an [increasing_in] hypothesis. *)
Ltac loosen H := apply (increasing_in_weaken _ _ _ _ _) with (3 := H); lia.

Lemma placed_spans (s : ast.Stmt) :
  forall lo hi, 0 < lo -> hi <= int_max -> placed lo hi s -> spans lo hi s.
Proof.
  induction s as [lbrace l rbrace Hl | case colon body Hbody
                 | case colon body Hbody
                 | for_ init post body Hinit Hpost IHbody
                 | if_ init body els Hinit IHbody Hels
                 | label st IHst | for_ body IHbody | select body IHbody
                 | switch init body Hinit IHbody
                 | switch init assign body Hinit IHassign IHbody
                 | pos end_] using Stmt_induction;
    intros lo hi Hlo Hhi Hpl; cbn [placed] in Hpl; unfold spans.
  - destruct Hpl as (H1 & H2 & H3 & Hlist).
    rewrite End_BlockStmt by lia. cbn [ast.Pos recorded].
    destruct (placed_list_spans l Hl (lbrace + 1) rbrace (lbrace + 1))
      as (E1 & E2 & Einc); try lia; [exact Hlist|].
    repeat (split; [lia|]). loosen Einc.
  - destruct Hpl as (H1 & H2 & H3 & Hlist).
    cbn [ast.Pos ast.End recorded]. rewrite int_add_1 by lia.
    destruct (placed_list_spans body Hbody (colon + 1) hi (colon + 1))
      as (E1 & E2 & Einc); try lia; [exact Hlist|].
    repeat (split; [lia|]). loosen Einc.
  - destruct Hpl as (H1 & H2 & H3 & Hlist).
    cbn [ast.Pos ast.End recorded]. rewrite int_add_1 by lia.
    destruct (placed_list_spans body Hbody (colon + 1) hi (colon + 1))
      as (E1 & E2 & Einc); try lia; [exact Hlist|].
    repeat (split; [lia|]). loosen Einc.
  - destruct Hpl as (H1 & Pinit & Ppost & Pbody).
    destruct (IHbody (for_ + 1) hi) as (B1 & B2 & B3 & _ & Binc);
      [lia | lia | exact Pbody |].
    destruct (placed_opt_spans init Hinit (for_ + 1) (ast.Pos body))
      as (I1 & I2 & Iinc); [lia | lia | lia | exact Pinit |].
    destruct (placed_opt_spans post Hpost (after_opt (for_ + 1) init) (ast.Pos body))
      as (Q1 & Q2 & Qinc); [lia | lia | lia | exact Ppost |].
    cbn [ast.Pos ast.End recorded]. rewrite !map_app.
    repeat (split; [lia|]).
    apply (increasing_in_app _ (after_opt (for_ + 1) init)); [lia | lia | exact Iinc |].
    apply (increasing_in_app _ (ast.Pos body)); [lia | lia | loosen Qinc | loosen Binc].
  - destruct Hpl as (H1 & Pinit & Pbody & Pels).
    destruct (IHbody (if_ + 1) hi) as (B1 & B2 & B3 & _ & Binc);
      [lia | lia | exact Pbody |].
    destruct (placed_opt_spans init Hinit (if_ + 1) (ast.Pos body))
      as (I1 & I2 & Iinc); [lia | lia | lia | exact Pinit |].
    cbn [ast.Pos ast.End recorded]. rewrite !map_app.
    destruct els as [stmt|].
    + destruct (Hels (ast.End body) hi) as (E1 & E2 & E3 & Estrict & Einc);
        [lia | lia | exact Pels |].
      repeat (split; [lia|]).
      apply (increasing_in_app _ (ast.Pos body)); [lia | lia | loosen Iinc |].
      apply (increasing_in_app _ (ast.End body)); [lia | lia | loosen Binc |].
      destruct stmt as [lb2 l2 rb2| | | | if2 init2 body2 els2 | | | | | |];
        try apply increasing_in_nil.
      * cbn [recorded] in Einc. loosen Einc.
      * cbn [recorded_list keep map app]. rewrite app_nil_r.
        apply increasing_in_cons; [lia | apply Estrict; exact I | exact Einc].
    + rewrite app_nil_r. repeat (split; [lia|]).
      apply (increasing_in_app _ (ast.Pos body)); [lia | lia | loosen Iinc | loosen Binc].
  - destruct Hpl as (H1 & Pst).
    destruct (IHst (label + 1) hi) as (B1 & B2 & B3 & _ & Binc);
      [lia | lia | exact Pst |].
    cbn [ast.Pos ast.End recorded]. repeat (split; [lia|]). loosen Binc.
  - destruct Hpl as (H1 & Pbody).
    destruct (IHbody (for_ + 1) hi) as (B1 & B2 & B3 & _ & Binc);
      [lia | lia | exact Pbody |].
    cbn [ast.Pos ast.End recorded]. repeat (split; [lia|]). loosen Binc.
  - destruct Hpl as (H1 & Pbody).
    destruct (IHbody (select + 1) hi) as (B1 & B2 & B3 & _ & Binc);
      [lia | lia | exact Pbody |].
    cbn [ast.Pos ast.End recorded]. repeat (split; [lia|]). loosen Binc.
  - destruct Hpl as (H1 & Pinit & Pbody).
    destruct (IHbody (switch + 1) hi) as (B1 & B2 & B3 & _ & Binc);
      [lia | lia | exact Pbody |].
    destruct (placed_opt_spans init Hinit (switch + 1) (ast.Pos body))
      as (I1 & I2 & Iinc); [lia | lia | lia | exact Pinit |].
    cbn [ast.Pos ast.End recorded]. rewrite !map_app.
    repeat (split; [lia|]).
    apply (increasing_in_app _ (ast.Pos body)); [lia | lia | loosen Iinc | loosen Binc].
  - destruct Hpl as (H1 & Pinit & Passign & Pbody).
    destruct (IHbody (switch + 1) hi) as (B1 & B2 & B3 & _ & Binc);
      [lia | lia | exact Pbody |].
    destruct (placed_opt_spans init Hinit (switch + 1) (ast.Pos body))
      as (I1 & I2 & Iinc); [lia | lia | lia | exact Pinit |].
    destruct (IHassign (after_opt (switch + 1) init) (ast.Pos body))
      as (A1 & A2 & A3 & _ & Ainc); [lia | lia | exact Passign |].
    cbn [ast.Pos ast.End recorded]. rewrite !map_app.
    repeat (split; [lia|]).
    apply (increasing_in_app _ (after_opt (switch + 1) init)); [lia | lia | exact Iinc |].
    apply (increasing_in_app _ (ast.Pos body)); [lia | lia | loosen Ainc | loosen Binc].
  - cbn [ast.Pos ast.End recorded]. do 3 (split; [lia|]).
    split; [intros []|apply increasing_in_nil].
Qed.

End Source_order.

Lemma startOffset_extent_of (fset : token.FileSet) (base size : Z) (n : ast.Stmt) :
  file_at fset base size ->
  base <= ast.Pos n <= base + size ->
  startOffset (extent_of fset n) = ast.Pos n - base.
Proof. intros Hfile Hn. unfold extent_of, extent_between. simpl. now apply Hfile. Qed.

Lemma by_start_of_positions (fset : token.FileSet) (base size : Z)
  (ns : list ast.Stmt) :
  file_at fset base size ->
  increasing_in base (base + size) (map ast.Pos ns) ->
  by_start (map (extent_of fset) ns).
Proof.
  intros Hfile [Hsorted Hbound]. unfold by_start.
  induction ns as [|n rest IH]; simpl in *; [constructor|].
  inversion Hsorted as [|? ? Hrest Hn]; subst.
  inversion Hbound as [|? ? Hnb Hrestb]; subst.
  constructor; [now apply IH|].
  rewrite Forall_forall. intros e He. apply in_map_iff in He.
  destruct He as (m & <- & Hm).
  rewrite Forall_forall in Hn, Hrestb.
  assert (Hpos : In (ast.Pos m) (map ast.Pos rest)) by now apply in_map.
  rewrite (startOffset_extent_of fset base size n Hfile) by lia.
  rewrite (startOffset_extent_of fset base size m Hfile)
    by (specialize (Hrestb _ Hpos); lia).
  specialize (Hn _ Hpos). lia.
Qed.

(** C6: for a function body whose tokens are in source order in a file
    of the file set, the extractor returns, and the statement extents it
    produces are in strictly increasing order of start offset; they are
    the extents of the recorded statements in the order of the text. *)
Theorem extents_sorted_by_start (fset : token.FileSet) (base size : Z)
  (body : ast.Stmt) :
  0 < base -> base + size <= int_max ->
  file_at fset base size ->
  placed base (base + size) body ->
  parsed body ->
  (exists t es,
      VisitStmt fset body = Ok (t, es)
      /\ es = map (extent_of fset) (recorded body)
      /\ by_start es)
  /\ forall funcs node funcs',
       node_body node = Some body ->
       Visit fset funcs node = Ok funcs' ->
       exists fe, funcs' = funcs ++ [fe] /\ by_start (stmts fe).
Proof.
  intros Hbase Hsize Hfile Hplaced Hparsed.
  destruct (VisitStmt_total fset body Hparsed) as (t & es & Hv).
  pose proof (VisitStmt_recorded fset body t es Hv) as Hes.
  assert (Hsorted : by_start es).
  { subst es. apply (by_start_of_positions fset base size); [exact Hfile|].
    destruct (placed_spans body base (base + size) Hbase Hsize Hplaced)
      as (H1 & H2 & H3 & _ & Hinc).
    apply (increasing_in_weaken (ast.Pos body + 1) (ast.End body)); auto; lia. }
  split; [now exists t, es|].
  intros funcs node funcs' Hbody Hvisit. unfold Visit in Hvisit.
  apply bind_Ok in Hvisit. destruct Hvisit as ([[body' pos] nm] & Hnode & Hvisit).
  assert (body' = Some body) as ->.
  { destruct node as [p b | recv nm0 p b]; simpl in Hbody, Hnode.
    - injection Hnode as <- _ _. exact Hbody.
    - apply bind_Ok in Hnode. destruct Hnode as (nm' & _ & Hnode).
      injection Hnode as <- _ _. exact Hbody. }
  rewrite Hv in Hvisit. simpl in Hvisit. injection Hvisit as <-.
  eexists. split; [reflexivity|exact Hsorted].
Qed.

Lemma extents_sorted_by_start_witness :
  exists t es,
    VisitStmt one_line else_if_chain = Ok (t, es)
    /\ es = map (extent_of one_line) (recorded else_if_chain)
    /\ by_start es.
Proof.
  apply (extents_sorted_by_start one_line 1 60 else_if_chain).
  - lia.
  - unfold int_max. lia.
  - intros p _. reflexivity.
  - vm_compute. intuition discriminate.
  - simpl. tauto.
Defined.

(** *** What is recorded *)

Lemma in_recorded_list (l : list ast.Stmt) (c n : ast.Stmt) :
  In c l -> In n (keep c ++ recorded c) -> In n (recorded_list recorded l).
Proof.
  induction l as [|x rest IH]; intros Hc Hn; [destruct Hc|].
  cbn [recorded_list]. destruct Hc as [-> | Hc].
  - rewrite app_assoc. apply in_or_app. now left.
  - apply in_or_app. right. apply in_or_app. right. now apply IH.
Qed.

Section Kept.

Let kept (s : ast.Stmt) : Prop :=
  forall n, In n (recorded s) -> keep n = [n].

Lemma recorded_list_kept (l : list ast.Stmt) :
  all kept l -> forall n, In n (recorded_list recorded l) -> keep n = [n].
Proof.
  induction l as [|x rest IH]; intros Hall n Hn; [destruct Hn|].
  destruct Hall as [Hx Hrest]. cbn [recorded_list] in Hn.
  apply in_app_or in Hn. destruct Hn as [Hn | Hn].
  - destruct x; simpl in Hn; try contradiction;
      destruct Hn as [<- | []]; reflexivity.
  - apply in_app_or in Hn. destruct Hn as [Hn | Hn]; [now apply Hx|now apply IH].
Qed.

Lemma recorded_opt_kept (o : option ast.Stmt) :
  all_opt kept o -> forall n, In n (recorded_opt recorded o) -> keep n = [n].
Proof. destruct o as [x|]; simpl; intros Hx n Hn; [now apply Hx|destruct Hn]. Qed.

(** Blocks and clauses are never recorded. *)
Lemma recorded_kept (s : ast.Stmt) :
  forall n, In n (recorded s) -> keep n = [n].
Proof.
  induction s as [lbrace l rbrace Hl | case colon body Hbody
                 | case colon body Hbody
                 | for_ init post body Hinit Hpost IHbody
                 | if_ init body els Hinit IHbody Hels
                 | label st IHst | for_ body IHbody | select body IHbody
                 | switch init body Hinit IHbody
                 | switch init assign body Hinit IHassign IHbody
                 | pos end_] using Stmt_induction;
    intros n Hn; cbn [recorded] in Hn;
    repeat (apply in_app_or in Hn; destruct Hn as [Hn | Hn]);
    try (now apply (recorded_list_kept _ Hl));
    try (now apply (recorded_list_kept _ Hbody));
    try (now apply (recorded_opt_kept _ Hinit));
    try (now apply (recorded_opt_kept _ Hpost));
    try (now apply IHbody); try (now apply IHst); try (now apply IHassign).
  - destruct els as [stmt|]; [|destruct Hn].
    destruct stmt as [lb2 l2 rb2| | | | if2 init2 body2 els2 | | | | | |];
      try (destruct Hn; fail).
    + now apply Hels.
    + cbn [recorded_list keep app] in Hn. rewrite app_nil_r in Hn.
      destruct Hn as [<- | Hn]; [reflexivity | now apply Hels].
  - destruct Hn.
Qed.

End Kept.

(** C2, as stated, fails: the whole span of an [if] statement of a
    body, from 10 to 33, is recorded as a statement extent, and its
    initializer, from 13 to 19, is not. *)
Lemma control_construct_span_is_recorded :
  exists t es,
    VisitStmt one_line body_with_if = Ok (t, es)
    /\ es = [extent_between one_line 10 33; extent_between one_line 27 30]
    /\ In (extent_of one_line if_with_init) es
    /\ ~ In (extent_between one_line 13 19) es.
Proof.
  eexists. eexists. split; [reflexivity|]. split; [reflexivity|]. split.
  - left. reflexivity.
  - intros [H | [H | []]]; discriminate H.
Qed.

(** C2, amended: a control construct met in the statement list of a
    block or clause is recorded with its own whole span, and so are the
    statements recorded inside it; a statement that is not compound,
    such as an initializer, adds nothing when visited; no block and no
    clause is ever recorded: the extents are those of [recorded]. *)
Theorem control_construct_recorded_whole (fset : token.FileSet)
  (parent c t : ast.Stmt) (es : list StmtExtent) :
  is_control c = true ->
  In c (statement_list parent) ->
  VisitStmt fset parent = Ok (t, es) ->
  In (extent_of fset c) es
  /\ (forall n, In n (recorded c) -> In (extent_of fset n) es)
  /\ (forall pos end_,
        VisitStmt fset (ast.OtherStmt pos end_) = Ok (ast.OtherStmt pos end_, []))
  /\ es = map (extent_of fset) (recorded parent)
  /\ Forall (fun n => record fset n = [extent_of fset n]) (recorded parent).
Proof.
  intros Hc Hin Hv.
  pose proof (VisitStmt_recorded fset parent t es Hv) as Hes.
  assert (Hkeep : keep c = [c]) by (destruct c; try discriminate; reflexivity).
  assert (Hlist : recorded parent = recorded_list recorded (statement_list parent)).
  { destruct parent; try destruct Hin; reflexivity. }
  assert (Hall : forall n, In n (keep c ++ recorded c) -> In (extent_of fset n) es).
  { intros n Hn. subst es. apply in_map. rewrite Hlist.
    now apply (in_recorded_list _ c). }
  split; [apply Hall; rewrite Hkeep; now left|].
  split; [intros n Hn; apply Hall, in_or_app; now right|].
  split; [reflexivity|]. split; [exact Hes|].
  apply Forall_forall. intros n Hn. rewrite record_keep.
  now rewrite (recorded_kept parent n Hn).
Qed.

Lemma control_construct_recorded_whole_witness :
  In (extent_of one_line if_with_init)
     [extent_between one_line 10 33; extent_between one_line 27 30].
Proof.
  destruct (control_construct_recorded_whole one_line body_with_if if_with_init
              (ast.BlockStmt 1 [if_with_init] 40)
              [extent_between one_line 10 33; extent_between one_line 27 30])
    as [Hwhole _].
  - reflexivity.
  - simpl. now left.
  - reflexivity.
  - exact Hwhole.
Defined.

Lemma int_sub_backup (p : Z) :
  in_int (p - 5) -> int_sub p backupToElse = p - 5.
Proof. intros H. unfold int_sub, backupToElse. now apply wrap_in_int. Qed.

(** C5, as stated, fails: in [if a { x } else if b; c { y }] with [else]
    at column 20 and the second [if] at column 25, the extent recorded
    for the else-if alternate starts at column 25, and no recorded
    extent starts at column 20. *)
Lemma else_if_extent_starts_at_if :
  exists t es,
    VisitStmt one_line else_if_chain = Ok (t, es)
    /\ map startCol es = [10; 16; 25; 35]
    /\ In (extent_of one_line inner_if) es
    /\ startCol (extent_of one_line inner_if) = 25
    /\ ~ In 20 (map startCol es).
Proof.
  eexists. eexists. split; [reflexivity|]. split; [reflexivity|].
  split; [right; right; left; reflexivity|]. split; [reflexivity|].
  simpl. intros [H | [H | [H | [H | []]]]]; discriminate H.
Qed.

(** C5, amended: the visit of an [if] statement replaces an else-if
    alternate by a block that starts [len("else ")] before the nested
    [if] and holds it, and moves the left brace of a plain-block
    alternate back by the same offset; neither block is recorded: the
    extent recorded for an else-if alternate is the nested [if]
    statement's own, which starts at its [if] keyword. *)
Theorem else_block_backed_up_not_recorded (fset : token.FileSet) (if_ : Z)
  (init : option ast.Stmt) (body alt t : ast.Stmt) (es : list StmtExtent) :
  VisitStmt fset (ast.IfStmt if_ init body (Some alt)) = Ok (t, es) ->
  (exists init' body' block,
      t = ast.IfStmt if_ init' body' (Some block)
      /\ match alt with
         | ast.IfStmt stmt_if _ _ _ =>
             (exists alt',
                 block = ast.BlockStmt (int_sub stmt_if backupToElse) [alt']
                           (ast.End alt))
             /\ (in_int (stmt_if - 5) -> ast.Pos block = stmt_if - 5)
             /\ In (extent_of fset alt) es
             /\ startOffset (extent_of fset alt)
                = token.Offset (token.position fset stmt_if)
         | ast.BlockStmt lbrace _ rbrace =>
             (exists l', block = ast.BlockStmt (int_sub lbrace backupToElse) l' rbrace)
             /\ (in_int (lbrace - 5) -> ast.Pos block = lbrace - 5)
         | _ => False
         end)
  /\ es = map (extent_of fset) (recorded (ast.IfStmt if_ init body (Some alt)))
  /\ Forall (fun n => record fset n = [extent_of fset n])
            (recorded (ast.IfStmt if_ init body (Some alt))).
Proof.
  intros Hv.
  pose proof (VisitStmt_recorded fset _ t es Hv) as Hes.
  split; [|split; [exact Hes|]].
  - cbn [VisitStmt] in Hv.
    bind_inv Hv as init' e1 H1. bind_inv Hv as body' e2 H2.
    destruct alt as [lb2 l2 rb2| | | | if2 init2 body2 els2 | | | | | |];
      try discriminate.
    + bind_inv Hv as l' e3 H3. injection Hv as <- _.
      exists init', body', (ast.BlockStmt (int_sub lb2 backupToElse) l' rb2).
      split; [reflexivity|]. split; [now exists l'|].
      intros Hr. simpl. now apply int_sub_backup.
    + bind_inv Hv as l' e3 H3. injection Hv as <- _.
      cbn [visit_list] in H3. bind_inv H3 as alt' e4 H4.
      injection H3 as <- _.
      eexists init', body', _. split; [reflexivity|].
      split; [now exists alt'|].
      split; [intros Hr; simpl; now apply int_sub_backup|].
      split; [|reflexivity].
      rewrite Hes. apply in_map. cbn [recorded].
      apply in_or_app. right. apply in_or_app. right. now left.
  - apply Forall_forall. intros n Hn. rewrite record_keep.
    now rewrite (recorded_kept _ n Hn).
Qed.

Lemma else_block_backed_up_not_recorded_witness :
  exists t es,
    VisitStmt one_line (ast.IfStmt 10 None (ast.BlockStmt 15 [ast.OtherStmt 16 17] 18)
                          (Some inner_if)) = Ok (t, es)
    /\ es = map (extent_of one_line)
              (recorded (ast.IfStmt 10 None (ast.BlockStmt 15 [ast.OtherStmt 16 17] 18)
                           (Some inner_if))).
Proof.
  assert (Hrun : exists t es,
             VisitStmt one_line
               (ast.IfStmt 10 None (ast.BlockStmt 15 [ast.OtherStmt 16 17] 18)
                  (Some inner_if)) = Ok (t, es))
    by (eexists; eexists; reflexivity).
  destruct Hrun as (t & es & Hv). exists t, es. split; [exact Hv|].
  exact (proj1 (proj2 (else_block_backed_up_not_recorded one_line 10 None
                         (ast.BlockStmt 15 [ast.OtherStmt 16 17] 18) inner_if
                         t es Hv))).
Defined.

(** ** The entry point *)

Lemma error_eqb_refl (e : error) : error_eqb e e = true.
Proof.
  induction e as [text | format operands inner IH]; simpl.
  - apply String.eqb_refl.
  - rewrite String.eqb_refl, IH.
    now destruct (list_eq_dec string_dec operands operands).
Qed.

Lemma errors_Is_refl (e : error) : errors_Is e e = true.
Proof. destruct e; cbn [errors_Is]; now rewrite error_eqb_refl. Qed.

Lemma errors_Is_wrap (format : string) (operands : list string) (e target : error) :
  errors_Is e target = true -> errors_Is (wrapError format operands e) target = true.
Proof. intros H. cbn [errors_Is]. rewrite H. apply orb_true_r. Qed.

(** The three sibling stages keep the error they wrap. *)
Lemma Parse_wraps_profile_error (ext : Externals) (parser : Parser)
  (changes : list gittool.Change) (coverProfile : string) (files : list string)
  (e : error) :
  coverProfileFiles parser = coverProfile :: files ->
  ParseProfiles ext coverProfile = Err e ->
  exists err,
    snd (Parse ext parser changes) = Err err
    /\ err = wrapError "parse cover profile: %w" [] e
    /\ errors_Is err e = true.
Proof.
  intros Hfiles Hprofiles. unfold Parse. rewrite Hfiles. cbn [parse_files].
  rewrite Hprofiles. eexists. split; [reflexivity|]. split; [reflexivity|].
  apply errors_Is_wrap, errors_Is_refl.
Qed.

Lemma Parse_wraps_find_file_error (ext : Externals) (parser : Parser)
  (changes : list gittool.Change) (coverProfile : string) (files : list string)
  (p : cover.Profile) (profiles : list cover.Profile) (c : packagesCache)
  (e : error) :
  coverProfileFiles parser = coverProfile :: files ->
  ParseProfiles ext coverProfile = Ok (p :: profiles) ->
  findFile ext (cache parser) (cover.FileName p) = (c, Err e) ->
  exists err,
    snd (Parse ext parser changes) = Err err
    /\ err = wrapError "covert cover profile: %w" [] (wrapError "find file: %w" [] e)
    /\ errors_Is err e = true.
Proof.
  intros Hfiles Hprofiles Hfind. unfold Parse. rewrite Hfiles. cbn [parse_files].
  rewrite Hprofiles. cbn [convert_profiles]. unfold convertProfile. rewrite Hfind.
  eexists. split; [reflexivity|]. split; [reflexivity|].
  apply errors_Is_wrap, errors_Is_wrap, errors_Is_refl.
Qed.

Lemma Parse_wraps_find_funcs_error (ext : Externals) (parser : Parser)
  (changes : list gittool.Change) (coverProfile : string) (files : list string)
  (p : cover.Profile) (profiles : list cover.Profile) (c : packagesCache)
  (file pkgpath : string) (ip : option annotation.IgnoreProfile) (e : error) :
  coverProfileFiles parser = coverProfile :: files ->
  ParseProfiles ext coverProfile = Ok (p :: profiles) ->
  findFile ext (cache parser) (cover.FileName p) = (c, Ok (file, pkgpath)) ->
  ParseIgnoreProfiles ext file p = Ok ip ->
  findFuncs ext file = Err e ->
  exists err,
    snd (Parse ext parser changes) = Err err
    /\ err = wrapError "covert cover profile: %w" []
               (wrapError "find Functions: %w" [] e)
    /\ errors_Is err e = true.
Proof.
  intros Hfiles Hprofiles Hfind Hignore Hfuncs.
  unfold Parse. rewrite Hfiles. cbn [parse_files].
  rewrite Hprofiles. cbn [convert_profiles]. unfold convertProfile.
  rewrite Hfind, Hignore, Hfuncs.
  eexists. split; [reflexivity|]. split; [reflexivity|].
  apply errors_Is_wrap, errors_Is_wrap, errors_Is_refl.
Qed.

(** C7 fails at the annotation stage: when the annotation parser fails,
    [Parse] returns no model and an error that is the same whatever the
    annotation error was: the stage tag wraps a fresh ["parse ignore
    profile"] message, and the annotation error is not in its chain. *)
Theorem Parse_drops_annotation_error (ext : Externals) (parser : Parser)
  (changes : list gittool.Change) (coverProfile : string) (files : list string)
  (p : cover.Profile) (profiles : list cover.Profile) (c : packagesCache)
  (file pkgpath : string) (e : error) :
  coverProfileFiles parser = coverProfile :: files ->
  ParseProfiles ext coverProfile = Ok (p :: profiles) ->
  findFile ext (cache parser) (cover.FileName p) = (c, Ok (file, pkgpath)) ->
  ParseIgnoreProfiles ext file p = Err e ->
  snd (Parse ext parser changes)
  = Err (wrapError "covert cover profile: %w" [] (errorString "parse ignore profile"))
  /\ Unwrap (errorString "parse ignore profile") = None.
Proof.
  intros Hfiles Hprofiles Hfind Hignore.
  unfold Parse. rewrite Hfiles. cbn [parse_files].
  rewrite Hprofiles. cbn [convert_profiles]. unfold convertProfile.
  rewrite Hfind, Hignore. split; reflexivity.
Qed.

Lemma Parse_drops_annotation_error_witness :
  snd (Parse failing_annotations one_profile_parser [])
  = Err (wrapError "covert cover profile: %w" [] (errorString "parse ignore profile"))
  /\ errors_Is
       (wrapError "covert cover profile: %w" [] (errorString "parse ignore profile"))
       bad_annotation = false.
Proof.
  split; [|reflexivity].
  apply (Parse_drops_annotation_error failing_annotations one_profile_parser []
           "cover.out" [] annotated_profile [] 
           [("example.com/pkg"%string, build.mkPackage "/repo/pkg" "example.com/pkg")]
           "/repo/pkg/a.go" "example.com/pkg" bad_annotation);
    reflexivity.
Defined.

(** The run of three statements: the first two are reached five times
    and original, the third is not reached and changed. *)
Example Parse_three_statements :
  exists parser' f,
    Parse three_statement_run one_profile_parser
      [gittool.mkChange "pkg/f.go" [gittool.mkSection 4 4]]
    = (parser', Ok ["example.com/pkg"%string])
    /\ lookup (packages parser') "example.com/pkg"
       = Some {| Pkg.Name := "example.com/pkg"; Pkg.Functions := [f] |}
    /\ map (fun s => (Reached s, State_ s)) (Func.Statements f)
       = [(5, Original); (5, Original); (0, Changed)].
Proof. eexists. eexists. split; [reflexivity|]. split; reflexivity. Qed.

(** The same cover profile file given twice: the aggregate holds the
    pointer to the package twice, and through either the package shows
    the functions of both rounds. *)
Example Parse_same_file_twice :
  exists parser' f,
    Parse three_statement_run (NewParser ["cover.out"; "cover.out"]%string) []
    = (parser', Ok ["example.com/pkg"; "example.com/pkg"]%string)
    /\ lookup (packages parser') "example.com/pkg"
       = Some {| Pkg.Name := "example.com/pkg"; Pkg.Functions := [f; f] |}.
Proof. eexists. eexists. split; reflexivity. Qed.

(* ================================================================== *)
(** * Part IV: further properties of the code *)
(* ================================================================== *)

(** ** The block-statement reconciler *)

Lemma touched_refl (s : statement) : touched s s.
Proof. unfold touched. tauto. Qed.

Lemma touched_hit (ip : annotation.IgnoreProfile) (s : statement)
  (b : cover.ProfileBlock) : touched s (hit ip s b).
Proof.
  unfold touched, hit. destruct (annotation.has_block ip b); simpl; tauto.
Qed.

Lemma touched_ignored (s : statement) : touched s (ignored s).
Proof. unfold touched, ignored. simpl. tauto. Qed.

(** What one scan can return, whatever the order of the blocks. *)
Lemma scan_Ok (ip : option annotation.IgnoreProfile) (s s' : statement)
  (bs : list cover.ProfileBlock) (moved : option (list cover.ProfileBlock)) :
  scan ip s bs = Ok (s', moved) ->
  (exists front b back p,
      bs = front ++ b :: back /\ Forall (skipped s) front
      /\ overlaps b (StmtExtent_ s) = true
      /\ ip = Some p /\ s' = hit p s b /\ moved = None)
  \/ (s' = s
      /\ match moved with
         | None => Forall (skipped s) bs
         | Some bs' =>
             exists front b back,
               bs = front ++ bs' /\ bs' = b :: back
               /\ Forall (skipped s) front
               /\ past_end b (StmtExtent_ s) = true
         end).
Proof.
  induction bs as [|b rest IH]; simpl; intros H.
  - injection H as <- <-. right. split; [reflexivity|constructor].
  - destruct (past_end b (StmtExtent_ s)) eqn:Epast.
    + injection H as <- <-. right. split; [reflexivity|].
      exists [], b, rest. repeat split; auto.
    + destruct (before_start b (StmtExtent_ s)) eqn:Ebefore.
      * destruct (IH H) as [(front & b' & back & p & -> & Hfront & Hover & Hip & Hs & Hm)
                           | (Hs & Hm)].
        -- left. exists (b :: front), b', back, p.
           repeat split; auto. constructor; [split; assumption|exact Hfront].
        -- right. split; [exact Hs|].
           destruct moved as [bs'|].
           ++ destruct Hm as (front & b' & back & -> & Hbs' & Hfront & Hpast).
              exists (b :: front), b', back. repeat split; auto.
              constructor; [split; assumption|exact Hfront].
           ++ constructor; [split; assumption|exact Hm].
      * left. destruct ip as [p|]; [|discriminate].
        exists [], b, rest, p.
        assert (Hover : overlaps b (StmtExtent_ s) = true)
          by (unfold overlaps; now rewrite Epast, Ebefore).
        unfold hit.
        destruct (annotation.has_block p b); injection H as <- <-;
          repeat split; auto.
Qed.

Lemma skipped_not_overlaps (s : statement) (d : cover.ProfileBlock) :
  skipped s d -> overlaps d (StmtExtent_ s) = false.
Proof. intros [_ H]. unfold overlaps. rewrite H. apply andb_false_r. Qed.

(** X1: whatever the ignore profile and the blocks are, a loop that
    returns leaves one statement for every statement given, in order,
    with its extent, lines, offsets and state as they were; only
    [Reached] and [Mode] change, and [Mode] never goes back from
    [Ignore] to [Keep]. *)
Theorem reconcile_touches_reached_and_mode
  (ip : option annotation.IgnoreProfile) (ss res : list statement) :
  forall blocks,
    reconcile ip blocks ss = Ok res -> Forall2 touched ss res.
Proof.
  revert res. induction ss as [|s rest IH]; intros res blocks H; cbn [reconcile] in H.
  - injection H as <-. constructor.
  - destruct (file_ignored ip).
    + apply bind_Ok in H. destruct H as (rest' & Hrest & H). injection H as <-.
      constructor; [apply touched_ignored|exact (IH _ _ Hrest)].
    + apply bind_Ok in H. destruct H as ([s' moved] & Hscan & H).
      apply bind_Ok in H. destruct H as (rest' & Hrest & H). injection H as <-.
      constructor; [|exact (IH _ _ Hrest)].
      apply scan_Ok in Hscan.
      destruct Hscan as [(front & b & back & p & _ & _ & _ & _ & -> & _) | (-> & _)].
      * apply touched_hit.
      * apply touched_refl.
Qed.

Lemma reconcile_touches_reached_and_mode_witness :
  exists res,
    reconcile (Some ignore_body) [header_block; body_block] [if_statement] = Ok res
    /\ Forall2 touched [if_statement] res.
Proof.
  eexists. split; [reflexivity|].
  apply (reconcile_touches_reached_and_mode (Some ignore_body) [if_statement] _
           [header_block; body_block]).
  reflexivity.
Defined.

(** X2: in a file that is not ignored as a whole, whatever the order of
    blocks and statements, a statement is left as it was or credited
    with exactly one block, and that block is in the profile and
    overlaps the statement: no statement is credited with a block that
    does not overlap it. *)
Theorem reconcile_credits_overlapping_block
  (ip : option annotation.IgnoreProfile) (blocks : list cover.ProfileBlock)
  (ss res : list statement) :
  file_ignored ip = false ->
  reconcile ip blocks ss = Ok res ->
  Forall2 (credited ip blocks) ss res.
Proof.
  intros Hfile.
  assert (Hgen : forall ss res cur,
             (forall b, In b cur -> In b blocks) ->
             reconcile ip cur ss = Ok res -> Forall2 (credited ip blocks) ss res).
  { clear ss res. induction ss as [|s rest IH]; intros res cur Hcur H;
      cbn [reconcile] in H.
    - injection H as <-. constructor.
    - rewrite Hfile in H.
      apply bind_Ok in H. destruct H as ([s' moved] & Hscan & H).
      apply bind_Ok in H. destruct H as (rest' & Hrest & H). injection H as <-.
      apply scan_Ok in Hscan. constructor.
      + destruct Hscan as [(front & b & back & p & -> & _ & Hover & -> & -> & _)
                          | (-> & _)].
        * right. exists b, p. repeat split; auto.
          apply Hcur, in_or_app. right. now left.
        * now left.
      + refine (IH _ _ _ Hrest).
        destruct Hscan as [(_ & _ & _ & _ & _ & _ & _ & _ & _ & ->) | (_ & Hm)];
          [exact Hcur|].
        destruct moved as [bs'|]; [|exact Hcur].
        destruct Hm as (front & b & back & -> & _).
        intros d Hd. apply Hcur, in_or_app. now right. }
  intros H. apply (Hgen ss res blocks); auto.
Qed.

Lemma reconcile_credits_overlapping_block_witness :
  exists res,
    reconcile (Some no_ignore) [early_block; header_block] [late_statement; if_statement]
    = Ok res
    /\ Forall2 (credited (Some no_ignore) [early_block; header_block])
               [late_statement; if_statement] res.
Proof.
  eexists. split; [reflexivity|].
  apply (reconcile_credits_overlapping_block (Some no_ignore)
           [early_block; header_block] [late_statement; if_statement]);
    reflexivity.
Defined.




Lemma Mode_hit (ip : annotation.IgnoreProfile) (s : statement)
  (b : cover.ProfileBlock) :
  Mode_ (Statement_ (hit ip s b)) = Ignore
  <-> Mode_ (Statement_ s) = Ignore \/ annotation.has_block ip b = true.
Proof.
  unfold hit. destruct (annotation.has_block ip b); simpl.
  - split; auto.
  - split; [auto|]. intros [H | H]; [exact H|discriminate].
Qed.

(** X4: on sorted blocks and statements of a file that is not ignored
    as a whole, a statement ends with [Mode = Ignore] exactly when it
    had it or the first block that overlaps it is in [IgnoreBlocks]; an
    ignored block that overlaps the statement after another one does
    not ignore it. *)
Theorem block_ignore_by_first_overlap (ip : annotation.IgnoreProfile)
  (blocks : list cover.ProfileBlock) (ss : list statement) :
  annotation.Type_ ip <> annotation.FILE_IGNORE ->
  StronglySorted block_start_le blocks ->
  StronglySorted stmt_start_le ss ->
  exists res,
    reconcile (Some ip) blocks ss = Ok res
    /\ Forall2 (fun s s' =>
                  Mode_ (Statement_ s') = Ignore
                  <-> Mode_ (Statement_ s) = Ignore
                      \/ exists b, first_overlap blocks (StmtExtent_ s) = Some b
                                   /\ annotation.has_block ip b = true)
               ss res.
Proof.
  intros Htype Hblocks Hss.
  assert (Hfile : file_ignored (Some ip) = false).
  { destruct (file_ignored (Some ip)) eqn:E; [|reflexivity].
    apply file_ignored_Some in E. contradiction. }
  rewrite (reconcile_sorted (Some ip) blocks Hfile Hblocks ss [] blocks eq_refl Hss);
    [|constructor].
  rewrite each_settled_some. eexists. split; [reflexivity|].
  clear Hss. induction ss as [|s rest IH]; simpl; constructor; [|exact IH].
  destruct (first_overlap blocks (StmtExtent_ s)) as [b|].
  - rewrite Mode_hit. split.
    + intros [H | H]; [now left|right; now exists b].
    + intros [H | (b' & [= <-] & H)]; [now left|now right].
  - split; [now left|]. intros [H | (b' & H' & _)]; [exact H|discriminate].
Qed.

Lemma block_ignore_by_first_overlap_witness :
  exists res,
    reconcile (Some ignore_body) [header_block; body_block] [if_statement] = Ok res
    /\ Forall (fun s => Mode_ (Statement_ s) = Keep) res.
Proof.
  destruct (block_ignore_by_first_overlap ignore_body
              [header_block; body_block] [if_statement])
    as (res & Hres & Hmode).
  - discriminate.
  - sorted_by_start.
  - sorted_by_start.
  - exists res. split; [exact Hres|].
    inversion Hmode as [|s s' l l' Hiff Hrest]; subst.
    inversion Hrest; subst. constructor; [|constructor].
    destruct (Mode_ (Statement_ s')) eqn:E; [reflexivity|].
    exfalso. destruct (proj1 Hiff eq_refl) as [H | (b & Hb & Hin)].
    + discriminate H.
    + vm_compute in Hb. injection Hb as <-. vm_compute in Hin. discriminate Hin.
Defined.

(** ** The structural extent extractor *)

Lemma verdict_Ok {A : Type} (a : A) : verdict True (Ok a).
Proof. left. split; [exact I|now exists a]. Qed.

Lemma verdict_iff {A : Type} (good good' : Prop) (m : outcome A) :
  (good <-> good') -> verdict good m -> verdict good' m.
Proof. unfold verdict. intros Hiff [[H1 H2] | [H1 H2]]; [left|right]; tauto. Qed.

Lemma verdict_bind {A B : Type} (good1 good2 : Prop) (m : outcome A)
  (k : A -> outcome B) :
  verdict good1 m ->
  (forall a, m = Ok a -> verdict good2 (k a)) ->
  verdict (good1 /\ good2) (bind m k).
Proof.
  intros [[H1 (a & ->)] | [H1 ->]] Hk; simpl.
  - destruct (Hk a eq_refl) as [[H2 Hr] | [H2 Hr]]; [left|right]; tauto.
  - right. tauto.
Qed.

Section Verdict.

Variable fset : token.FileSet.

Let judged (s : ast.Stmt) : Prop := verdict (parsed s) (VisitStmt fset s).

Lemma visit_list_verdict (l : list ast.Stmt) :
  all judged l ->
  verdict (all parsed l) (visit_list (record fset) (VisitStmt fset) l).
Proof.
  induction l as [|x rest IH]; intros Hall; cbn [visit_list all].
  - apply verdict_Ok.
  - destruct Hall as [Hx Hrest].
    apply verdict_bind; [exact Hx|]. intros [x' e1] _.
    apply (verdict_iff (all parsed rest /\ True)); [tauto|].
    apply verdict_bind; [exact (IH Hrest)|]. intros [rest' e2] _.
    apply verdict_Ok.
Qed.

Lemma visit_option_verdict (o : option ast.Stmt) :
  all_opt judged o ->
  verdict (all_opt parsed o) (visit_option (VisitStmt fset) o).
Proof.
  destruct o as [x|]; simpl; intros Hx.
  - apply (verdict_iff (parsed x /\ True)); [tauto|].
    apply verdict_bind; [exact Hx|]. intros [x' e1] _. apply verdict_Ok.
  - apply verdict_Ok.
Qed.

Lemma VisitStmt_verdict (s : ast.Stmt) : verdict (parsed s) (VisitStmt fset s).
Proof.
  induction s as [lbrace l rbrace Hl | case colon body Hbody
                 | case colon body Hbody
                 | for_ init post body Hinit Hpost IHbody
                 | if_ init body els Hinit IHbody Hels
                 | label st IHst | for_ body IHbody | select body IHbody
                 | switch init body Hinit IHbody
                 | switch init assign body Hinit IHassign IHbody
                 | pos end_] using Stmt_induction;
    cbn [VisitStmt parsed].
  - apply (verdict_iff (all parsed l /\ True)); [tauto|].
    apply verdict_bind; [exact (visit_list_verdict l Hl)|].
    intros [l' es] _. apply verdict_Ok.
  - apply (verdict_iff (all parsed body /\ True)); [tauto|].
    apply verdict_bind; [exact (visit_list_verdict body Hbody)|].
    intros [l' es] _. apply verdict_Ok.
  - apply (verdict_iff (all parsed body /\ True)); [tauto|].
    apply verdict_bind; [exact (visit_list_verdict body Hbody)|].
    intros [l' es] _. apply verdict_Ok.
  - apply (verdict_iff (all_opt parsed init
                        /\ all_opt parsed post /\ parsed body /\ True)); [tauto|].
    apply verdict_bind; [exact (visit_option_verdict init Hinit)|].
    intros [init' e1] _.
    apply verdict_bind; [exact (visit_option_verdict post Hpost)|].
    intros [post' e2] _.
    apply verdict_bind; [exact IHbody|]. intros [body' e3] _. apply verdict_Ok.
  - apply verdict_bind; [exact (visit_option_verdict init Hinit)|].
    intros [init' e1] _.
    apply verdict_bind; [exact IHbody|]. intros [body' e2] _.
    destruct els as [stmt|]; [|apply verdict_Ok].
    destruct stmt as [lb2 l2 rb2| | | | if2 init2 body2 els2 | | | | | |];
      try (right; simpl; split; [tauto|reflexivity]).
    + apply (verdict_iff (parsed (ast.BlockStmt lb2 l2 rb2) /\ True));
        [simpl; tauto|].
      simpl in Hels. unfold judged in Hels. cbn [VisitStmt] in Hels.
      destruct (visit_list (record fset) (VisitStmt fset) l2) as [[l' e3] | | |];
        cbn [bind] in *.
      * apply (verdict_iff (parsed (ast.BlockStmt lb2 l2 rb2))); [tauto|].
        destruct Hels as [[H1 _] | [_ H2]]; [|discriminate].
        left. split; [exact H1|eauto].
      * destruct Hels as [[_ (r & Hr)] | [_ H2]]; discriminate.
      * destruct Hels as [[_ (r & Hr)] | [H1 H2]]; [discriminate|].
        right. split; [tauto|exact H2].
      * destruct Hels as [[_ (r & Hr)] | [_ H2]]; discriminate.
    + apply (verdict_iff (all parsed [ast.IfStmt if2 init2 body2 els2] /\ True));
        [simpl; tauto|].
      apply verdict_bind;
        [exact (visit_list_verdict [ast.IfStmt if2 init2 body2 els2] (conj Hels I))|].
      intros [l' e3] _. apply verdict_Ok.
  - apply (verdict_iff (parsed st /\ True)); [tauto|].
    apply verdict_bind; [exact IHst|]. intros [st' es] _. apply verdict_Ok.
  - apply (verdict_iff (parsed body /\ True)); [tauto|].
    apply verdict_bind; [exact IHbody|]. intros [st' es] _. apply verdict_Ok.
  - apply (verdict_iff (parsed body /\ True)); [tauto|].
    apply verdict_bind; [exact IHbody|]. intros [st' es] _. apply verdict_Ok.
  - apply (verdict_iff (all_opt parsed init /\ parsed body /\ True)); [tauto|].
    apply verdict_bind; [exact (visit_option_verdict init Hinit)|].
    intros [init' e1] _.
    apply verdict_bind; [exact IHbody|]. intros [body' e2] _. apply verdict_Ok.
  - apply (verdict_iff (all_opt parsed init
                        /\ parsed assign /\ parsed body /\ True)); [tauto|].
    apply verdict_bind; [exact (visit_option_verdict init Hinit)|].
    intros [init' e1] _.
    apply verdict_bind; [exact IHassign|]. intros [assign' e2] _.
    apply verdict_bind; [exact IHbody|]. intros [body' e3] _. apply verdict_Ok.
  - apply verdict_Ok.
Qed.

End Verdict.

(** X5: [VisitStmt] returns exactly on the trees in which the [Else] of
    every [if] statement, when not nil, is an [if] statement or a block;
    on every other tree it ends in the panic ["unexpected node type in
    if"], however deep the offending [if] statement is, and it ends in
    no other way. *)
Theorem VisitStmt_returns_iff_parsed (fset : token.FileSet) (s : ast.Stmt) :
  ((exists t es, VisitStmt fset s = Ok (t, es)) <-> parsed s)
  /\ (VisitStmt fset s = Panic "unexpected node type in if" <-> ~ parsed s)
  /\ ((exists t es, VisitStmt fset s = Ok (t, es))
      \/ VisitStmt fset s = Panic "unexpected node type in if").
Proof.
  destruct (VisitStmt_verdict fset s) as [[H1 ([t es] & Hr)] | [H1 Hr]].
  - split; [split; [auto|intros _; now exists t, es]|].
    split; [|left; now exists t, es].
    rewrite Hr. split; [discriminate|tauto].
  - split; [split; [|tauto]|].
    + intros (t & es & H). rewrite Hr in H. discriminate.
    + split; [tauto|now right].
Qed.

(** The offending [if] statement sits in the body of a loop. *)
Example VisitStmt_panics_in_loop :
  VisitStmt one_line loop_with_bad_else = Panic "unexpected node type in if".
Proof. reflexivity. Qed.

Lemma all_of (P : ast.Stmt -> Prop) (l : list ast.Stmt) :
  (forall s, P s) -> all P l.
Proof. intros H. induction l; simpl; auto. Qed.

Lemma all_opt_of (P : ast.Stmt -> Prop) (o : option ast.Stmt) :
  (forall s, P s) -> all_opt P o.
Proof. intros H. destruct o; simpl; auto. Qed.

Lemma inside_weaken (a b a' b' : Z) (l : list ast.Stmt) :
  a' <= a -> b <= b' -> Forall (inside a b) l -> Forall (inside a' b') l.
Proof.
  intros Ha Hb H. eapply Forall_impl; [|exact H].
  unfold inside. intros n Hn. lia.
Qed.

Lemma keep_cases (x : ast.Stmt) : keep x = [] \/ keep x = [x].
Proof. destruct x; simpl; auto. Qed.

Section Inside.

Let enclosed (s : ast.Stmt) : Prop :=
  forall lo hi, 0 < lo -> hi <= int_max -> placed lo hi s ->
                Forall (inside (ast.Pos s) (ast.End s)) (recorded s).

Lemma recorded_list_inside (l : list ast.Stmt) :
  all enclosed l ->
  forall lo hi d,
    0 < lo -> hi <= int_max -> lo <= d -> d <= hi ->
    placed_list placed lo hi l ->
    Forall (inside lo (ast.last_End ast.End l d)) (recorded_list recorded l).
Proof.
  induction l as [|x rest IH]; intros Hall lo hi d Hlo Hhi Hd Hd' Hpl.
  - constructor.
  - destruct Hall as [Hx Hrest]. destruct Hpl as (Hpx & Hwide & Hprest).
    destruct (placed_spans x lo hi Hlo Hhi Hpx) as (H1 & H2 & H3 & _).
    destruct (placed_list_spans rest (all_of _ rest placed_spans)
                (ast.End x) hi (ast.End x)) as (E1 & E2 & _);
      [lia | lia | lia | lia | exact Hprest |].
    assert (He : ast.last_End ast.End (x :: rest) d
                 = ast.last_End ast.End rest (ast.End x)).
    { destruct rest as [|y rest']; [reflexivity|].
      cbn [ast.last_End]. apply (last_End_nonempty y rest'). }
    rewrite He. cbn [recorded_list].
    apply Forall_app. split; [|apply Forall_app; split].
    + destruct (keep_cases x) as [-> | ->]; constructor; [|constructor].
      unfold inside. lia.
    + apply (inside_weaken (ast.Pos x) (ast.End x)); [lia | lia |].
      exact (Hx lo hi Hlo Hhi Hpx).
    + apply (inside_weaken (ast.End x) (ast.last_End ast.End rest (ast.End x)));
        [lia | lia |].
      apply (IH Hrest (ast.End x) hi (ast.End x)); auto; lia.
Qed.

Lemma recorded_opt_inside (o : option ast.Stmt) :
  all_opt enclosed o ->
  forall lo hi,
    0 < lo -> hi <= int_max -> lo <= hi ->
    placed_opt placed lo hi o ->
    Forall (inside lo (after_opt lo o)) (recorded_opt recorded o).
Proof.
  destruct o as [x|]; simpl; intros Hx lo hi Hlo Hhi Hle Hpl; [|constructor].
  destruct (placed_spans x lo hi Hlo Hhi Hpl) as (H1 & H2 & H3 & _).
  apply (inside_weaken (ast.Pos x) (ast.End x)); [lia | lia |].
  exact (Hx lo hi Hlo Hhi Hpl).
Qed.

Lemma recorded_inside (s : ast.Stmt) :
  forall lo hi, 0 < lo -> hi <= int_max -> placed lo hi s ->
                Forall (inside (ast.Pos s) (ast.End s)) (recorded s).
Proof.
  induction s as [lbrace l rbrace Hl | case colon body Hbody
                 | case colon body Hbody
                 | for_ init post body Hinit Hpost IHbody
                 | if_ init body els Hinit IHbody Hels
                 | label st IHst | for_ body IHbody | select body IHbody
                 | switch init body Hinit IHbody
                 | switch init assign body Hinit IHassign IHbody
                 | pos end_] using Stmt_induction;
    intros lo hi Hlo Hhi Hpl; cbn [placed] in Hpl.
  - destruct Hpl as (H1 & H2 & H3 & Hlist).
    rewrite End_BlockStmt by lia. cbn [ast.Pos recorded].
    destruct (placed_list_spans l (all_of _ l placed_spans)
                (lbrace + 1) rbrace (lbrace + 1)) as (E1 & E2 & _);
      try lia; [exact Hlist|].
    apply (inside_weaken (lbrace + 1) (ast.last_End ast.End l (lbrace + 1)));
      [lia | lia |].
    apply (recorded_list_inside l Hl (lbrace + 1) rbrace); auto; lia.
  - destruct Hpl as (H1 & H2 & H3 & Hlist).
    cbn [ast.Pos ast.End recorded]. rewrite int_add_1 by lia.
    apply (inside_weaken (colon + 1) (ast.last_End ast.End body (colon + 1)));
      [lia | lia |].
    apply (recorded_list_inside body Hbody (colon + 1) hi); auto; lia.
  - destruct Hpl as (H1 & H2 & H3 & Hlist).
    cbn [ast.Pos ast.End recorded]. rewrite int_add_1 by lia.
    apply (inside_weaken (colon + 1) (ast.last_End ast.End body (colon + 1)));
      [lia | lia |].
    apply (recorded_list_inside body Hbody (colon + 1) hi); auto; lia.
  - destruct Hpl as (H1 & Pinit & Ppost & Pbody).
    destruct (placed_spans body (for_ + 1) hi) as (B1 & B2 & B3 & _);
      [lia | lia | exact Pbody |].
    destruct (placed_opt_spans init (all_opt_of _ init placed_spans)
                (for_ + 1) (ast.Pos body)) as (I1 & I2 & _);
      [lia | lia | lia | exact Pinit |].
    destruct (placed_opt_spans post (all_opt_of _ post placed_spans)
                (after_opt (for_ + 1) init) (ast.Pos body)) as (Q1 & Q2 & _);
      [lia | lia | lia | exact Ppost |].
    cbn [ast.Pos ast.End recorded].
    apply Forall_app. split; [|apply Forall_app; split].
    + apply (inside_weaken (for_ + 1) (after_opt (for_ + 1) init)); [lia | lia |].
      apply (recorded_opt_inside init Hinit (for_ + 1) (ast.Pos body)); auto; lia.
    + apply (inside_weaken (after_opt (for_ + 1) init)
               (after_opt (after_opt (for_ + 1) init) post)); [lia | lia |].
      apply (recorded_opt_inside post Hpost _ (ast.Pos body)); auto; lia.
    + apply (inside_weaken (ast.Pos body) (ast.End body)); [lia | lia |].
      apply (IHbody (for_ + 1) hi); auto; lia.
  - destruct Hpl as (H1 & Pinit & Pbody & Pels).
    destruct (placed_spans body (if_ + 1) hi) as (B1 & B2 & B3 & _);
      [lia | lia | exact Pbody |].
    destruct (placed_opt_spans init (all_opt_of _ init placed_spans)
                (if_ + 1) (ast.Pos body)) as (I1 & I2 & _);
      [lia | lia | lia | exact Pinit |].
    assert (Hinit' : forall b, ast.End body <= b ->
                Forall (inside if_ b) (recorded_opt recorded init)).
    { intros b Hb.
      apply (inside_weaken (if_ + 1) (after_opt (if_ + 1) init)); [lia | lia |].
      apply (recorded_opt_inside init Hinit (if_ + 1) (ast.Pos body)); auto; lia. }
    assert (Hbody' : forall b, ast.End body <= b ->
                Forall (inside if_ b) (recorded body)).
    { intros b Hb.
      apply (inside_weaken (ast.Pos body) (ast.End body)); [lia | lia |].
      apply (IHbody (if_ + 1) hi); auto; lia. }
    cbn [ast.Pos ast.End recorded].
    destruct els as [stmt|].
    + destruct (placed_spans stmt (ast.End body) hi)
        as (E1 & E2 & E3 & Estrict & _); [lia | lia | exact Pels |].
      apply Forall_app. split; [apply Hinit'; lia|].
      apply Forall_app. split; [apply Hbody'; lia|].
      assert (Hrec : Forall (inside if_ (ast.End stmt)) (recorded stmt)).
      { apply (inside_weaken (ast.Pos stmt) (ast.End stmt)); [lia | lia |].
        apply (Hels (ast.End body) hi); auto; lia. }
      destruct stmt as [lb2 l2 rb2| | | | if2 init2 body2 els2 | | | | | |];
        try constructor.
      * exact Hrec.
      * unfold inside. specialize (Estrict I). lia.
      * rewrite app_nil_r. exact Hrec.
    + rewrite app_nil_r.
      apply Forall_app. split; [apply Hinit'; lia|apply Hbody'; lia].
  - destruct Hpl as (H1 & Pst).
    destruct (placed_spans st (label + 1) hi) as (B1 & B2 & B3 & _);
      [lia | lia | exact Pst |].
    cbn [ast.Pos ast.End recorded].
    apply (inside_weaken (ast.Pos st) (ast.End st)); [lia | lia |].
    apply (IHst (label + 1) hi); auto; lia.
  - destruct Hpl as (H1 & Pbody).
    destruct (placed_spans body (for_ + 1) hi) as (B1 & B2 & B3 & _);
      [lia | lia | exact Pbody |].
    cbn [ast.Pos ast.End recorded].
    apply (inside_weaken (ast.Pos body) (ast.End body)); [lia | lia |].
    apply (IHbody (for_ + 1) hi); auto; lia.
  - destruct Hpl as (H1 & Pbody).
    destruct (placed_spans body (select + 1) hi) as (B1 & B2 & B3 & _);
      [lia | lia | exact Pbody |].
    cbn [ast.Pos ast.End recorded].
    apply (inside_weaken (ast.Pos body) (ast.End body)); [lia | lia |].
    apply (IHbody (select + 1) hi); auto; lia.
  - destruct Hpl as (H1 & Pinit & Pbody).
    destruct (placed_spans body (switch + 1) hi) as (B1 & B2 & B3 & _);
      [lia | lia | exact Pbody |].
    destruct (placed_opt_spans init (all_opt_of _ init placed_spans)
                (switch + 1) (ast.Pos body)) as (I1 & I2 & _);
      [lia | lia | lia | exact Pinit |].
    cbn [ast.Pos ast.End recorded].
    apply Forall_app. split.
    + apply (inside_weaken (switch + 1) (after_opt (switch + 1) init)); [lia | lia |].
      apply (recorded_opt_inside init Hinit (switch + 1) (ast.Pos body)); auto; lia.
    + apply (inside_weaken (ast.Pos body) (ast.End body)); [lia | lia |].
      apply (IHbody (switch + 1) hi); auto; lia.
  - destruct Hpl as (H1 & Pinit & Passign & Pbody).
    destruct (placed_spans body (switch + 1) hi) as (B1 & B2 & B3 & _);
      [lia | lia | exact Pbody |].
    destruct (placed_opt_spans init (all_opt_of _ init placed_spans)
                (switch + 1) (ast.Pos body)) as (I1 & I2 & _);
      [lia | lia | lia | exact Pinit |].
    destruct (placed_spans assign (after_opt (switch + 1) init) (ast.Pos body))
      as (A1 & A2 & A3 & _); [lia | lia | exact Passign |].
    cbn [ast.Pos ast.End recorded].
    apply Forall_app. split; [|apply Forall_app; split].
    + apply (inside_weaken (switch + 1) (after_opt (switch + 1) init)); [lia | lia |].
      apply (recorded_opt_inside init Hinit (switch + 1) (ast.Pos body)); auto; lia.
    + apply (inside_weaken (ast.Pos assign) (ast.End assign)); [lia | lia |].
      apply (IHassign (after_opt (switch + 1) init) (ast.Pos body)); auto; lia.
    + apply (inside_weaken (ast.Pos body) (ast.End body)); [lia | lia |].
      apply (IHbody (switch + 1) hi); auto; lia.
  - constructor.
Qed.

End Inside.

(** X6: for a function-like node whose body is in source order in a
    file of the file set, every statement extent of the function lies
    within the function's own extent, by offsets, and is not empty. *)
Theorem statements_inside_function (fset : token.FileSet) (base size : Z)
  (node : ast.Node) (body : ast.Stmt) (funcs funcs' : list FuncExtent) :
  0 < base -> base + size <= int_max ->
  file_at fset base size ->
  node_body node = Some body ->
  base <= node_pos node <= ast.Pos body ->
  placed base (base + size) body ->
  Visit fset funcs node = Ok funcs' ->
  exists fe,
    funcs' = funcs ++ [fe]
    /\ Forall (within_extent (fe_extent fe)) (stmts fe).
Proof.
  intros Hbase Hsize Hfile Hbody Hpos Hplaced Hvisit.
  destruct (placed_spans body base (base + size) Hbase Hsize Hplaced)
    as (S1 & S2 & S3 & _).
  pose proof (recorded_inside body base (base + size) Hbase Hsize Hplaced) as Hin.
  unfold Visit in Hvisit.
  apply bind_Ok in Hvisit. destruct Hvisit as ([[body' pos] nm] & Hnode & Hvisit).
  assert (body' = Some body /\ pos = node_pos node) as [-> ->].
  { destruct node as [p b | recv nm0 p b]; simpl in Hbody, Hnode |- *.
    - injection Hnode as <- <- _. auto.
    - apply bind_Ok in Hnode. destruct Hnode as (nm' & _ & Hnode).
      injection Hnode as <- <- _. auto. }
  apply bind_Ok in Hvisit. destruct Hvisit as ([t es] & Hv & Hvisit).
  injection Hvisit as <-.
  eexists. split; [reflexivity|]. simpl.
  rewrite (VisitStmt_recorded fset body t es Hv).
  apply Forall_forall. intros e He. apply in_map_iff in He.
  destruct He as (n & <- & Hn).
  rewrite Forall_forall in Hin. destruct (Hin n Hn) as (N1 & N2 & N3).
  unfold within_extent, extent_of, extent_between. simpl.
  rewrite !Hfile by lia. lia.
Qed.

Lemma statements_inside_function_witness :
  exists funcs' fe,
    Visit one_line [] chain_function = Ok funcs'
    /\ funcs' = [] ++ [fe]
    /\ Forall (within_extent (fe_extent fe)) (stmts fe).
Proof.
  assert (Hrun : exists funcs', Visit one_line [] chain_function = Ok funcs')
    by (eexists; reflexivity).
  destruct Hrun as (funcs' & Hrun).
  destruct (statements_inside_function one_line 1 60 chain_function else_if_chain
              [] funcs') as (fe & Hfe & Hin).
  - lia.
  - unfold int_max. lia.
  - intros p _. reflexivity.
  - reflexivity.
  - simpl. lia.
  - vm_compute. intuition discriminate.
  - exact Hrun.
  - exists funcs', fe. auto.
Defined.

Lemma Visit_alone (fset : token.FileSet) (funcs funcs' : list FuncExtent)
  (node : ast.Node) :
  Visit fset funcs node = Ok funcs' ->
  if has_body node
  then exists fe, funcs' = funcs ++ [fe] /\ Visit fset [] node = Ok [fe]
  else funcs' = funcs.
Proof.
  unfold Visit, has_body. intros H.
  apply bind_Ok in H. destruct H as ([[body pos] nm] & Hnode & H).
  rewrite Hnode. cbn [bind].
  assert (node_body node = body) as ->.
  { destruct node as [p b | recv nm0 p b]; simpl in *.
    - now injection Hnode as <- _ _.
    - apply bind_Ok in Hnode. destruct Hnode as (nm' & _ & Hnode).
      now injection Hnode as <- _ _. }
  destruct body as [body|]; [|now injection H as <-].
  apply bind_Ok in H. destruct H as ([t es] & Hv & H). injection H as <-.
  rewrite Hv. cbn [bind]. eexists. split; reflexivity.
Qed.

Lemma Visit_not_Err (fset : token.FileSet) (funcs : list FuncExtent)
  (node : ast.Node) (e : error) :
  Visit fset funcs node <> Err e.
Proof.
  unfold Visit.
  destruct node as [p b | recv nm0 p b].
  - cbn [bind]. destruct b as [b|]; [|discriminate].
    destruct (VisitStmt_verdict fset b) as [[_ ([t es] & ->)] | [_ ->]];
      discriminate.
  - destruct recv as [[|t ts]|]; cbn [functionName bind]; try discriminate;
      (destruct b as [b|]; [|discriminate];
       destruct (VisitStmt_verdict fset b) as [[_ ([t' es] & ->)] | [_ ->]];
       discriminate).
Qed.

Lemma Walk_not_Err (fset : token.FileSet) (nodes : list ast.Node) :
  forall funcs e, Walk fset funcs nodes <> Err e.
Proof.
  induction nodes as [|node rest IH]; intros funcs e; cbn [Walk]; [discriminate|].
  destruct (Visit fset funcs node) as [funcs' | e' | msg |] eqn:E; cbn [bind];
    try discriminate.
  - apply IH.
  - exfalso. exact (Visit_not_Err _ _ _ _ E).
Qed.

Lemma Walk_extents (fset : token.FileSet) (nodes : list ast.Node) :
  forall funcs funcs',
    Walk fset funcs nodes = Ok funcs' ->
    exists new,
      funcs' = funcs ++ new
      /\ Forall2 (fun node fe => Visit fset [] node = Ok [fe])
                 (filter has_body nodes) new.
Proof.
  induction nodes as [|node rest IH]; intros funcs funcs' H; cbn [Walk] in H.
  - injection H as <-. exists []. split; [now rewrite app_nil_r|constructor].
  - apply bind_Ok in H. destruct H as (mid & Hvisit & H).
    destruct (IH _ _ H) as (new & -> & Hnew).
    apply Visit_alone in Hvisit. cbn [filter].
    destruct (has_body node).
    + destruct Hvisit as (fe & -> & Hfe).
      exists (fe :: new). split; [now rewrite <- app_assoc|].
      now constructor.
    + subst mid. now exists new.
Qed.

(** X7: [findFuncs] fails exactly when the source parser fails, with the
    parser's error unchanged; when it returns, it has one function
    extent for every function declaration and literal that has a body,
    in the order of the walk, each computed from its own node alone: a
    closure is an entry of its own, and a declaration without a body
    adds none. *)
Theorem findFuncs_one_extent_per_body (ext : Externals) (nm : string) :
  (forall e, findFuncs ext nm = Err e <-> ParseFile ext nm = Err e)
  /\ forall extents,
       findFuncs ext nm = Ok extents ->
       exists fset parsedFile,
         ParseFile ext nm = Ok (fset, parsedFile)
         /\ Forall2 (fun node fe => Visit fset [] node = Ok [fe])
                    (filter has_body (ast.funcNodes parsedFile)) extents
         /\ List.length extents
            = List.length (filter has_body (ast.funcNodes parsedFile)).
Proof.
  unfold findFuncs. split.
  - intros e. destruct (ParseFile ext nm) as [[fset f] | e' | msg |]; cbn [bind].
    + split; [|discriminate]. intros H. exfalso. exact (Walk_not_Err _ _ _ _ H).
    + split; intros [= ->]; reflexivity.
    + split; discriminate.
    + split; discriminate.
  - intros extents H.
    destruct (ParseFile ext nm) as [[fset f] | e' | msg |]; cbn [bind] in H;
      try discriminate.
    destruct (Walk_extents fset _ _ _ H) as (new & -> & Hnew).
    exists fset, f. split; [reflexivity|]. split; [exact Hnew|].
    symmetry. exact (Forall2_length Hnew).
Qed.

Lemma findFuncs_one_extent_per_body_witness :
  exists extents,
    findFuncs parses_three_nodes "a.go" = Ok extents
    /\ List.length extents = 2%nat.
Proof.
  assert (Hrun : exists extents, findFuncs parses_three_nodes "a.go" = Ok extents)
    by (eexists; reflexivity).
  destruct Hrun as (extents & Hrun).
  destruct (proj2 (findFuncs_one_extent_per_body parses_three_nodes "a.go")
              extents Hrun) as (fset & f & Hparse & _ & Hlen).
  exists extents. split; [exact Hrun|].
  simpl in Hparse. injection Hparse as _ <-. exact Hlen.
Defined.

(** ** Resolution of files *)

Lemma lookup_store_same {V : Type} (m : list (string * V)) (k : string) (v : V) :
  lookup (store m k v) k = Some v.
Proof.
  induction m as [|[k' v'] rest IH]; simpl.
  - now rewrite String.eqb_refl.
  - destruct (String.eqb k' k) eqn:E; simpl.
    + now rewrite String.eqb_refl.
    + now rewrite E.
Qed.

Lemma lookup_store_other {V : Type} (m : list (string * V)) (k k' : string) (v : V) :
  k' <> k -> lookup (store m k v) k' = lookup m k'.
Proof.
  intros Hne. induction m as [|[k0 v0] rest IH]; simpl.
  - destruct (String.eqb k k') eqn:E; [|reflexivity].
    apply String.eqb_eq in E. congruence.
  - destruct (String.eqb k0 k) eqn:E; simpl.
    + apply String.eqb_eq in E. subst k0.
      destruct (String.eqb k k') eqn:E'; [|reflexivity].
      apply String.eqb_eq in E'. congruence.
    + now rewrite IH.
Qed.

Lemma findFile_unfold (ext : Externals) (pkgs : packagesCache) (file : string) :
  findFile ext pkgs file
  = match lookup pkgs (dir_of ext file) with
    | Some pkg =>
        (pkgs, Ok (Join ext (build.Dir pkg) (base_of ext file), build.ImportPath pkg))
    | None =>
        match Import_ ext (dir_of ext file) with
        | Ok pkg =>
            (store pkgs (dir_of ext file) pkg,
             Ok (Join ext (build.Dir pkg) (base_of ext file), build.ImportPath pkg))
        | Err err =>
            (pkgs, Err (wrapError "can't find %q: %w" [base_of ext file] err))
        | Panic msg => (pkgs, Panic msg)
        | Hang => (pkgs, Hang)
        end
    end.
Proof.
  unfold findFile, dir_of, base_of. now destruct (Split ext file) as [dir base].
Qed.

(** X8: a directory that [findFile] has resolved is answered from the
    cache afterwards: every later call for a file of that directory
    returns the same package path and the file joined to the same
    package directory, leaves the cache as it is, and does not depend
    on what [build.Import] would return. *)
Theorem findFile_answers_from_cache (ext : Externals) (pkgs pkgs' : packagesCache)
  (file : string) (path pkgpath : string) :
  findFile ext pkgs file = (pkgs', Ok (path, pkgpath)) ->
  exists pkg,
    lookup pkgs' (dir_of ext file) = Some pkg
    /\ path = Join ext (build.Dir pkg) (base_of ext file)
    /\ pkgpath = build.ImportPath pkg
    /\ forall ext' file',
         same_paths ext ext' ->
         dir_of ext file' = dir_of ext file ->
         findFile ext' pkgs' file'
         = (pkgs', Ok (Join ext (build.Dir pkg) (base_of ext file'), pkgpath)).
Proof.
  rewrite findFile_unfold. intros H.
  assert (Hpkg : exists pkg,
             lookup pkgs' (dir_of ext file) = Some pkg
             /\ path = Join ext (build.Dir pkg) (base_of ext file)
             /\ pkgpath = build.ImportPath pkg).
  { destruct (lookup pkgs (dir_of ext file)) as [pkg|] eqn:E.
    - injection H as <- <- <-. now exists pkg.
    - destruct (Import_ ext (dir_of ext file)) as [pkg | | |]; try discriminate.
      injection H as <- <- <-. exists pkg. split; [apply lookup_store_same|auto]. }
  destruct Hpkg as (pkg & Hlook & -> & ->).
  exists pkg. repeat split; auto.
  intros ext' file' [Hsplit Hjoin] Hdir.
  rewrite findFile_unfold.
  assert (Hdir' : dir_of ext' file' = dir_of ext file)
    by (unfold dir_of in *; now rewrite Hsplit).
  assert (Hbase : base_of ext' file' = base_of ext file')
    by (unfold base_of; now rewrite Hsplit).
  now rewrite Hdir', Hlook, Hjoin, Hbase.
Qed.

Lemma findFile_answers_from_cache_witness :
  findFile import_fails
    [("example.com/pkg"%string, build.mkPackage "/repo/pkg" "example.com/pkg")]
    "example.com/pkg/a.go"
  = ([("example.com/pkg"%string, build.mkPackage "/repo/pkg" "example.com/pkg")],
     Ok ("/repo/pkg/a.go"%string, "example.com/pkg"%string)).
Proof.
  destruct (findFile_answers_from_cache failing_annotations []
              [("example.com/pkg"%string, build.mkPackage "/repo/pkg" "example.com/pkg")]
              "example.com/pkg/a.go" "/repo/pkg/a.go" "example.com/pkg" eq_refl)
    as (pkg & Hlook & _ & _ & Hlater).
  simpl in Hlook. injection Hlook as <-.
  apply (Hlater import_fails "example.com/pkg/a.go"%string); [split|]; reflexivity.
Defined.

(** ** The entry point *)

Lemma sections_loop_not_Err (stmt : StmtExtent) (sections : list gittool.Section_)
  (e : error) : sections_loop stmt sections <> Err e.
Proof.
  induction sections as [|s rest IH]; cbn [sections_loop]; [discriminate|].
  destruct (line_loop (section_trips s) stmt (gittool.StartLine s) (gittool.EndLine s))
    as [[|]|]; try discriminate. exact IH.
Qed.

Lemma new_statements_not_Err (ses : list StmtExtent) (change : option gittool.Change) :
  forall e, new_statements ses change <> Err e.
Proof.
  induction ses as [|se rest IH]; intros e; cbn [new_statements]; [discriminate|].
  unfold new_statement, findState.
  destruct change as [c|]; cbn [bind].
  - destruct (sections_loop se (gittool.Sections c)) as [st | e' | msg |] eqn:E;
      cbn [bind]; try discriminate.
    + destruct (new_statements rest (Some c)) as [ss | e' | msg |] eqn:E';
        cbn [bind]; try discriminate. exfalso. exact (IH _ eq_refl).
    + exfalso. exact (sections_loop_not_Err _ _ _ E).
  - destruct (new_statements rest None) as [ss | e' | msg |] eqn:E';
      cbn [bind]; try discriminate. exfalso. exact (IH _ eq_refl).
Qed.

Lemma build_stmts_not_Err (extents : list FuncExtent) (change : option gittool.Change) :
  forall e, build_stmts extents change <> Err e.
Proof.
  induction extents as [|fe rest IH]; intros e; cbn [build_stmts]; [discriminate|].
  destruct (new_statements (stmts fe) change) as [ss | e' | msg |] eqn:E;
    cbn [bind]; try discriminate.
  - destruct (build_stmts rest change) as [groups | e' | msg |] eqn:E';
      cbn [bind]; try discriminate. exfalso. exact (IH _ eq_refl).
  - exfalso. exact (new_statements_not_Err _ _ _ E).
Qed.

Lemma scan_not_Err (ip : option annotation.IgnoreProfile) (s : statement)
  (bs : list cover.ProfileBlock) (e : error) : scan ip s bs <> Err e.
Proof.
  induction bs as [|b rest IH]; simpl; [discriminate|].
  destruct (past_end b (StmtExtent_ s)); [discriminate|].
  destruct (before_start b (StmtExtent_ s)); [exact IH|].
  destruct ip as [p|]; [|discriminate].
  destruct (annotation.has_block p b); discriminate.
Qed.

Lemma reconcile_not_Err (ip : option annotation.IgnoreProfile) (ss : list statement) :
  forall blocks e, reconcile ip blocks ss <> Err e.
Proof.
  induction ss as [|s rest IH]; intros blocks e; cbn [reconcile]; [discriminate|].
  destruct (file_ignored ip).
  - destruct (reconcile ip blocks rest) as [r | e' | msg |] eqn:E; cbn [bind];
      try discriminate. exfalso. exact (IH _ _ E).
  - destruct (scan ip s blocks) as [[s' moved] | e' | msg |] eqn:E; cbn [bind];
      try discriminate.
    + destruct (reconcile ip match moved with Some bs => bs | None => blocks end rest)
        as [r | e'' | msg |] eqn:E'; cbn [bind]; try discriminate.
      exfalso. exact (IH _ _ E').
    + exfalso. exact (scan_not_Err _ _ _ _ E).
Qed.

Lemma findFuncs_Err (ext : Externals) (nm : string) (e : error) :
  findFuncs ext nm = Err e -> ParseFile ext nm = Err e.
Proof.
  unfold findFuncs.
  destruct (ParseFile ext nm) as [[fset f] | e' | msg |]; cbn [bind];
    try discriminate.
  - intros H. exfalso. exact (Walk_not_Err _ _ _ _ H).
  - now intros [= ->].
Qed.

(** The steps of [convertProfile] after [findFile]: the cases in which
    they return an error. *)
Ltac convert_steps_Err ext p change :=
  match goal with
  | |- context [ParseIgnoreProfiles ext ?file p] =>
      let ip := fresh "ip" in
      let e := fresh "e" in
      let Eann := fresh "Eann" in
      let Efun := fresh "Efun" in
      let Eb := fresh "Eb" in
      let Er := fresh "Er" in
      let extents := fresh "extents" in
      let groups := fresh "groups" in
      destruct (ParseIgnoreProfiles ext file p) as [ip | e | ? |] eqn:Eann;
      cbn [snd]; try discriminate;
      [ destruct (findFuncs ext file) as [extents | e | ? |] eqn:Efun;
        cbn [snd]; try discriminate;
        [ destruct (build_stmts extents change) as [groups | e | ? |] eqn:Eb;
          cbn [bind snd]; try discriminate;
          [ destruct (reconcile ip (cover.Blocks p) (List.concat (map snd groups)))
              as [? | e | ? |] eqn:Er; cbn [bind snd]; try discriminate;
            exfalso; exact (reconcile_not_Err _ _ _ _ Er)
          | exfalso; exact (build_stmts_not_Err _ _ _ Eb) ]
        | intros [= <-]; exists e; econstructor;
          exact (findFuncs_Err _ _ _ Efun) ]
      | intros [= <-]; exists e; econstructor; exact Eann ]
  end.

Lemma convertProfile_Err (ext : Externals) (parser : Parser) (p : cover.Profile)
  (change : option gittool.Change) (err : error) :
  snd (convertProfile ext parser p change) = Err err ->
  exists e, convert_error ext p err e.
Proof.
  unfold convertProfile. rewrite findFile_unfold.
  destruct (lookup (cache parser) (dir_of ext (cover.FileName p))) as [pkg|].
  - convert_steps_Err ext p change.
  - destruct (Import_ ext (dir_of ext (cover.FileName p))) as [pkg | e | msg |] eqn:Eimp;
      cbn [snd]; try discriminate.
    + convert_steps_Err ext p change.
    + intros [= <-]. exists e. econstructor. exact Eimp.
Qed.

Lemma convert_profiles_Err (ext : Externals) (changes : list gittool.Change)
  (err : error) (profiles : list cover.Profile) :
  forall parser,
    snd (convert_profiles ext parser profiles changes) = Err err ->
    exists p inner e,
      In p profiles /\ convert_error ext p inner e
      /\ err = wrapError "covert cover profile: %w" [] inner.
Proof.
  induction profiles as [|p rest IH]; intros parser H; cbn [convert_profiles] in H.
  - discriminate.
  - destruct (convertProfile ext parser p (findChange p changes))
      as [parser' [[] | inner | msg |]] eqn:E; cbn [snd] in H; try discriminate.
    + destruct (IH _ H) as (p' & inner & e & Hin & Hc & ->).
      exists p', inner, e. split; [now right|auto].
    + injection H as <-.
      assert (Hsnd : snd (convertProfile ext parser p (findChange p changes)) = Err inner)
        by now rewrite E.
      destruct (convertProfile_Err _ _ _ _ _ Hsnd) as (e & He).
      exists p, inner, e. split; [now left|auto].
Qed.

Lemma Parse_error_more (ext : Externals) (f : string) (files : list string)
  (err e : error) :
  Parse_error ext files err e -> Parse_error ext (f :: files) err e.
Proof.
  intros H. destruct H; try (econstructor; eassumption).
  apply (profile_error _ _ f0); [now right|assumption].
Qed.

Lemma parse_files_Err (ext : Externals) (changes : list gittool.Change)
  (err : error) (files : list string) :
  forall parser result,
    snd (parse_files ext parser files changes result) = Err err ->
    exists e, Parse_error ext files err e.
Proof.
  induction files as [|f rest IH]; intros parser result H; cbn [parse_files] in H.
  - discriminate.
  - destruct (ParseProfiles ext f) as [profiles | e | msg |] eqn:Ep;
      cbn [snd] in H; try discriminate.
    + destruct (convert_profiles ext parser profiles changes)
        as [parser' [[] | inner | msg |]] eqn:E; cbn [snd] in H; try discriminate.
      * destruct (IH _ _ H) as (e & He). exists e. now apply Parse_error_more.
      * injection H as <-.
        assert (Hsnd : snd (convert_profiles ext parser profiles changes) = Err inner)
          by now rewrite E.
        destruct (convert_profiles_Err _ _ _ _ _ Hsnd) as (p & inner' & e & _ & Hc & ->).
        exists e. destruct Hc; econstructor; eassumption.
    + injection H as <-. exists e. apply (profile_error _ _ f); [now left|exact Ep].
Qed.

Lemma Parse_error_Is (ext : Externals) (files : list string) (err e : error) :
  Parse_error ext files err e ->
  errors_Is err e = true
  \/ err = wrapError "covert cover profile: %w" [] (errorString "parse ignore profile").
Proof.
  intros H. destruct H; [left | left | right | left];
    try reflexivity; repeat apply errors_Is_wrap; apply errors_Is_refl.
Qed.

(** X9: every error that [Parse] returns is the failure of one
    collaborator under its stage tags: a profile decoding error under
    ["parse cover profile"], and under ["covert cover profile"] an
    import error inside ["find file"] and ["can't find"], a source
    parsing error inside ["find Functions"], or the bare ["parse ignore
    profile"]; in all but the last the collaborator's error is still in
    the chain that [errors.Is] walks. *)
Theorem Parse_error_taxonomy (ext : Externals) (parser : Parser)
  (changes : list gittool.Change) (err : error) :
  snd (Parse ext parser changes) = Err err ->
  exists e,
    Parse_error ext (coverProfileFiles parser) err e
    /\ (errors_Is err e = true
        \/ err = wrapError "covert cover profile: %w" []
                   (errorString "parse ignore profile")).
Proof.
  unfold Parse. intros H.
  destruct (parse_files_Err _ _ _ _ _ _ H) as (e & He).
  exists e. split; [exact He|exact (Parse_error_Is _ _ _ _ He)].
Qed.

Lemma Parse_error_taxonomy_witness :
  exists err e,
    snd (Parse import_fails one_profile_parser []) = Err err
    /\ Parse_error import_fails ["cover.out"%string] err e
    /\ (errors_Is err e = true
        \/ err = wrapError "covert cover profile: %w" []
                   (errorString "parse ignore profile")).
Proof.
  assert (Hrun : exists err, snd (Parse import_fails one_profile_parser []) = Err err)
    by (eexists; reflexivity).
  destruct Hrun as (err & Hrun).
  destruct (Parse_error_taxonomy import_fails one_profile_parser [] err Hrun)
    as (e & He & His).
  exists err, e. auto.
Defined.

(** ** The model aggregator *)

(** What a [convertProfile] call that returns nil went through. *)
Lemma convertProfile_Ok (ext : Externals) (parser parser' : Parser)
  (p : cover.Profile) (change : option gittool.Change) :
  convertProfile ext parser p change = (parser', Ok tt) ->
  exists c file pkgpath ip extents groups flat,
    findFile ext (cache parser) (cover.FileName p) = (c, Ok (file, pkgpath))
    /\ ParseIgnoreProfiles ext file p = Ok ip
    /\ findFuncs ext file = Ok extents
    /\ build_stmts extents change = Ok groups
    /\ reconcile ip (cover.Blocks p) (List.concat (map snd groups)) = Ok flat
    /\ parser'
       = with_package
           (with_package (with_cache parser c) pkgpath
              (package_at (with_cache parser c) pkgpath))
           pkgpath
           {| Pkg.Name := Pkg.Name (package_at (with_cache parser c) pkgpath);
              Pkg.Functions :=
                Pkg.Functions (package_at (with_cache parser c) pkgpath)
                ++ functions_of file groups flat |}.
Proof.
  unfold convertProfile.
  destruct (findFile ext (cache parser) (cover.FileName p))
    as [c [[file pkgpath] | e | msg |]]; try discriminate.
  fold (package_at (with_cache parser c) pkgpath).
  destruct (ParseIgnoreProfiles ext file p) as [ip | e | msg |] eqn:Eann;
    try discriminate.
  destruct (findFuncs ext file) as [extents | e | msg |] eqn:Efun;
    try discriminate.
  destruct (build_stmts extents change) as [groups | e | msg |] eqn:Eb;
    cbn [bind]; try discriminate.
  destruct (reconcile ip (cover.Blocks p) (List.concat (map snd groups)))
    as [flat | e | msg |] eqn:Er; cbn [bind]; try discriminate.
  intros [= <-].
  exists c, file, pkgpath, ip, extents, groups, flat. repeat split; assumption.
Qed.

Lemma reconcile_steps (ip : option annotation.IgnoreProfile) (ss : list statement) :
  forall blocks res, reconcile ip blocks ss = Ok res -> Forall2 stepped ss res.
Proof.
  induction ss as [|s rest IH]; intros blocks res H; cbn [reconcile] in H.
  - injection H as <-. constructor.
  - destruct (file_ignored ip).
    + apply bind_Ok in H. destruct H as (rest' & Hrest & H). injection H as <-.
      constructor; [right; now left|exact (IH _ _ Hrest)].
    + apply bind_Ok in H. destruct H as ([s' moved] & Hscan & H).
      apply bind_Ok in H. destruct H as (rest' & Hrest & H). injection H as <-.
      constructor; [|exact (IH _ _ Hrest)].
      apply scan_Ok in Hscan.
      destruct Hscan as [(front & b & back & p & _ & _ & _ & _ & -> & _) | (-> & _)].
      * right. right. now exists p, b.
      * now left.
Qed.

Lemma stepped_touched (s s' : statement) : stepped s s' -> touched s s'.
Proof.
  intros [-> | [-> | (ip & b & ->)]];
    [apply touched_refl | apply touched_ignored | apply touched_hit].
Qed.

Lemma new_statements_created (change : option gittool.Change)
  (ses : list StmtExtent) :
  forall ss, new_statements ses change = Ok ss -> Forall2 (created change) ses ss.
Proof.
  induction ses as [|se rest IH]; intros ss H; cbn [new_statements] in H.
  - injection H as <-. constructor.
  - apply bind_Ok in H. destruct H as (s & Hs & H).
    apply bind_Ok in H. destruct H as (ss' & Hss & H). injection H as <-.
    constructor; [|exact (IH _ Hss)].
    unfold new_statement in Hs. apply bind_Ok in Hs.
    destruct Hs as (st & Hst & Hs). injection Hs as <-.
    unfold created, statement_of. simpl. repeat split; auto.
Qed.

Lemma build_stmts_created (change : option gittool.Change)
  (extents : list FuncExtent) :
  forall groups,
    build_stmts extents change = Ok groups ->
    Forall2 (fun fe g => fst g = fe /\ Forall2 (created change) (stmts fe) (snd g))
            extents groups.
Proof.
  induction extents as [|fe rest IH]; intros groups H; cbn [build_stmts] in H.
  - injection H as <-. constructor.
  - apply bind_Ok in H. destruct H as (ss & Hss & H).
    apply bind_Ok in H. destruct H as (groups' & Hg & H). injection H as <-.
    constructor; [|exact (IH _ Hg)].
    split; [reflexivity|exact (new_statements_created _ _ _ Hss)].
Qed.

(** The functions built from the groups hold, group by group, the
    statements of the flat slice. *)
Lemma functions_of_groups (file : string) (R : statement -> statement -> Prop)
  (groups : list (FuncExtent * list statement)) :
  forall flat,
    Forall2 R (List.concat (map snd groups)) flat ->
    Forall2 (fun g f =>
               Func.Name f = name (fst g) /\ Func.File f = file
               /\ Func.Start f = startOffset (fe_extent (fst g))
               /\ Func.End_ f = endOffset (fe_extent (fst g))
               /\ Func.StartLine f = startLine (fe_extent (fst g))
               /\ Func.EndLine f = endLine (fe_extent (fst g))
               /\ exists part,
                    Func.Statements f = map Statement_ part
                    /\ Forall2 R (snd g) part)
            groups (functions_of file groups flat).
Proof.
  induction groups as [|[fe ss] rest IH]; intros flat H; cbn [functions_of].
  - constructor.
  - cbn [map List.concat snd] in H.
    apply Forall2_app_inv_l in H. destruct H as (l1 & l2 & H1 & H2 & ->).
    pose proof (Forall2_length H1) as Hlen.
    rewrite Hlen, firstn_app, Nat.sub_diag, firstn_all, firstn_O, app_nil_r.
    rewrite skipn_app, Nat.sub_diag, skipn_all, skipn_O. cbn [app].
    constructor; [|exact (IH _ H2)].
    simpl. repeat split; auto. now exists l1.
Qed.

Lemma statement_of_touched (change : option gittool.Change) (se : StmtExtent)
  (s s' : statement) :
  created change se s -> touched s s' -> statement_of change se (Statement_ s').
Proof.
  unfold created, statement_of, touched.
  intros (_ & (H1 & H2 & H3 & H4 & H5) & _) (_ & T1 & T2 & T3 & T4 & T5 & _).
  rewrite T1, T2, T3, T4, T5. auto.
Qed.

Lemma Forall2_map_r {A B C : Type} (R : A -> C -> Prop) (f : B -> C)
  (l : list A) (l' : list B) :
  Forall2 (fun a b => R a (f b)) l l' -> Forall2 R l (map f l').
Proof. induction 1; simpl; constructor; auto. Qed.

Lemma Forall2_compose {A B C : Type} (R : A -> B -> Prop) (S : B -> C -> Prop)
  (T : A -> C -> Prop) (l1 : list A) (l2 : list B) :
  (forall a b c, R a b -> S b c -> T a c) ->
  Forall2 R l1 l2 -> forall l3, Forall2 S l2 l3 -> Forall2 T l1 l3.
Proof.
  intros HT H. induction H as [|a b l1 l2 Hab _ IH]; intros l3 H3.
  - inversion H3. constructor.
  - inversion H3; subst. constructor; [eapply HT; eassumption|now apply IH].
Qed.

(** The functions of one [convertProfile] call. *)
Lemma functions_of_extents (file : string) (change : option gittool.Change)
  (ip : option annotation.IgnoreProfile) (blocks : list cover.ProfileBlock)
  (extents : list FuncExtent) (groups : list (FuncExtent * list statement))
  (flat : list statement) :
  build_stmts extents change = Ok groups ->
  reconcile ip blocks (List.concat (map snd groups)) = Ok flat ->
  Forall2 (function_of file change) extents (functions_of file groups flat).
Proof.
  intros Hb Hr.
  apply build_stmts_created in Hb. apply reconcile_steps in Hr.
  apply (functions_of_groups file) in Hr.
  refine (Forall2_compose _ _ _ _ _ _ Hb _ Hr).
  intros fe [fe' ss] f [Hfe Hcreated] (N1 & N2 & N3 & N4 & N5 & N6 & part & Hpart & Hstep).
  simpl in *. subst fe'. unfold function_of. repeat split; auto.
  rewrite Hpart. apply Forall2_map_r.
  refine (Forall2_compose _ _ _ _ _ _ Hcreated _ Hstep).
  intros se s s' Hc Hs. exact (statement_of_touched _ _ _ _ Hc (stepped_touched _ _ Hs)).
Qed.

(** X10: a [convertProfile] call that returns nil leaves, under the
    package path of the file, the package that was there (a new one
    named by the path when there was none) with one more function for
    every function extent of the file, in order: each function has the
    name and extent of its function extent and one statement for every
    statement extent, with that extent's lines and offsets and the state
    [findState] gives it.  The other packages are as they were. *)
Theorem convertProfile_appends_functions (ext : Externals) (parser parser' : Parser)
  (p : cover.Profile) (change : option gittool.Change) :
  convertProfile ext parser p change = (parser', Ok tt) ->
  exists file pkgpath extents fs,
    snd (findFile ext (cache parser) (cover.FileName p)) = Ok (file, pkgpath)
    /\ findFuncs ext file = Ok extents
    /\ lookup (packages parser') pkgpath
       = Some {| Pkg.Name := Pkg.Name (package_at parser pkgpath);
                 Pkg.Functions := Pkg.Functions (package_at parser pkgpath) ++ fs |}
    /\ Forall2 (function_of file change) extents fs
    /\ forall k, k <> pkgpath ->
                 lookup (packages parser') k = lookup (packages parser) k.
Proof.
  intros H. apply convertProfile_Ok in H.
  destruct H as (c & file & pkgpath & ip & extents & groups & flat
                 & Hfind & Hann & Hfun & Hb & Hr & ->).
  exists file, pkgpath, extents, (functions_of file groups flat).
  split; [now rewrite Hfind|]. split; [exact Hfun|].
  split; [apply lookup_store_same|].
  split; [exact (functions_of_extents _ _ _ _ _ _ _ Hb Hr)|].
  intros k Hk. cbn [packages with_package with_cache].
  now rewrite !lookup_store_other by exact Hk.
Qed.

Lemma convertProfile_appends_functions_witness :
  exists parser' file pkgpath extents fs,
    convertProfile three_statement_run (NewParser ["cover.out"%string])
      three_statement_profile
      (Some (gittool.mkChange "pkg/f.go" [gittool.mkSection 4 4]))
    = (parser', Ok tt)
    /\ findFuncs three_statement_run file = Ok extents
    /\ lookup (packages parser') pkgpath
       = Some {| Pkg.Name := pkgpath; Pkg.Functions := fs |}
    /\ Forall2 (function_of file
                  (Some (gittool.mkChange "pkg/f.go" [gittool.mkSection 4 4])))
               extents fs.
Proof.
  assert (Hrun : exists parser',
             convertProfile three_statement_run (NewParser ["cover.out"%string])
               three_statement_profile
               (Some (gittool.mkChange "pkg/f.go" [gittool.mkSection 4 4]))
             = (parser', Ok tt))
    by (eexists; reflexivity).
  destruct Hrun as (parser' & Hrun).
  destruct (convertProfile_appends_functions _ _ _ _ _ Hrun)
    as (file & pkgpath & extents & fs & Hfind & Hfun & Hlook & Hfs & _).
  exists parser', file, pkgpath, extents, fs.
  split; [exact Hrun|]. split; [exact Hfun|]. split; [|exact Hfs].
  simpl in Hfind. injection Hfind as <- <-. exact Hlook.
Defined.

Lemma reconcile_file_ignored (ip : option annotation.IgnoreProfile)
  (ss : list statement) :
  file_ignored ip = true ->
  forall blocks, reconcile ip blocks ss = Ok (map ignored ss).
Proof.
  intros Hfile blocks. induction ss as [|s rest IH]; cbn [reconcile]; [reflexivity|].
  rewrite Hfile, IH. reflexivity.
Qed.

Lemma Forall2_map_same {A B : Type} (f : A -> B) (l : list A) :
  Forall2 (fun a b => b = f a) l (map f l).
Proof. induction l; simpl; constructor; auto. Qed.

Lemma Forall2_In_r {A B : Type} (R : A -> B -> Prop) (l : list A) (l' : list B)
  (b : B) :
  Forall2 R l l' -> In b l' -> exists a, In a l /\ R a b.
Proof.
  induction 1 as [|a b' l l' Hab _ IH]; intros Hin; [destruct Hin|].
  destruct Hin as [<- | Hin].
  - exists a. split; [now left|exact Hab].
  - destruct (IH Hin) as (a' & Ha' & HR). exists a'. split; [now right|exact HR].
Qed.

(** X11: when the annotation parser marks the file as ignored, a
    returning [convertProfile] call adds to the package of the file one
    function for every function extent of the file, and every statement
    of every one of them has [Mode = Ignore] and [Reached = 1], whatever
    the blocks of the profile are. *)
Theorem convertProfile_file_ignored (ext : Externals) (parser parser' : Parser)
  (p : cover.Profile) (change : option gittool.Change) (file pkgpath : string)
  (ip : option annotation.IgnoreProfile) :
  snd (findFile ext (cache parser) (cover.FileName p)) = Ok (file, pkgpath) ->
  ParseIgnoreProfiles ext file p = Ok ip ->
  file_ignored ip = true ->
  convertProfile ext parser p change = (parser', Ok tt) ->
  exists extents fs,
    findFuncs ext file = Ok extents
    /\ lookup (packages parser') pkgpath
       = Some {| Pkg.Name := Pkg.Name (package_at parser pkgpath);
                 Pkg.Functions := Pkg.Functions (package_at parser pkgpath) ++ fs |}
    /\ Forall2 (function_of file change) extents fs
    /\ Forall (fun f =>
                 Forall (fun st => Mode_ st = Ignore /\ Reached st = 1)
                        (Func.Statements f))
              fs.
Proof.
  intros Hfile Hip Hignore H. apply convertProfile_Ok in H.
  destruct H as (c & file' & pkgpath' & ip' & extents & groups & flat
                 & Hfind & Hann & Hfun & Hb & Hr & ->).
  rewrite Hfind in Hfile. cbn [snd] in Hfile. injection Hfile as -> ->.
  rewrite Hip in Hann. injection Hann as <-.
  exists extents, (functions_of file groups flat).
  split; [exact Hfun|].
  split; [apply lookup_store_same|].
  split; [exact (functions_of_extents _ _ _ _ _ _ _ Hb Hr)|].
  rewrite (reconcile_file_ignored ip _ Hignore) in Hr.
  injection Hr as <-.
  pose proof (functions_of_groups file (fun s s' => s' = ignored s) groups _
                (Forall2_map_same ignored _)) as Hfs.
  apply Forall_forall. intros f Hf.
  destruct (Forall2_In_r _ _ _ f Hfs Hf)
    as (g & _ & (_ & _ & _ & _ & _ & _ & part & -> & Hpart)).
  apply Forall_forall. intros st Hst. apply in_map_iff in Hst.
  destruct Hst as (s' & <- & Hs').
  destruct (Forall2_In_r _ _ _ s' Hpart Hs') as (s & _ & ->).
  split; reflexivity.
Qed.

Lemma convertProfile_file_ignored_witness :
  exists parser' extents fs,
    convertProfile file_ignored_run (NewParser ["cover.out"%string])
      three_statement_profile None = (parser', Ok tt)
    /\ findFuncs file_ignored_run "/repo/pkg/f.go" = Ok extents
    /\ lookup (packages parser') "example.com/pkg"
       = Some {| Pkg.Name := "example.com/pkg"; Pkg.Functions := fs |}
    /\ Forall2 (function_of "/repo/pkg/f.go" None) extents fs
    /\ Forall (fun f =>
                 Forall (fun st => Mode_ st = Ignore /\ Reached st = 1)
                        (Func.Statements f))
              fs.
Proof.
  assert (Hrun : exists parser',
             convertProfile file_ignored_run (NewParser ["cover.out"%string])
               three_statement_profile None = (parser', Ok tt))
    by (eexists; reflexivity).
  destruct Hrun as (parser' & Hrun).
  destruct (convertProfile_file_ignored file_ignored_run
              (NewParser ["cover.out"%string]) parser' three_statement_profile None
              "/repo/pkg/f.go" "example.com/pkg"
              (Some (annotation.mkIgnoreProfile annotation.FILE_IGNORE [])))
    as (extents & fs & Hfun & Hlook & Hfs & Hall).
  - reflexivity.
  - reflexivity.
  - reflexivity.
  - exact Hrun.
  - exists parser', extents, fs. auto.
Defined.

(** ** The package map across calls *)

Lemma grown_refl (m : list (string * Pkg.Package)) : grown m m.
Proof. intros k pkg H. exists pkg, []. now rewrite app_nil_r. Qed.

Lemma grown_trans (m1 m2 m3 : list (string * Pkg.Package)) :
  grown m1 m2 -> grown m2 m3 -> grown m1 m3.
Proof.
  intros H12 H23 k pkg H.
  destruct (H12 k pkg H) as (pkg2 & fs2 & H2 & N2 & F2).
  destruct (H23 k pkg2 H2) as (pkg3 & fs3 & H3 & N3 & F3).
  exists pkg3, (fs2 ++ fs3). split; [exact H3|]. split; [congruence|].
  now rewrite F3, F2, app_assoc.
Qed.

(** Storing, under [k], the package found there with more functions. *)
Lemma grown_store (m : list (string * Pkg.Package)) (k : string)
  (fs : list Func.Function) (base : Pkg.Package) :
  (forall pkg, lookup m k = Some pkg -> base = pkg) ->
  grown m (store m k {| Pkg.Name := Pkg.Name base;
                        Pkg.Functions := Pkg.Functions base ++ fs |}).
Proof.
  intros Hbase k' pkg H.
  destruct (string_dec k' k) as [-> | Hne].
  - rewrite lookup_store_same. eexists. exists fs.
    split; [reflexivity|]. rewrite (Hbase pkg H). auto.
  - rewrite lookup_store_other by exact Hne.
    exists pkg, []. now rewrite app_nil_r.
Qed.

Lemma keyed_store (m : list (string * Pkg.Package)) (k : string) (v : Pkg.Package) :
  keyed m -> Pkg.Name v = k -> keyed (store m k v).
Proof.
  intros Hm Hv k' pkg H.
  destruct (string_dec k' k) as [-> | Hne].
  - rewrite lookup_store_same in H. now injection H as <-.
  - rewrite lookup_store_other in H by exact Hne. exact (Hm _ _ H).
Qed.

Lemma package_at_found (parser : Parser) (k : string) (pkg : Pkg.Package) :
  lookup (packages parser) k = Some pkg -> package_at parser k = pkg.
Proof. unfold package_at. now intros ->. Qed.

Lemma package_at_Name (parser : Parser) (k : string) :
  keyed (packages parser) -> Pkg.Name (package_at parser k) = k.
Proof.
  intros Hk. unfold package_at.
  destruct (lookup (packages parser) k) as [pkg|] eqn:E; [exact (Hk _ _ E)|reflexivity].
Qed.

(** The package map after registering the package of [pkgpath] and
    after giving it more functions. *)
Lemma registered_grown (parser : Parser) (pkgpath : string)
  (fs : list Func.Function) :
  let m1 := store (packages parser) pkgpath (package_at parser pkgpath) in
  let m2 := store m1 pkgpath
              {| Pkg.Name := Pkg.Name (package_at parser pkgpath);
                 Pkg.Functions := Pkg.Functions (package_at parser pkgpath) ++ fs |} in
  grown (packages parser) m1 /\ grown (packages parser) m2
  /\ (keyed (packages parser) -> keyed m1 /\ keyed m2).
Proof.
  intros m1 m2.
  assert (H1 : grown (packages parser) m1).
  { intros k pkg H. destruct (string_dec k pkgpath) as [-> | Hne].
    - subst m1. rewrite lookup_store_same. exists (package_at parser pkgpath), [].
      rewrite (package_at_found _ _ _ H), app_nil_r. auto.
    - subst m1. rewrite lookup_store_other by exact Hne.
      exists pkg, []. now rewrite app_nil_r. }
  split; [exact H1|]. split.
  - apply (grown_trans _ m1); [exact H1|].
    apply grown_store. intros pkg H. subst m1.
    rewrite lookup_store_same in H. now injection H as <-.
  - intros Hk.
    assert (Hk1 : keyed m1) by (apply keyed_store; [exact Hk|now apply package_at_Name]).
    split; [exact Hk1|].
    apply keyed_store; [exact Hk1|]. simpl. now apply package_at_Name.
Qed.

Lemma convertProfile_grows (ext : Externals) (parser : Parser) (p : cover.Profile)
  (change : option gittool.Change) :
  let parser' := fst (convertProfile ext parser p change) in
  grown (packages parser) (packages parser')
  /\ (keyed (packages parser) -> keyed (packages parser'))
  /\ coverProfileFiles parser' = coverProfileFiles parser.
Proof.
  unfold convertProfile.
  destruct (findFile ext (cache parser) (cover.FileName p))
    as [c [[file pkgpath] | e | msg |]]; cbn [fst];
    try (split; [apply grown_refl|split; [auto|reflexivity]]).
  fold (package_at (with_cache parser c) pkgpath).
  destruct (registered_grown (with_cache parser c) pkgpath []) as (G1 & _ & K1).
  assert (Hany : forall o : outcome unit,
             let parser' :=
               fst (with_package (with_cache parser c) pkgpath
                      (package_at (with_cache parser c) pkgpath), o) in
             grown (packages parser) (packages parser')
             /\ (keyed (packages parser) -> keyed (packages parser'))
             /\ coverProfileFiles parser' = coverProfileFiles parser).
  { intros o. cbn [fst]. split; [exact G1|].
    split; [intros Hk; exact (proj1 (K1 Hk))|reflexivity]. }
  destruct (ParseIgnoreProfiles ext file p) as [ip | e | msg |]; try apply Hany.
  destruct (findFuncs ext file) as [extents | e | msg |]; try apply Hany.
  destruct (build_stmts extents change) as [groups | e | msg |];
    cbn [bind]; try apply Hany.
  destruct (reconcile ip (cover.Blocks p) (List.concat (map snd groups)))
    as [flat | e | msg |]; cbn [bind]; try apply Hany.
  cbn [fst].
  destruct (registered_grown (with_cache parser c) pkgpath
              (functions_of file groups flat)) as (_ & G2 & K2).
  split; [exact G2|]. split; [intros Hk; exact (proj2 (K2 Hk))|reflexivity].
Qed.

Lemma convert_profiles_grows (ext : Externals) (changes : list gittool.Change)
  (profiles : list cover.Profile) :
  forall parser,
    let parser' := fst (convert_profiles ext parser profiles changes) in
    grown (packages parser) (packages parser')
    /\ (keyed (packages parser) -> keyed (packages parser'))
    /\ coverProfileFiles parser' = coverProfileFiles parser.
Proof.
  induction profiles as [|p rest IH]; intros parser; cbn [convert_profiles].
  - cbn [fst]. split; [apply grown_refl|auto].
  - pose proof (convertProfile_grows ext parser p (findChange p changes)) as Hstep.
    destruct (convertProfile ext parser p (findChange p changes))
      as [parser1 [[] | e | msg |]]; cbn [fst] in *; try exact Hstep.
    destruct Hstep as (G1 & K1 & F1).
    destruct (IH parser1) as (G2 & K2 & F2).
    split; [exact (grown_trans _ _ _ G1 G2)|].
    split; [auto|congruence].
Qed.

Lemma parse_files_grows (ext : Externals) (changes : list gittool.Change)
  (files : list string) :
  forall parser result,
    let parser' := fst (parse_files ext parser files changes result) in
    grown (packages parser) (packages parser')
    /\ (keyed (packages parser) -> keyed (packages parser'))
    /\ coverProfileFiles parser' = coverProfileFiles parser.
Proof.
  induction files as [|f rest IH]; intros parser result; cbn [parse_files].
  - cbn [fst]. split; [apply grown_refl|auto].
  - destruct (ParseProfiles ext f) as [profiles | e | msg |]; cbn [fst];
      try (split; [apply grown_refl|auto]).
    pose proof (convert_profiles_grows ext changes profiles parser) as Hstep.
    destruct (convert_profiles ext parser profiles changes)
      as [parser1 [[] | e | msg |]]; cbn [fst] in *; try exact Hstep.
    destruct Hstep as (G1 & K1 & F1).
    destruct (IH parser1
                (fold_left (AddPackage ext) (range_packages ext (packages parser1)) result))
      as (G2 & K2 & F2).
    split; [exact (grown_trans _ _ _ G1 G2)|].
    split; [auto|congruence].
Qed.

(** X12: however a [Parse] call ends, it leaves in the parser every
    package that was there, under the same name and with the functions
    it had followed by more, so a parser used again adds to what it
    holds; the packages stay registered under their own names, as they
    are in a parser made by [NewParser], and the list of cover profile
    files is not changed. *)
Theorem Parse_grows_packages (ext : Externals) (parser : Parser)
  (changes : list gittool.Change) :
  keyed (packages parser) ->
  let parser' := fst (Parse ext parser changes) in
  keyed (packages parser')
  /\ grown (packages parser) (packages parser')
  /\ coverProfileFiles parser' = coverProfileFiles parser.
Proof.
  intros Hk. unfold Parse.
  destruct (parse_files_grows ext changes (coverProfileFiles parser) parser
              (noPackages ext)) as (G & K & F).
  split; [exact (K Hk)|]. split; [exact G|exact F].
Qed.

Lemma Parse_grows_packages_witness :
  keyed (packages (fst (Parse three_statement_run (NewParser ["cover.out"%string]) [])))
  /\ let again :=
       fst (Parse three_statement_run
              (fst (Parse three_statement_run (NewParser ["cover.out"%string]) [])) []) in
     grown (packages (fst (Parse three_statement_run
                             (NewParser ["cover.out"%string]) [])))
           (packages again).
Proof.
  assert (Hnew : keyed (packages (NewParser ["cover.out"%string])))
    by (intros k pkg H; discriminate H).
  destruct (Parse_grows_packages three_statement_run
              (NewParser ["cover.out"%string]) [] Hnew) as (K1 & _ & _).
  split; [exact K1|].
  exact (proj1 (proj2 (Parse_grows_packages three_statement_run _ [] K1))).
Defined.

(** ** The diff correlator *)

Lemma append_empty_r (s : string) : (s ++ "")%string = s.
Proof. induction s as [|c s IH]; simpl; [reflexivity|now rewrite IH]. Qed.

Lemma append_assoc (a b c : string) :
  ((a ++ b) ++ c)%string = (a ++ (b ++ c))%string.
Proof. induction a as [|x a IH]; simpl; [reflexivity|now rewrite IH]. Qed.

(** X13: [InFolder] orders paths: every path is in itself, a path in a
    path that is in a third is in the third, and two paths that are in
    each other are equal; and every path is in the empty path, so a
    change with an empty file name is associated with every profile it
    is looked up for when it comes first. *)
Theorem InFolder_orders_paths :
  (forall p, InFolder p p = true)
  /\ (forall a b c,
         InFolder a b = true -> InFolder b c = true -> InFolder a c = true)
  /\ (forall a b, InFolder a b = true -> InFolder b a = true -> a = b)
  /\ (forall p, InFolder p EmptyString = true)
  /\ (forall profile change rest,
         gittool.FileName change = EmptyString ->
         findChange profile (change :: rest) = Some change).
Proof.
  split; [intros p; apply InFolder_iff; now exists EmptyString|].
  split.
  { intros a b c Hab Hbc. apply InFolder_iff in Hab, Hbc. apply InFolder_iff.
    destruct Hab as [pre ->]. destruct Hbc as [pre' ->].
    exists (pre ++ pre')%string. now rewrite append_assoc. }
  split.
  { intros a b Hab Hba. apply InFolder_iff in Hab, Hba.
    destruct Hab as [pre Ha]. destruct Hba as [pre' Hb].
    assert (Hlen : String.length pre = 0%nat).
    { apply (f_equal String.length) in Ha, Hb.
      rewrite length_append in Ha, Hb. lia. }
    destruct pre; [exact Ha|discriminate Hlen]. }
  split.
  { intros p. apply InFolder_iff. exists p. now rewrite append_empty_r. }
  intros profile change rest Hname. cbn [findChange]. rewrite Hname.
  assert (H : InFolder (cover.FileName profile) EmptyString = true)
    by (apply InFolder_iff; exists (cover.FileName profile);
        now rewrite append_empty_r).
  now rewrite H.
Qed.

Lemma InFolder_orders_paths_witness :
  InFolder "/repo/pkg/a.go" "a.go" = true
  /\ findChange annotated_profile
       [gittool.mkChange EmptyString []; gittool.mkChange "pkg/a.go" []]
     = Some (gittool.mkChange EmptyString []).
Proof.
  destruct InFolder_orders_paths as (_ & Htrans & _ & _ & Hempty).
  split.
  - apply (Htrans "/repo/pkg/a.go" "pkg/a.go" "a.go")%string; reflexivity.
  - apply Hempty. reflexivity.
Defined.

(** X14: looking a profile up in two lists of changes one after the
    other is looking it up in the first and, only when that gives nil,
    in the second. *)
Theorem findChange_app (profile : cover.Profile) (front back : list gittool.Change) :
  findChange profile (front ++ back)
  = match findChange profile front with
    | Some c => Some c
    | None => findChange profile back
    end.
Proof.
  induction front as [|c rest IH]; simpl; [reflexivity|].
  now destruct (InFolder (cover.FileName profile) (gittool.FileName c)).
Qed.

(** X15: the state of a statement depends on the set of hunks only:
    with more hunks a [Changed] statement stays [Changed], and two
    changes with the same hunks, in any order and with any repetition,
    give the same state. *)
Theorem findState_hunk_set (stmt : StmtExtent) (c c' : gittool.Change) :
  Forall section_ok (gittool.Sections c) ->
  Forall section_ok (gittool.Sections c') ->
  ((forall s, In s (gittool.Sections c) -> In s (gittool.Sections c')) ->
   findState stmt (Some c) = Ok Changed -> findState stmt (Some c') = Ok Changed)
  /\ ((forall s, In s (gittool.Sections c) <-> In s (gittool.Sections c')) ->
      findState stmt (Some c) = findState stmt (Some c')).
Proof.
  intros Hok Hok'. cbn [findState].
  destruct (sections_loop_spec stmt _ Hok) as (st & Hst & Hiff).
  destruct (sections_loop_spec stmt _ Hok') as (st' & Hst' & Hiff').
  rewrite Hst, Hst'. split.
  - intros Hincl [= ->]. f_equal. apply Hiff'.
    destruct (proj1 Hiff eq_refl) as (s & Hin & Hm). exists s. auto.
  - intros Hsame. f_equal.
    destruct st, st'; try reflexivity.
    + apply (proj2 Hiff). destruct (proj1 Hiff' eq_refl) as (s & Hin & Hm).
      exists s. split; [now apply Hsame|exact Hm].
    + symmetry. apply (proj2 Hiff'). destruct (proj1 Hiff eq_refl) as (s & Hin & Hm).
      exists s. split; [now apply Hsame|exact Hm].
Qed.

Lemma findState_hunk_set_witness :
  findState (mkExtent 0 3 1 0 5 1)
    (Some (gittool.mkChange "a.go" [gittool.mkSection 1 2; gittool.mkSection 5 9]))
  = findState (mkExtent 0 3 1 0 5 1)
      (Some (gittool.mkChange "b.go"
               [gittool.mkSection 5 9; gittool.mkSection 1 2; gittool.mkSection 5 9])).
Proof.
  apply (findState_hunk_set (mkExtent 0 3 1 0 5 1)
           (gittool.mkChange "a.go" [gittool.mkSection 1 2; gittool.mkSection 5 9])
           (gittool.mkChange "b.go"
              [gittool.mkSection 5 9; gittool.mkSection 1 2; gittool.mkSection 5 9])).
  - repeat constructor; unfold in_int, int_min, int_max; simpl; lia.
  - repeat constructor; unfold in_int, int_min, int_max; simpl; lia.
  - intros s. simpl. tauto.
Defined.

(** X16: a statement whose lines include the lines of a [Changed]
    statement is [Changed] too: a control construct, recorded with its
    whole span, is [Changed] whenever a statement of its body is. *)
Theorem findState_enclosing_Changed (outer inner : StmtExtent)
  (change : option gittool.Change) :
  (forall c, change = Some c -> Forall section_ok (gittool.Sections c)) ->
  encloses outer inner ->
  findState inner change = Ok Changed ->
  findState outer change = Ok Changed.
Proof.
  intros Hok [Hs He] H. destruct change as [c|]; [|discriminate H].
  cbn [findState] in *.
  destruct (sections_loop_spec inner _ (Hok c eq_refl)) as (st & Hst & Hiff).
  destruct (sections_loop_spec outer _ (Hok c eq_refl)) as (st' & Hst' & Hiff').
  rewrite Hst in H. injection H as ->. rewrite Hst'. f_equal. apply Hiff'.
  destruct (proj1 Hiff eq_refl) as (s & Hin & line & Hl1 & Hl2).
  exists s. split; [exact Hin|]. exists line. split; [exact Hl1|lia].
Qed.

Lemma findState_enclosing_Changed_witness :
  findState (mkExtent 0 1 1 120 10 2)
    (Some (gittool.mkChange "a.go" [gittool.mkSection 4 4])) = Ok Changed.
Proof.
  apply (findState_enclosing_Changed (mkExtent 0 1 1 120 10 2)
           (mkExtent 30 4 3 40 4 13)).
  - intros c [= <-]. repeat constructor; unfold in_int, int_min, int_max; simpl; lia.
  - unfold encloses. simpl. lia.
  - reflexivity.
Defined.

(** ** A hunk that ends on the largest [int] *)

Lemma wrap_range (z : Z) : in_int (wrap z).
Proof.
  unfold in_int, int_min, int_max, wrap.
  pose proof (Z.mod_pos_bound (z + 2 ^ 63) (2 ^ 64)). lia.
Qed.

Lemma wrap_wrap_add (a b : Z) : wrap (wrap a + b) = wrap (a + b).
Proof.
  unfold wrap. f_equal.
  replace ((a + 2 ^ 63) mod 2 ^ 64 - 2 ^ 63 + b + 2 ^ 63)
    with ((a + 2 ^ 63) mod 2 ^ 64 + b) by lia.
  rewrite Zplus_mod_idemp_l. f_equal. lia.
Qed.

Lemma wrap_add_mod (a b : Z) : wrap (a + b mod 2 ^ 64) = wrap (a + b).
Proof.
  unfold wrap. f_equal.
  replace (a + b mod 2 ^ 64 + 2 ^ 63) with (a + 2 ^ 63 + b mod 2 ^ 64) by lia.
  rewrite Zplus_mod_idemp_r. f_equal. lia.
Qed.

(** The test [i <= MaxInt64] never fails: the loop returns [Changed]
    at the first line of the statement that [i] comes to, also after
    [i] has wrapped. *)
Lemma line_loop_wraps (stmt : StmtExtent) :
  forall (n trips : nat) (i : Z),
    in_int i ->
    (n < trips)%nat ->
    startLine stmt <= wrap (i + Z.of_nat n) <= endLine stmt ->
    line_loop trips stmt i int_max = Some true.
Proof.
  induction n as [|n IH]; intros trips i Hi Hlt Hhit;
    (destruct trips as [|trips]; [lia|]); cbn [line_loop];
    rewrite (proj2 (Z.leb_le i int_max) (proj2 Hi));
    destruct ((startLine stmt <=? i) && (endLine stmt >=? i)) eqn:E;
    try reflexivity.
  - rewrite Z.add_0_r, (wrap_in_int i Hi) in Hhit.
    apply andb_false_iff in E.
    destruct E as [E|E];
      [apply Z.leb_gt in E | rewrite Z.geb_leb in E; apply Z.leb_gt in E]; lia.
  - apply (IH trips (int_add i 1)); [apply wrap_range|lia|].
    unfold int_add. rewrite wrap_wrap_add.
    replace (i + 1 + Z.of_nat n) with (i + Z.of_nat (S n)) by lia. exact Hhit.
Qed.

(** When no [int] is a line of the statement the loop goes on for
    ever. *)
Lemma line_loop_never (stmt : StmtExtent) :
  ~ holds_int stmt ->
  forall (trips : nat) (i : Z),
    in_int i -> line_loop trips stmt i int_max = None.
Proof.
  intros Hnone. induction trips as [|trips IH]; intros i Hi; cbn [line_loop];
    [reflexivity|].
  rewrite (proj2 (Z.leb_le i int_max) (proj2 Hi)).
  destruct ((startLine stmt <=? i) && (endLine stmt >=? i)) eqn:E.
  - exfalso. apply Hnone. exists i. split; [exact Hi|].
    apply andb_true_iff in E. destruct E as [E1 E2].
    apply Z.leb_le in E1. apply Z.geb_le in E2. lia.
  - apply IH. apply wrap_range.
Qed.

(** X18: the line loop of a hunk that ends on the largest [int] is
    never ended by its test, because [i++] wraps.  When the hunks
    before it end below the largest [int], a statement whose line range
    holds an [int] is [Changed], whether or not it shares a line with a
    hunk; for a statement whose line range holds no [int], [findState]
    does not return. *)
Theorem findState_hunk_to_MaxInt (stmt : StmtExtent) (nm : string)
  (front back : list gittool.Section_) (s : gittool.Section_) :
  Forall section_ok front ->
  in_int (gittool.StartLine s) ->
  gittool.EndLine s = int_max ->
  (holds_int stmt ->
   findState stmt (Some (gittool.mkChange nm (front ++ s :: back))) = Ok Changed)
  /\ (~ holds_int stmt ->
      findState stmt (Some (gittool.mkChange nm (front ++ s :: back))) = Hang).
Proof.
  intros Hfront Hstart Hend. cbn [findState gittool.Sections].
  assert (Htrips : section_trips s = Z.to_nat (2 ^ 64)).
  { unfold section_trips. rewrite Hend, Z.ltb_irrefl. f_equal.
    unfold int_max, int_min. lia. }
  split.
  - intros (line & Hline & Hhit).
    induction Hfront as [|s0 front [Hs1 Hs2] _ IH]; cbn [app sections_loop].
    + rewrite Htrips, Hend.
      rewrite (line_loop_wraps stmt
                 (Z.to_nat ((line - gittool.StartLine s) mod 2 ^ 64))
                 _ _ Hstart); [reflexivity| |].
      * pose proof (Z.mod_pos_bound (line - gittool.StartLine s) (2 ^ 64)). lia.
      * rewrite Z2Nat.id
          by (pose proof (Z.mod_pos_bound (line - gittool.StartLine s) (2 ^ 64)); lia).
        rewrite wrap_add_mod.
        replace (gittool.StartLine s + (line - gittool.StartLine s)) with line by lia.
        now rewrite (wrap_in_int line Hline).
    + destruct (line_loop_spec stmt (gittool.EndLine s0) Hs2
                  (section_trips s0) (gittool.StartLine s0) Hs1) as (b & -> & _).
      { unfold section_trips. rewrite (proj2 (Z.ltb_lt _ _) Hs2). lia. }
      destruct b; [reflexivity|exact IH].
  - intros Hnone.
    induction Hfront as [|s0 front [Hs1 Hs2] _ IH]; cbn [app sections_loop].
    + now rewrite Hend, (line_loop_never stmt Hnone _ _ Hstart).
    + destruct (line_loop_spec stmt (gittool.EndLine s0) Hs2
                  (section_trips s0) (gittool.StartLine s0) Hs1) as (b & -> & Hiff).
      { unfold section_trips. rewrite (proj2 (Z.ltb_lt _ _) Hs2). lia. }
      destruct b; [|exact IH].
      exfalso. apply Hnone. destruct (proj1 Hiff eq_refl) as (line & Hl1 & Hl2).
      exists line. split; [|exact Hl2].
      unfold in_int, int_max in *. lia.
Qed.

(** A statement on lines 3 to 5 and a hunk from line 10 to the largest
    [int]: no line is shared, and the statement is [Changed]. *)
Lemma findState_hunk_to_MaxInt_witness :
  findState (mkExtent 0 3 1 0 5 1)
    (Some (gittool.mkChange "a.go"
             ([gittool.mkSection 1 2] ++ gittool.mkSection 10 int_max :: [])))
  = Ok Changed.
Proof.
  apply (findState_hunk_to_MaxInt (mkExtent 0 3 1 0 5 1) "a.go"
           [gittool.mkSection 1 2] [] (gittool.mkSection 10 int_max)).
  - repeat constructor; unfold in_int, int_min, int_max; simpl; lia.
  - unfold in_int, int_min, int_max; simpl; lia.
  - reflexivity.
  - exists 3. unfold in_int, int_min, int_max; simpl; lia.
Defined.

(** ** The cursor of the reconciler *)



